(** * RowBoat: CSV rows <-> typed records

    A shallow embedding of [reader.go] and [writer.go] of notnil/rowboat.

    The record type [T] of a [Reader[T]] / [Writer[T]] is a list of field
    declarations (what [reflect.TypeOf(t)] exposes); a record is the list of
    its field values; the [encoding/csv] tokenizer is modelled at the level
    of lines that are already split into cells; the maps of the source
    ([headerMap], [fieldMap]) are finite maps. *)

From Stdlib Require Import ZArith Ascii String List Lia Bool Sorted.
From stdpp Require Import base option list gmap strings.

Local Open Scope string_scope.
Local Open Scope Z_scope.

(** ** Errors and results *)

(** The error values that travel through the package.  [ErrSetField] and
    [ErrMarshalField] are the errors that [fmt.Errorf] wraps with the name
    of the field. *)
Inductive error : Type :=
| EOF                                            (* io.EOF *)
| ErrFieldCount                                  (* csv.ErrFieldCount *)
| ErrParse (msg : string)                        (* any other csv.ParseError *)
| ErrSink (msg : string)                         (* error of the underlying writer *)
| ErrNotStruct                                   (* "generic type T must be a struct" *)
| ErrInvalidIndex (idxStr fieldName : string) (cause : error)
| ErrSyntax (fn num : string)                    (* strconv.NumError with ErrSyntax *)
| ErrRange (fn num : string)                     (* strconv.NumError with ErrRange *)
| ErrTime (value : string)                       (* *time.ParseError *)
| ErrUnsupported (typeName : string)             (* "unsupported field type: %s" *)
| ErrHook (msg : string)                         (* an error made by a user hook *)
| ErrSetField (fieldName : string) (cause : error)      (* "error setting field %s: %w" *)
| ErrMarshalField (fieldName : string) (cause : error). (* "error marshaling field %s: %w" *)

(** A Go call either returns a value, returns a non-nil error, or panics. *)
Inductive res (A : Type) : Type :=
| Ok (a : A)
| Err (e : error)
| Panic (msg : string).

Arguments Ok {A} a.
Arguments Err {A} e.
Arguments Panic {A} msg.

(** ** package strings *)

Module Strings.

(** White space as [unicode.IsSpace] sees it on ASCII text:
    tab, line feed, vertical tab, form feed, carriage return, space. *)
Definition isSpace (c : ascii) : bool :=
  let n := nat_of_ascii c in
  ((9 <=? n)%nat && (n <=? 13)%nat) || (n =? 32)%nat.

Fixpoint TrimLeft (s : string) : string :=
  match s with
  | EmptyString => EmptyString
  | String c s' => if isSpace c then TrimLeft s' else s
  end.

Fixpoint TrimRight (s : string) : string :=
  match s with
  | EmptyString => EmptyString
  | String c s' =>
      let t := TrimRight s' in
      if isSpace c && String.eqb t "" then "" else String c t
  end.

Definition TrimSpace (s : string) : string := TrimRight (TrimLeft s).

(** [strings.Split(s, sep)] for a one-character separator: always at
    least one part. *)
Fixpoint Split (s : string) (sep : ascii) : list string :=
  match s with
  | EmptyString => [""]
  | String c s' =>
      let r := Split s' sep in
      if Ascii.eqb c sep then "" :: r
      else match r with
           | h :: t => String c h :: t
           | [] => [String c ""]
           end
  end.

Definition HasPrefix (s p : string) : bool := String.prefix p s.

Fixpoint drop (n : nat) (s : string) : string :=
  match n, s with
  | O, _ => s
  | S n', String _ s' => drop n' s'
  | S _, EmptyString => EmptyString
  end.

Definition TrimPrefix (s p : string) : string :=
  if HasPrefix s p then drop (String.length p) s else s.

End Strings.

(** ** package strconv *)

Module Strconv.

Definition isDigit (c : ascii) : bool :=
  let n := nat_of_ascii c in (48 <=? n)%nat && (n <=? 57)%nat.

Definition digitVal (c : ascii) : Z := Z.of_nat (nat_of_ascii c) - 48.

Definition maxUint64 : Z := 2 ^ 64 - 1.

Inductive scan : Type :=
| Num (n : Z)
| BadSyntax
| OutOfRange.

(** The digit loop of [ParseUint(s, 10, 64)]: a character that is not a
    decimal digit is a syntax error, a value above [maxUint64] a range
    error, whichever the scan meets first. *)
Fixpoint scanDigits (s : string) (n : Z) : scan :=
  match s with
  | EmptyString => Num n
  | String c s' =>
      if isDigit c then
        if n >=? maxUint64 / 10 + 1 then OutOfRange
        else
          let n1 := n * 10 + digitVal c in
          if n1 >? maxUint64 then OutOfRange else scanDigits s' n1
      else BadSyntax
  end.

Definition ParseUint10 (s : string) : scan :=
  match s with
  | EmptyString => BadSyntax
  | _ => scanDigits s 0
  end.

(** [ParseInt(s, 10, 64)], reported under the function name [fn]
    ([Atoi] reports its errors as "Atoi"; [int] is 64 bits wide). *)
Definition parseInt64 (fn s : string) : res Z :=
  match s with
  | EmptyString => Err (ErrSyntax fn s)
  | String c rest =>
      let '(neg, body) :=
        if Ascii.eqb c "+" then (false, rest)
        else if Ascii.eqb c "-" then (true, rest)
        else (false, s) in
      match ParseUint10 body with
      | BadSyntax => Err (ErrSyntax fn s)
      | OutOfRange => Err (ErrRange fn s)
      | Num un =>
          if negb neg && (un >=? 2 ^ 63) then Err (ErrRange fn s)
          else if neg && (un >? 2 ^ 63) then Err (ErrRange fn s)
          else Ok (if neg then - un else un)
      end
  end.

Definition ParseInt (s : string) : res Z := parseInt64 "ParseInt" s.

Definition Atoi (s : string) : res Z := parseInt64 "Atoi" s.

(** Decimal digits of a natural number, most significant first. *)
Fixpoint digitsFuel (fuel : nat) (n : Z) (acc : string) : string :=
  match fuel with
  | O => acc
  | S fuel' =>
      let acc' := String (ascii_of_nat (Z.to_nat (48 + n mod 10))) acc in
      if n <? 10 then acc' else digitsFuel fuel' (n / 10) acc'
  end.

(** [FormatUint(n, 10)] for [0 <= n]. *)
Definition FormatUint (n : Z) : string :=
  digitsFuel (S (Z.to_nat (Z.log2 n))) n "".

(** [FormatInt(z, 10)]. *)
Definition FormatInt (z : Z) : string :=
  if z <? 0 then String "-" (FormatUint (- z)) else FormatUint z.

Definition ParseBool (s : string) : res bool :=
  if existsb (String.eqb s) ["1"; "t"; "T"; "TRUE"; "true"; "True"] then Ok true
  else if existsb (String.eqb s) ["0"; "f"; "F"; "FALSE"; "false"; "False"] then Ok false
  else Err (ErrSyntax "ParseBool" s).

Definition FormatBool (b : bool) : string := if b then "true" else "false".

End Strconv.

(** ** package reflect: kinds, values and types *)

Inductive Kind : Type :=
| KBool
| KInt | KInt8 | KInt16 | KInt32 | KInt64
| KUint | KUint8 | KUint16 | KUint32 | KUint64 | KUintptr
| KFloat32 | KFloat64 | KComplex64 | KComplex128
| KArray | KChan | KFunc | KInterface | KMap | KPointer | KSlice
| KString | KStruct | KUnsafePointer.

(** [time.Time] is the struct of a wall clock reading, a monotonic reading
    and a location. *)
Record Time : Type := mkTime { wall : Z; ext : Z; loc : option string }.

(** What a field holds.  A float is its IEEE-754 bit pattern, an integer its
    numeric value; a composite value is the list of its parts. *)
#[warnings="-register-all"]
Inductive Value : Type :=
| VBool (b : bool)
| VInt (z : Z)
| VUint (z : Z)
| VFloat (bits : Z)
| VString (s : string)
| VTime (t : Time)
| VStruct (parts : list Value)
| VNil.

(** The hooks a user type may carry.  [UnmarshalCSV] on a value receiver
    works on a copy and can only report an error; on a pointer receiver it
    rewrites the field. *)
Inductive Unmarshaler : Type :=
| UnmarshalByValue (f : string -> Value -> option error)
| UnmarshalByPointer (f : string -> Value -> res Value).

Inductive Marshaler : Type :=
| MarshalByValue (f : Value -> res string)
| MarshalByPointer (f : Value -> res string).

(** A [reflect.Type]: its printed name, its kind, the methods of the two
    hook interfaces that it (or a pointer to it) has, and the zero value of
    a composite type. *)
Record GoType : Type := mkType {
  TypeString : string;
  TKind : Kind;
  UnmarshalCSV : option Unmarshaler;
  MarshalCSV : option Marshaler;
  ZeroComposite : Value
}.

(** [t == reflect.TypeOf(time.Time{})]: the struct type of that name. *)
Definition isTimeType (t : GoType) : bool :=
  match TKind t with
  | KStruct => String.eqb (TypeString t) "time.Time"
  | _ => false
  end.

Definition zeroTime : Time := mkTime 0 0 None.

(** The zero value [var t T] gives a field of type [t]. *)
Definition zeroValue (t : GoType) : Value :=
  match TKind t with
  | KBool => VBool false
  | KInt | KInt8 | KInt16 | KInt32 | KInt64 => VInt 0
  | KUint | KUint8 | KUint16 | KUint32 | KUint64 | KUintptr => VUint 0
  | KFloat32 | KFloat64 => VFloat 0
  | KString => VString ""
  | KStruct => if isTimeType t then VTime zeroTime else ZeroComposite t
  | KArray | KComplex64 | KComplex128 => ZeroComposite t
  | _ => VNil
  end.

(** A [reflect.StructField]: [Tag] is the value of the field's [csv] key,
    [Tag.Get("csv")]; [Index0] is [Index[0]], the position of the field in
    its struct; [PkgPath] is empty exactly for an exported field. *)
Record StructField : Type := mkField {
  Name : string;
  PkgPath : string;
  Typ : GoType;
  Tag : string;
  Index0 : nat
}.

(** One field as the struct type declares it. *)
Record FieldDecl : Type := mkDecl {
  declName : string;
  declPkgPath : string;
  declType : GoType;
  declTag : string
}.

(** The type parameter [T] of a reader or writer. *)
Record RecordType : Type := mkRecordType {
  Kind_ : Kind;
  decls : list FieldDecl
}.

Fixpoint fieldsFrom (i : nat) (ds : list FieldDecl) : list StructField :=
  match ds with
  | [] => []
  | d :: ds' =>
      mkField (declName d) (declPkgPath d) (declType d) (declTag d) i
        :: fieldsFrom (S i) ds'
  end.

(** [tType.Field(0)], ..., [tType.Field(NumField-1)]. *)
Definition structFields (T : RecordType) : list StructField := fieldsFrom 0 (decls T).

(** ** The field resolver

    [createFieldMap] (reader.go) and [createFieldInfo] (writer.go) start
    with the same three steps: collect the fields and their indexes, give
    an index to the fields without an explicit one, sort by index. *)

Record fieldInfo : Type := mkInfo {
  field : StructField;
  name : string;
  index : Z
}.

(** The loop over [tagParts[1:]]. *)
Fixpoint scanParts (fieldName : string) (parts : list string) (idx maxIndex : Z)
  : res (Z * Z) :=
  match parts with
  | [] => Ok (idx, maxIndex)
  | part :: rest =>
      let part := Strings.TrimSpace part in
      if Strings.HasPrefix part "index=" then
        let idxStr := Strings.TrimPrefix part "index=" in
        match Strconv.Atoi idxStr with
        | Ok i => scanParts fieldName rest i (if i >? maxIndex then i else maxIndex)
        | Err e => Err (ErrInvalidIndex idxStr fieldName e)
        | Panic m => Panic m
        end
      else scanParts fieldName rest idx maxIndex
  end.

(** First pass: the loop over the fields of [T]. *)
Fixpoint collectFields (fs : list StructField) (fields : list fieldInfo) (maxIndex : Z)
  : res (list fieldInfo * Z) :=
  match fs with
  | [] => Ok (fields, maxIndex)
  | f :: fs' =>
      let csvTag := Tag f in
      if String.eqb csvTag "-" then collectFields fs' fields maxIndex
      else
        let tagParts := Strings.Split csvTag "," in
        let nm := match tagParts with
                  | p0 :: _ => if String.eqb p0 "" then Name f else p0
                  | [] => Name f
                  end in
        match scanParts (Name f) (tail tagParts) (Z.of_nat (Index0 f)) maxIndex with
        | Ok (idx, maxIndex') => collectFields fs' (fields ++ [mkInfo f nm idx]) maxIndex'
        | Err e => Err e
        | Panic m => Panic m
        end
  end.

(** "Assign indexes to fields without explicit index": a field whose
    index equals its position in the struct takes the next free index. *)
Fixpoint assignIndexes (fields : list fieldInfo) (nextIndex : Z) : list fieldInfo :=
  match fields with
  | [] => []
  | fi :: rest =>
      if index fi =? Z.of_nat (Index0 (field fi))
      then mkInfo (field fi) (name fi) nextIndex :: assignIndexes rest (nextIndex + 1)
      else fi :: assignIndexes rest nextIndex
  end.

(** [sort.Slice(fields, less)] with [less i j := fields[i].index <
    fields[j].index].  For a slice of at most twelve elements the library
    runs an insertion sort: each element moves left while it is less than
    its left neighbour.  On a longer slice it runs another sort, with the
    same result whenever the indexes differ from each other. *)
Fixpoint insertByIndex (fi : fieldInfo) (sorted : list fieldInfo) : list fieldInfo :=
  match sorted with
  | [] => [fi]
  | fj :: rest =>
      if index fi <? index fj then fi :: fj :: rest
      else fj :: insertByIndex fi rest
  end.

Definition sortSlice (fields : list fieldInfo) : list fieldInfo :=
  fold_left (fun sorted fi => insertByIndex fi sorted) fields [].

(** The three steps, with the check that [T] is a struct. *)
Definition resolveFields (T : RecordType) : res (list fieldInfo) :=
  match Kind_ T with
  | KStruct =>
      match collectFields (structFields T) [] (-1) with
      | Ok (fields, maxIndex) => Ok (sortSlice (assignIndexes fields (maxIndex + 1)))
      | Err e => Err e
      | Panic m => Panic m
      end
  | _ => Err ErrNotStruct
  end.

(** [createFieldInfo] of the writer: [rw.fields]. *)
Definition createFieldInfo (T : RecordType) : res (list fieldInfo) := resolveFields T.

(** "Map headers to fields": a later header of the same trimmed name wins. *)
Fixpoint headerMapFrom (i : nat) (headers : list string) (m : gmap string nat)
  : gmap string nat :=
  match headers with
  | [] => m
  | h :: hs => headerMapFrom (S i) hs (<[Strings.TrimSpace h := i]> m)
  end.

(** "Create final field mapping": a later field of the same name wins. *)
Fixpoint fillFieldMap (fields : list fieldInfo) (headerMap : gmap string nat)
    (m : gmap nat StructField) : gmap nat StructField :=
  match fields with
  | [] => m
  | fi :: rest =>
      fillFieldMap rest headerMap
        (match headerMap !! name fi with
         | Some idx => <[idx := field fi]> m
         | None => m
         end)
  end.

(** [createFieldMap] of the reader: [rb.fieldMap]. *)
Definition createFieldMap (T : RecordType) (headers : list string)
  : res (gmap nat StructField) :=
  match resolveFields T with
  | Ok fields => Ok (fillFieldMap fields (headerMapFrom 0 headers ∅) ∅)
  | Err e => Err e
  | Panic m => Panic m
  end.

(** ** package reflect: values *)

(** A [reflect.Value]: the type and content of a field, whether it is
    addressable ([flagAddr]) and whether it was reached through an
    unexported field ([flagRO]). *)
Record RValue : Type := mkRValue {
  rtype : GoType;
  rval : Value;
  flagAddr : bool;
  flagRO : bool
}.

Definition CanAddr (v : RValue) : bool := flagAddr v.

Definition CanInterface (v : RValue) : bool := negb (flagRO v).

Definition CanSet (v : RValue) : bool := flagAddr v && negb (flagRO v).

(** [t] implements the hook interface: the method has a value receiver. *)
Definition implementsUnmarshaler (t : GoType) : bool :=
  match UnmarshalCSV t with
  | Some (UnmarshalByValue _) => true
  | _ => false
  end.

(** [*t] implements the hook interface: the method has either receiver. *)
Definition ptrImplementsUnmarshaler (t : GoType) : bool :=
  match UnmarshalCSV t with
  | Some _ => true
  | None => false
  end.

Definition implementsMarshaler (t : GoType) : bool :=
  match MarshalCSV t with
  | Some (MarshalByValue _) => true
  | _ => false
  end.

Definition ptrImplementsMarshaler (t : GoType) : bool :=
  match MarshalCSV t with
  | Some _ => true
  | None => false
  end.

(** The call [unmarshaler.UnmarshalCSV(value)] and the content of the
    field after it. *)
Definition callUnmarshalCSV (t : GoType) (value : string) (v : Value) : res Value :=
  match UnmarshalCSV t with
  | Some (UnmarshalByValue f) =>
      match f value v with
      | None => Ok v
      | Some e => Err e
      end
  | Some (UnmarshalByPointer f) => f value v
  | None => Panic "interface conversion"
  end.

Definition callMarshalCSV (t : GoType) (v : Value) : res string :=
  match MarshalCSV t with
  | Some (MarshalByValue f) => f v
  | Some (MarshalByPointer f) => f v
  | None => Panic "interface conversion"
  end.

(** [Value.Int()], [Value.Uint()], ... on a value of the right kind. *)
Definition asInt (v : Value) : Z := match v with VInt z => z | _ => 0 end.

Definition asUint (v : Value) : Z := match v with VUint z => z | _ => 0 end.

Definition asFloat (v : Value) : Z := match v with VFloat b => b | _ => 0 end.

Definition asBool (v : Value) : bool := match v with VBool b => b | _ => false end.

Definition asString (v : Value) : string := match v with VString s => s | _ => "" end.

Definition asTime (v : Value) : Time := match v with VTime t => t | _ => zeroTime end.

(** The number of bits of a signed integer kind ([int] has 64). *)
Definition intBits (k : Kind) : Z :=
  match k with
  | KInt8 => 8
  | KInt16 => 16
  | KInt32 => 32
  | _ => 64
  end.

(** [SetInt] stores its argument converted to the kind of the field: the
    low bits, read as a two's complement number. *)
Definition wrapInt (bits z : Z) : Z :=
  (z + 2 ^ (bits - 1)) mod 2 ^ bits - 2 ^ (bits - 1).

(** Any [Set...] panics on a value that is not settable. *)
Definition store (fv : RValue) (v : Value) : res Value :=
  if CanSet fv then Ok v else Panic "reflect: value is not settable".

(** The codecs of the standard library that are used and not modelled:
    floating point ([strconv.ParseFloat(_, 64)], [strconv.FormatFloat(_,
    'f', -1, 64)], the conversion to [float32] of [SetFloat]) and
    timestamps ([time.Parse] and [Time.Format] with [time.RFC3339]). *)
Record Externals : Type := mkExternals {
  ParseFloat : string -> res Z;
  FormatFloat : Z -> string;
  toFloat32 : Z -> Z;
  time_Parse : string -> res Time;
  time_Format : Time -> string
}.

Section Codec.

Context (lib : Externals).

(** [setFieldValue(field, value)]: the content of the field afterwards. *)
Definition setFieldValue (fv : RValue) (value : string) : res Value :=
  let t := rtype fv in
  if CanInterface fv && implementsUnmarshaler t then
    callUnmarshalCSV t value (rval fv)
  else if CanAddr fv && CanInterface fv && ptrImplementsUnmarshaler t then
    callUnmarshalCSV t value (rval fv)
  else if isTimeType t then
    match time_Parse lib value with
    | Ok tm => store fv (VTime tm)
    | Err e => Err e
    | Panic m => Panic m
    end
  else
    match TKind t with
    | KString => store fv (VString value)
    | KInt | KInt8 | KInt16 | KInt32 | KInt64 =>
        match Strconv.ParseInt value with
        | Ok intValue => store fv (VInt (wrapInt (intBits (TKind t)) intValue))
        | Err e => Err e
        | Panic m => Panic m
        end
    | KFloat32 | KFloat64 =>
        match ParseFloat lib value with
        | Ok floatValue =>
            store fv (VFloat (match TKind t with
                              | KFloat32 => toFloat32 lib floatValue
                              | _ => floatValue
                              end))
        | Err e => Err e
        | Panic m => Panic m
        end
    | KBool =>
        match Strconv.ParseBool value with
        | Ok boolValue => store fv (VBool boolValue)
        | Err e => Err e
        | Panic m => Panic m
        end
    | _ => Err (ErrUnsupported (TypeString t))
    end.

(** [getFieldStringValue(field)]. *)
Definition getFieldStringValue (fv : RValue) : res string :=
  let t := rtype fv in
  if CanInterface fv && implementsMarshaler t then
    callMarshalCSV t (rval fv)
  else if CanAddr fv && CanInterface fv && ptrImplementsMarshaler t then
    callMarshalCSV t (rval fv)
  else if isTimeType t then
    if CanInterface fv then Ok (time_Format lib (asTime (rval fv)))
    else Panic "reflect.Value.Interface: unexported field"
  else
    match TKind t with
    | KString => Ok (asString (rval fv))
    | KInt | KInt8 | KInt16 | KInt32 | KInt64 => Ok (Strconv.FormatInt (asInt (rval fv)))
    | KUint | KUint8 | KUint16 | KUint32 | KUint64 =>
        Ok (Strconv.FormatUint (asUint (rval fv)))
    | KFloat32 | KFloat64 => Ok (FormatFloat lib (asFloat (rval fv)))
    | KBool => Ok (Strconv.FormatBool (asBool (rval fv)))
    | _ => Err (ErrUnsupported (TypeString t))
    end.

End Codec.

(** ** package encoding/csv

    The tokenizer and the encoder of the standard library, at the level of
    lines.  An input is the list of its lines, each already split into
    cells: a blank line, a line of one or more cells, or a line the
    tokenizer rejects.  [csv.NewReader] leaves [FieldsPerRecord] at 0:
    [Read] then sets it to the number of cells of the first record and
    requires that number of every later record.  A rejected line leaves
    it as it is. *)

Module Csv.

Inductive line : Type :=
| Blank
| Cells (c : string) (cs : list string)
| Malformed (msg : string).

Record Reader : Type := mkReader {
  input : list line;
  FieldsPerRecord : Z
}.

Definition NewReader (r : list line) : Reader := mkReader r 0.

(** The next record of the input: blank lines are skipped, the end of the
    input is [io.EOF]. *)
Fixpoint readRecord (ls : list line) : res (list string) * list line :=
  match ls with
  | [] => (Err EOF, [])
  | Blank :: rest => readRecord rest
  | Cells c cs :: rest => (Ok (c :: cs), rest)
  | Malformed msg :: rest => (Err (ErrParse msg), rest)
  end.

Definition Read (r : Reader) : res (list string) * Reader :=
  match readRecord (input r) with
  | (Ok record, rest) =>
      if FieldsPerRecord r >? 0 then
        if negb (Z.of_nat (length record) =? FieldsPerRecord r)
        then (Err ErrFieldCount, mkReader rest (FieldsPerRecord r))
        else (Ok record, mkReader rest (FieldsPerRecord r))
      else if FieldsPerRecord r =? 0 then
        (Ok record, mkReader rest (Z.of_nat (length record)))
      else (Ok record, mkReader rest (FieldsPerRecord r))
  | (other, rest) => (other, mkReader rest (FieldsPerRecord r))
  end.

(** What reaches the sink, in order. *)
Inductive event : Type :=
| Row (cells : list string)
| Flushed.

(** The encoder: what it has sent, and the error of the underlying writer
    once there is one (every later write then fails with it). *)
Record Writer : Type := mkWriter {
  out : list event;
  werr : option error
}.

Definition NewWriter (broken : option error) : Writer := mkWriter [] broken.

Definition Write (w : Writer) (record : list string) : Writer * option error :=
  match werr w with
  | Some e => (w, Some e)
  | None => (mkWriter (out w ++ [Row record]) None, None)
  end.

Definition Flush (w : Writer) : Writer :=
  match werr w with
  | Some _ => w
  | None => mkWriter (out w ++ [Flushed]) None
  end.

End Csv.

(** ** Reader and Writer *)

(** [var t T]: every field at its zero value. *)
Definition zeroRecord (T : RecordType) : list Value :=
  map (fun f => zeroValue (Typ f)) (structFields T).

(** [v.FieldByName(name)] on a record [t] of type [T]: the position and
    the [reflect.Value] of the field, addressable when the record is. *)
Definition FieldByName (T : RecordType) (t : list Value) (addressable : bool)
    (nm : string) : option (nat * RValue) :=
  match find (fun f => String.eqb (Name f) nm) (structFields T) with
  | Some f =>
      Some (Index0 f,
            mkRValue (Typ f) (default VNil (t !! Index0 f)) addressable
                     (negb (String.eqb (PkgPath f) "")))
  | None => None
  end.

Record Reader : Type := mkReader {
  reader : Csv.Reader;
  headers : list string;
  fieldMap : gmap nat StructField;
  err : option error;
  current : list Value
}.

Record Writer : Type := mkWriter {
  writer : Csv.Writer;
  fields : list fieldInfo;
  writeHeaderOnce : bool
}.

(** How a call of the sequence of [All] ends. *)
Inductive outcome : Type :=
| Returned
| Panicked (e : error)          (* panic(rb.err) *)
| Crashed (msg : string).       (* a run-time panic *)

(** [NewReader]. *)
Definition NewReader (T : RecordType) (r : list Csv.line) : res Reader :=
  match Csv.Read (Csv.NewReader r) with
  | (Ok hs, rd) =>
      match createFieldMap T hs with
      | Ok fm => Ok (mkReader rd hs fm None (zeroRecord T))
      | Err e => Err e
      | Panic m => Panic m
      end
  | (Err e, _) => Err e
  | (Panic m, _) => Panic m
  end.

(** [NewWriter]. *)
Definition NewWriter (T : RecordType) (w : option error) : res Writer :=
  match createFieldInfo T with
  | Ok fs => Ok (mkWriter (Csv.NewWriter w) fs false)
  | Err e => Err e
  | Panic m => Panic m
  end.

Section Rowboat.

Context (lib : Externals).

(** The loop of [nextRow] over the cells of a record, from cell [idx] on:
    [t] is the struct being filled. *)
Fixpoint decodeCells (T : RecordType) (fm : gmap nat StructField) (idx : nat)
    (record : list string) (t : list Value) : res (list Value) :=
  match record with
  | [] => Ok t
  | value :: rest =>
      match fm !! idx with
      | Some f =>
          match FieldByName T t true (Name f) with
          | Some (pos, fieldValue) =>
              if negb (CanSet fieldValue) then decodeCells T fm (S idx) rest t
              else
                match setFieldValue lib fieldValue value with
                | Ok v => decodeCells T fm (S idx) rest (<[pos := v]> t)
                | Err e => Err (ErrSetField (Name f) e)
                | Panic m => Panic m
                end
          | None => decodeCells T fm (S idx) rest t
          end
      | None => decodeCells T fm (S idx) rest t
      end
  end.

(** [nextRow]: whether there is a record, and the reader afterwards. *)
Definition nextRow (T : RecordType) (rb : Reader) : res (bool * Reader) :=
  match Csv.Read (reader rb) with
  | (Err EOF, rd) =>
      Ok (false, mkReader rd (headers rb) (fieldMap rb) (err rb) (current rb))
  | (Err e, rd) =>
      Ok (false, mkReader rd (headers rb) (fieldMap rb) (Some e) (current rb))
  | (Panic m, _) => Panic m
  | (Ok record, rd) =>
      match decodeCells T (fieldMap rb) 0 record (zeroRecord T) with
      | Ok t => Ok (true, mkReader rd (headers rb) (fieldMap rb) (err rb) t)
      | Err e =>
          Ok (false, mkReader rd (headers rb) (fieldMap rb) (Some e) (current rb))
      | Panic m => Panic m
      end
  end.

(** The sequence of [All], run against a consumer: [yield] takes the state
    of the consumer and a record, and says whether to go on.  [fuel]
    bounds the number of rounds of the loop. *)
Fixpoint AllLoop {C : Type} (fuel : nat) (T : RecordType) (rb : Reader)
    (yield : C -> list Value -> C * bool) (c : C) : Reader * C * outcome :=
  match fuel with
  | O => (rb, c, Returned)
  | S fuel' =>
      match nextRow T rb with
      | Ok (true, rb') =>
          let record := current rb' in
          let '(c', more) := yield c record in
          if more then AllLoop fuel' T rb' yield c'
          else (rb', c', Returned)
      | Ok (false, rb') =>
          match err rb' with
          | Some EOF | None => (rb', c, Returned)
          | Some e => (rb', c, Panicked e)
          end
      | Err e => (rb, c, Crashed "unreachable")
      | Panic m => (rb, c, Crashed m)
      end
  end.

(** [All]: every round of the loop reads at least one line, so one round
    more than there are lines left is enough. *)
Definition All {C : Type} (T : RecordType) (rb : Reader)
    (yield : C -> list Value -> C * bool) (c : C) : Reader * C * outcome :=
  AllLoop (S (length (Csv.input (reader rb)))) T rb yield c.

(** [slices.Collect(rb.All())]: the records, and how the sequence ended. *)
Definition Collect (T : RecordType) (rb : Reader) : list (list Value) * outcome :=
  let '(_, acc, o) := All T rb (fun acc record => ((acc ++ [record])%list, true)) [] in
  (acc, o).

(** The loop of [Write] over [rw.fields]. *)
Fixpoint encodeFields (T : RecordType) (record : list Value) (fs : list fieldInfo)
  : res (list string) :=
  match fs with
  | [] => Ok []
  | fi :: rest =>
      match FieldByName T record false (Name (field fi)) with
      | Some (_, fieldValue) =>
          match getFieldStringValue lib fieldValue with
          | Ok strValue =>
              match encodeFields T record rest with
              | Ok strs => Ok (strValue :: strs)
              | other => other
              end
          | Err e => Err (ErrMarshalField (Name (field fi)) e)
          | Panic m => Panic m
          end
      | None => Panic "reflect: call of reflect.Value.CanInterface on zero Value"
      end
  end.

(** [Write]: the writer afterwards and what the call returns. *)
Definition Write (T : RecordType) (rw : Writer) (record : list Value)
  : Writer * res unit :=
  let withHeader :=
    if negb (writeHeaderOnce rw) then
      match Csv.Write (writer rw) (map name (fields rw)) with
      | (w, Some e) => inr (mkWriter w (fields rw) (writeHeaderOnce rw), e)
      | (w, None) => inl (mkWriter (Csv.Flush w) (fields rw) true)
      end
    else inl rw in
  match withHeader with
  | inr (rw', e) => (rw', Err e)
  | inl rw' =>
      match encodeFields T record (fields rw') with
      | Ok recordValues =>
          match Csv.Write (writer rw') recordValues with
          | (w, Some e) => (mkWriter w (fields rw') (writeHeaderOnce rw'), Err e)
          | (w, None) =>
              (mkWriter (Csv.Flush w) (fields rw') (writeHeaderOnce rw'), Ok tt)
          end
      | Err e => (rw', Err e)
      | Panic m => (rw', Panic m)
      end
  end.

(** [WriteAll]: stops at the first record whose [Write] fails. *)
Fixpoint WriteAll (T : RecordType) (rw : Writer) (records : list (list Value))
  : Writer * res unit :=
  match records with
  | [] => (rw, Ok tt)
  | record :: rest =>
      match Write T rw record with
      | (rw', Ok _) => WriteAll T rw' rest
      | (rw', failure) => (rw', failure)
      end
  end.

End Rowboat.

(** * Vocabulary of the properties *)

(** ** Runs of the reader and of the writer *)

(** [Yields lib T rb recs rb']: pulling from the reader in state [rb]
    produces the records [recs], one per successful [nextRow], and leaves
    it in state [rb']. *)
Inductive Yields (lib : Externals) (T : RecordType)
  : Reader -> list (list Value) -> Reader -> Prop :=
| Yields_nil (rb : Reader) : Yields lib T rb [] rb
| Yields_cons (rb rb1 rb2 : Reader) (recs : list (list Value)) :
    nextRow lib T rb = Ok (true, rb1) ->
    Yields lib T rb1 recs rb2 ->
    Yields lib T rb (current rb1 :: recs) rb2.

(** A consumer fed the records [recs] in order, until it declines: its
    state, and whether it still asks for more. *)
Fixpoint feed {C : Type} (yield : C -> list Value -> C * bool) (c : C)
    (recs : list (list Value)) : C * bool :=
  match recs with
  | [] => (c, true)
  | r :: rest =>
      let '(c', more) := yield c r in
      if more then feed yield c' rest else (c', false)
  end.

(** The whole pipeline on an input: [NewReader], then the sequence of
    [All] against a consumer; what the consumer ends with, and how the
    sequence ended. *)
Definition readAll {C : Type} (lib : Externals) (T : RecordType) (r : list Csv.line)
    (yield : C -> list Value -> C * bool) (c : C) : res (C * outcome) :=
  match NewReader T r with
  | Ok rb => let '(_, c', o) := All lib T rb yield c in Ok (c', o)
  | Err e => Err e
  | Panic m => Panic m
  end.

(** What the writer sends for the records it is given. *)
Definition written (lib : Externals) (T : RecordType) (records : list (list Value))
  : res (list Csv.event) :=
  match NewWriter T None with
  | Ok rw =>
      match WriteAll lib T rw records with
      | (rw', Ok _) => Ok (Csv.out (writer rw'))
      | (_, Err e) => Err e
      | (_, Panic m) => Panic m
      end
  | Err e => Err e
  | Panic m => Panic m
  end.

(** The reader [NewReader] builds on an input, or an exhausted reader
    without columns when it fails. *)
Definition readerOn (T : RecordType) (r : list Csv.line) : Reader :=
  match NewReader T r with
  | Ok rb => rb
  | _ => mkReader (Csv.NewReader []) [] ∅ None (zeroRecord T)
  end.

(** What the sink receives for data rows: each row, then a flush. *)
Definition dataRows (rows : list (list string)) : list Csv.event :=
  concat (map (fun row => [Csv.Row row; Csv.Flushed]) rows).

(** The tokenizer hands the reader the row [row] as the line [l]. *)
Definition carries (row : list string) (l : Csv.line) : Prop :=
  match l with
  | Csv.Cells c cs => row = c :: cs
  | _ => False
  end.

(** ** Readers and record types *)

Definition nonBlank (l : Csv.line) : bool :=
  match l with
  | Csv.Blank => false
  | _ => true
  end.

(** Two readers that differ only by blank lines in what is left to read. *)
Definition sameButBlank (rb rb' : Reader) : Prop :=
  Csv.input (reader rb') = List.filter nonBlank (Csv.input (reader rb)) /\
  Csv.FieldsPerRecord (reader rb') = Csv.FieldsPerRecord (reader rb) /\
  headers rb' = headers rb /\ fieldMap rb' = fieldMap rb /\
  err rb' = err rb /\ current rb' = current rb.

(** What [NewReader] sets up and no [nextRow] changes: the tokenizer
    requires of every record the number of cells of the header. *)
Definition counted (rb : Reader) : Prop :=
  Csv.FieldsPerRecord (reader rb) = Z.of_nat (length (headers rb)) /\
  (0 < length (headers rb))%nat.

(** The rule of the language that the fields of a struct have different
    names. *)
Definition uniqueNames (T : RecordType) : Prop := NoDup (map Name (structFields T)).

(** The column name of a field: the first part of its tag, or its own
    name when that part is empty. *)
Definition columnName (f : StructField) : string :=
  match Strings.Split (Tag f) "," with
  | p0 :: _ => if String.eqb p0 "" then Name f else p0
  | [] => Name f
  end.

(** The tag has no [index=] part. *)
Definition noIndex (tag : string) : bool :=
  forallb (fun part => negb (Strings.HasPrefix (Strings.TrimSpace part) "index="))
          (tail (Strings.Split tag ",")).

(** A field that is written and read: not skipped, exported, and without
    explicit ordinal. *)
Definition plainField (f : StructField) : bool :=
  negb (String.eqb (Tag f) "-") && String.eqb (PkgPath f) "" && noIndex (Tag f).

(** The fields [fs] in their order, with the indexes [n], [n+1], ... *)
Fixpoint numbered (n : Z) (fs : list StructField) : list fieldInfo :=
  match fs with
  | [] => []
  | f :: fs' => mkInfo f (columnName f) n :: numbered (n + 1) fs'
  end.

(** The resolved order as pairs (Go field name, index). *)
Definition order (r : res (list fieldInfo)) : res (list (string * Z)) :=
  match r with
  | Ok fields => Ok (map (fun fi => (Name (field fi), index fi)) fields)
  | Err e => Err e
  | Panic m => Panic m
  end.

(** ** The codec on one field *)

Definition isUintKind (k : Kind) : bool :=
  match k with
  | KUint | KUint8 | KUint16 | KUint32 | KUint64 => true
  | _ => false
  end.

(** The type of a field, with its hooks taken away. *)
Definition withoutHooks (t : GoType) : GoType :=
  mkType (TypeString t) (TKind t) None None (ZeroComposite t).

(** The values of the built-in kinds that both codecs handle: strings,
    booleans, and signed integers within the range of their kind. *)
Definition builtinValue (k : Kind) (v : Value) : Prop :=
  match k, v with
  | KString, VString _ => True
  | KBool, VBool _ => True
  | (KInt | KInt8 | KInt16 | KInt32 | KInt64), VInt z =>
      - 2 ^ (intBits k - 1) <= z < 2 ^ (intBits k - 1)
  | _, _ => False
  end.

(** The cell the writer makes of the value [v] of the field [f], and the
    value the reader makes of a cell for the field [f] of a fresh record. *)
Definition encodeField (lib : Externals) (f : StructField) (v : Value) : res string :=
  getFieldStringValue lib
    (mkRValue (Typ f) v false (negb (String.eqb (PkgPath f) ""))).

Definition decodeField (lib : Externals) (f : StructField) (cell : string) : res Value :=
  setFieldValue lib
    (mkRValue (Typ f) (zeroValue (Typ f)) true (negb (String.eqb (PkgPath f) ""))) cell.

(** The value [v] of the field [f] survives the codec: it is encoded, and
    the cell decodes to [v] again. *)
Definition survives (lib : Externals) (f : StructField) (v : Value) : Prop :=
  exists s, encodeField lib f v = Ok s /\ decodeField lib f s = Ok v.

(** A record of type [T] all of whose field values survive the codec. *)
Definition roundTrips (lib : Externals) (T : RecordType) (record : list Value) : Prop :=
  Forall2 (survives lib) (structFields T) record.

(** The cells of the fields [fs] holding the values [vs]. *)
Definition cellsFor (lib : Externals) (fs : list StructField) (vs : list Value)
  : list string :=
  zip_with (fun f v => match encodeField lib f v with Ok s => s | _ => "" end) fs vs.

(** ** Decimal text *)

Fixpoint allDigits (s : string) : bool :=
  match s with
  | EmptyString => true
  | String c s' => Strconv.isDigit c && allDigits s'
  end.

(** The number a digit string denotes, read after the number [k]. *)
Fixpoint decimalVal (s : string) (k : Z) : Z :=
  match s with
  | EmptyString => k
  | String c s' => decimalVal s' (k * 10 + Strconv.digitVal c)
  end.

Definition digitChar (d : Z) : ascii := ascii_of_nat (Z.to_nat (48 + d)).

(** ** The resolver of the specification *)

(** Step 3 of the resolver as the specification words it: the fields
    "still holding their placeholder (no explicit ordinal)" are told by
    their annotation, not by the value of their index. *)
Fixpoint assignByAnnotation (fields : list fieldInfo) (nextIndex : Z) : list fieldInfo :=
  match fields with
  | [] => []
  | fi :: rest =>
      if noIndex (Tag (field fi))
      then mkInfo (field fi) (name fi) nextIndex :: assignByAnnotation rest (nextIndex + 1)
      else fi :: assignByAnnotation rest nextIndex
  end.

(** The resolver with that step 3. *)
Definition resolveFieldsSpec (T : RecordType) : res (list fieldInfo) :=
  match Kind_ T with
  | KStruct =>
      match collectFields (structFields T) [] (-1) with
      | Ok (fields, maxIndex) => Ok (sortSlice (assignByAnnotation fields (maxIndex + 1)))
      | Err e => Err e
      | Panic m => Panic m
      end
  | _ => Err ErrNotStruct
  end.

(** ** Sample data *)

(** Built-in types used in the examples. *)
Definition tString : GoType := mkType "string" KString None None VNil.

Definition tInt : GoType := mkType "int" KInt None None VNil.

Definition tBool : GoType := mkType "bool" KBool None None VNil.

Definition tUint : GoType := mkType "uint" KUint None None VNil.

Definition exported (nm : string) (t : GoType) (tag : string) : FieldDecl :=
  mkDecl nm "" t tag.

(** The library codecs for the samples below, none of which has a
    floating-point or timestamp field: they accept no text. *)
Definition sampleLib : Externals :=
  mkExternals (fun s => Err (ErrSyntax "ParseFloat" s)) (fun _ => "0") id
              (fun s => Err (ErrTime s)) (fun _ => "0001-01-01T00:00:00Z").

(** [Person] of the package's tests. *)
Definition Person : RecordType :=
  mkRecordType KStruct
    [exported "Name" tString "Name"; exported "Email" tString "Email";
     exported "Age" tInt "Age"].

Definition alice : list Value := [VString "Alice"; VString "alice@example.com"; VInt 30].

Definition bob : list Value := [VString "Bob"; VString "bob@example.com"; VInt 25].

(** A header, a good row, and a row whose age is not a number. *)
Definition badAgeInput : list Csv.line :=
  [Csv.Cells "Name" ["Email"; "Age"];
   Csv.Cells "Alice" ["alice@example.com"; "30"];
   Csv.Cells "Bob" ["bob@example.com"; "twenty"];
   Csv.Cells "Carol" ["carol@example.com"; "41"]].

(** The reader on [badAgeInput] once it has produced its first record. *)
Definition afterAlice : Reader :=
  mkReader (Csv.mkReader [Csv.Cells "Bob" ["bob@example.com"; "twenty"];
                          Csv.Cells "Carol" ["carol@example.com"; "41"]] 3)
           ["Name"; "Email"; "Age"]
           (fieldMap (readerOn Person badAgeInput)) None alice.

(** A consumer that keeps the first record and stops. *)
Definition takeOne (acc : list (list Value)) (r : list Value)
  : list (list Value) * bool := ((acc ++ [r])%list, false).

(** A header of three columns, a full row, and a row of two cells. *)
Definition shortRowInput : list Csv.line :=
  [Csv.Cells "Name" ["Email"; "Age"];
   Csv.Cells "Alice" ["alice@example.com"; "30"];
   Csv.Cells "Bob" ["bob@example.com"]].

Definition beforeShortRow : Reader :=
  mkReader (Csv.mkReader [Csv.Cells "Bob" ["bob@example.com"]] 3)
           ["Name"; "Email"; "Age"]
           (fieldMap (readerOn Person shortRowInput)) None alice.

(** [Account]: a person with a balance that the header below lacks. *)
Definition Account : RecordType :=
  mkRecordType KStruct
    [exported "Name" tString "Name"; exported "Balance" tInt "Balance"].

Definition accountFields : list fieldInfo :=
  match resolveFields Account with
  | Ok fields => fields
  | _ => []
  end.

(** A named integer type whose [MarshalCSV] has a pointer receiver and
    writes the number with a unit, and whose [UnmarshalCSV] reads it. *)
Definition tCelsius : GoType :=
  mkType "main.Celsius" KInt
    (Some (UnmarshalByPointer (fun value _ =>
       match Strconv.ParseInt (Strings.TrimPrefix value "C") with
       | Ok z => Ok (VInt z)
       | Err e => Err e
       | Panic m => Panic m
       end)))
    (Some (MarshalByPointer (fun v => Ok (String "C" (Strconv.FormatInt (asInt v))))))
    VNil.

Definition Reading : RecordType :=
  mkRecordType KStruct [exported "Temp" tCelsius "temp"].

Definition ABC_coincide : RecordType :=
  mkRecordType KStruct
    [exported "A" tString ""; exported "B" tString "B,index=1";
     exported "C" tString "C,index=0"].

(** A struct with a field that is not exported. *)
Definition Secret : RecordType :=
  mkRecordType KStruct [mkDecl "age" "main" tInt "age"].

(** Record types, without explicit ordinals, on which writing then reading
    is not the identity. *)
Definition WithSkipped : RecordType :=
  mkRecordType KStruct [exported "A" tString ""; exported "B" tString "-"].

Definition SameColumn : RecordType :=
  mkRecordType KStruct [exported "A" tString "x"; exported "B" tString "x"].

Definition PaddedName : RecordType :=
  mkRecordType KStruct [exported "A" tString " a"].

Definition Unexported : RecordType :=
  mkRecordType KStruct [mkDecl "a" "main" tString ""].

(** A string type whose [MarshalCSV] hides the value. *)
Definition tMasked : GoType :=
  mkType "main.Masked" KString None (Some (MarshalByValue (fun _ => Ok "***"))) VNil.

Definition Login : RecordType :=
  mkRecordType KStruct [exported "Password" tMasked ""].

(** A struct with an unexported field of a type that has [MarshalCSV]. *)
Definition Hidden : RecordType :=
  mkRecordType KStruct [mkDecl "secret" "main" tMasked ""].

(** ** Sequences *)

(** An [iter.Seq[V]]: a function that hands its elements to [yield] until
    [yield] answers false.  Here the state of the consumer is passed
    along, and the result says how the call ended. *)
Definition Seq (V : Type) : Type :=
  forall C : Type, (C -> V -> C * bool) -> C -> C * outcome.

(** A consumer fed the elements of [l] in order, until it declines. *)
Fixpoint pushAll {C V : Type} (yield : C -> V -> C * bool) (c : C) (l : list V)
  : C * bool :=
  match l with
  | [] => (c, true)
  | v :: rest =>
      let '(c', more) := yield c v in
      if more then pushAll yield c' rest else (c', false)
  end.

(** [slices.Values(l)]: the sequence of the elements of a slice. *)
Definition Values {V : Type} (l : list V) : Seq V :=
  fun C yield c => ((pushAll yield c l).1, Returned).

(** [rb.All()] as a sequence. *)
Definition AllSeq (lib : Externals) (T : RecordType) (rb : Reader) : Seq (list Value) :=
  fun C yield c => let '(_, c', o) := All lib T rb yield c in (c', o).

(** [Filter(f, s)]: the loop [for v := range s] hands [v] on when [f(v)]
    holds, and stops when the consumer declines. *)
Definition Filter {V : Type} (f : V -> bool) (s : Seq V) : Seq V :=
  fun C yield c => s C (fun c v => if f v then yield c v else (c, true)) c.

(** [slices.Collect(s)], with the way the sequence ended. *)
Definition collectSeq {V : Type} (s : Seq V) : list V * outcome :=
  s (list V) (fun acc v => ((acc ++ [v])%list, true)) [].

(** The reader a traversal by [slices.Collect] leaves behind. *)
Definition readerAfter (lib : Externals) (T : RecordType) (rb : Reader) : Reader :=
  (All lib T rb (fun acc r => ((acc ++ [r])%list, true)) []).1.1.

(** The third person of the package's tests. *)
Definition charlie : list Value :=
  [VString "Charlie"; VString "charlie@example.com"; VInt 35].

Definition carol : list Value := [VString "Carol"; VString "carol@example.com"; VInt 41].

(** The input of the package's first test. *)
Definition threePeople : list Csv.line :=
  [Csv.Cells "Name" ["Email"; "Age"];
   Csv.Cells "Alice" ["alice@example.com"; "30"];
   Csv.Cells "Bob" ["bob@example.com"; "25"];
   Csv.Cells "Charlie" ["charlie@example.com"; "35"]].

(** The predicate of that test: [p.Age > 25]. *)
Definition olderThan25 (p : list Value) : bool :=
  match p !! 2%nat with
  | Some (VInt age) => age >? 25
  | _ => false
  end.

(** ** Runs of the writer *)

(** [WriteAll] on a sequence: the closure handed to [records] writes a
    record and asks for more while [Write] succeeds.  The state is the
    writer and the variable [err] (a panic of [Write] is kept there and
    stops the sequence); the outcome is that of the call of [records],
    whose panic, if any, leaves [WriteAll] as it is. *)
Definition WriteAllSeq (lib : Externals) (T : RecordType) (rw : Writer)
    (records : Seq (list Value)) : (Writer * res unit) * outcome :=
  records (Writer * res unit)%type
    (fun st record =>
       let r := Write lib T st.1 record in
       (r, match r.2 with Ok _ => true | _ => false end))
    (rw, Ok tt).

(** Every row among the events has [n] cells. *)
Definition rectangular (n : nat) (evs : list Csv.event) : Prop :=
  Forall (fun ev => match ev with
                    | Csv.Row cells => length cells = n
                    | Csv.Flushed => True
                    end) evs.

(** The field is not skipped by its tag. *)
Definition retained (f : StructField) : bool := negb (String.eqb (Tag f) "-").

(** The kinds the built-in rules of the encoder do not cover. *)
Definition unsupportedKind (k : Kind) : bool :=
  match k with
  | KString | KBool | KFloat32 | KFloat64
  | KInt | KInt8 | KInt16 | KInt32 | KInt64
  | KUint | KUint8 | KUint16 | KUint32 | KUint64 => false
  | _ => true
  end.

(** A type the encoder has no rule for: no [MarshalCSV] on a value
    receiver, not [time.Time], and not of a built-in kind. *)
Definition notEncodable (t : GoType) : bool :=
  negb (implementsMarshaler t) && negb (isTimeType t) && unsupportedKind (TKind t).

(** A person with a slice of tags. *)
Definition tStrings : GoType := mkType "[]string" KSlice None None VNil.

Definition Tagged : RecordType :=
  mkRecordType KStruct [exported "Name" tString ""; exported "Tags" tStrings "tags"].

(** The writer [NewWriter] makes for [Person] on a sound sink. *)
Definition personWriter : Writer :=
  mkWriter (Csv.NewWriter None)
           (match resolveFields Person with Ok fs => fs | _ => [] end) false.

(** The writer [NewWriter] makes for [Tagged] on a sound sink. *)
Definition taggedWriter : Writer :=
  mkWriter (Csv.NewWriter None)
           (match resolveFields Tagged with Ok fs => fs | _ => [] end) false.

(** A named integer type whose [MarshalCSV] refuses negative numbers. *)
Definition tNatural : GoType :=
  mkType "main.Natural" KInt None
    (Some (MarshalByValue (fun v =>
       if asInt v <? 0 then Err (ErrHook "negative") else Ok (Strconv.FormatInt (asInt v)))))
    VNil.

Definition Stock : RecordType :=
  mkRecordType KStruct [exported "Item" tString ""; exported "Count" tNatural ""].

Definition stockWriter : Writer :=
  mkWriter (Csv.NewWriter None)
           (match resolveFields Stock with Ok fs => fs | _ => [] end) false.

Definition stockRecords : list (list Value) :=
  [[VString "nut"; VInt 4]; [VString "bolt"; VInt (-1)]; [VString "screw"; VInt 7]].

(** ** Tags the resolver accepts *)

(** A part of a tag after the first: when it is an [index=] part, what
    follows is an integer. *)
Definition indexPartOk (part : string) : bool :=
  let part := Strings.TrimSpace part in
  if Strings.HasPrefix part "index=" then
    match Strconv.Atoi (Strings.TrimPrefix part "index=") with
    | Ok _ => true
    | _ => false
    end
  else true.

(** A field that is skipped, or all of whose [index=] parts are integers. *)
Definition wellTagged (f : StructField) : bool :=
  negb (retained f) || forallb indexPartOk (tail (Strings.Split (Tag f) ",")).

(** The first line of an input that is not blank. *)
Definition firstLine (r : list Csv.line) : option Csv.line := head (List.filter nonBlank r).

(** A struct with an ordinal that is not a number. *)
Definition BadIndex : RecordType :=
  mkRecordType KStruct [exported "A" tString "a,index=one"].

(** The kinds of the signed integers. *)
Definition isSignedKind (k : Kind) : bool :=
  match k with
  | KInt | KInt8 | KInt16 | KInt32 | KInt64 => true
  | _ => false
  end.

Definition tInt8 : GoType := mkType "int8" KInt8 None None VNil.

(** A consumer that keeps the records it is given and declines once it
    has [n] of them: a loop that breaks after [n] iterations. *)
Definition taking (n : nat) (acc : list (list Value)) (r : list Value)
  : list (list Value) * bool :=
  ((acc ++ [r])%list, (length (acc ++ [r]) <? n)%nat).

(** ** Columns and their cells *)

(** The field fed by a column named [n]: the last resolved entry of that
    name. *)
Fixpoint fieldNamed (fields : list fieldInfo) (n : string) : option StructField :=
  match fields with
  | [] => None
  | fi :: rest =>
      match fieldNamed rest n with
      | Some f => Some f
      | None => if String.eqb (name fi) n then Some (field fi) else None
      end
  end.

(** A column, given as its header cell and its cell in a row, feeds the
    field [f]: [f] is the field of that name, and it is exported. *)
Definition feeds (fields : list fieldInfo) (col : string * string) (f : StructField)
  : Prop :=
  fieldNamed fields (Strings.TrimSpace col.1) = Some f /\ PkgPath f = "".

(** The record [t] is what the columns [cols] say: a field fed by a column
    holds the decoded cell, any other field its zero value. *)
Definition decodedFrom (lib : Externals) (T : RecordType) (fields : list fieldInfo)
    (cols : list (string * string)) (t : list Value) : Prop :=
  length t = length (structFields T) /\
  (forall col f, col ∈ cols -> feeds fields col f ->
                 exists v, decodeField lib f col.2 = Ok v /\ t !! Index0 f = Some v) /\
  (forall p, (forall col f, col ∈ cols -> feeds fields col f -> Index0 f <> p) ->
             t !! p = zeroRecord T !! p).

(** The columns of a row of a person, in two orders. *)
Definition aliceColumns : list (string * string) :=
  [("Name", "Alice"); ("Email", "alice@example.com"); ("Age", "30")].

Definition aliceColumnsAgeFirst : list (string * string) :=
  [("Age", "30"); ("Name", "Alice"); ("Email", "alice@example.com")].

(** ** Hooks out of reach *)

(** A type without the [MarshalCSV] it has on a pointer receiver. *)
Definition withoutPointerMarshaler (t : GoType) : GoType :=
  match MarshalCSV t with
  | Some (MarshalByPointer _) =>
      mkType (TypeString t) (TKind t) (UnmarshalCSV t) None (ZeroComposite t)
  | _ => t
  end.

(** The record type with these types for its fields. *)
Definition withoutPointerMarshalers (T : RecordType) : RecordType :=
  mkRecordType (Kind_ T)
    (map (fun d => mkDecl (declName d) (declPkgPath d)
                          (withoutPointerMarshaler (declType d)) (declTag d))
         (decls T)).

(** ** Run-time panics *)

(** Encoding the field cannot panic: it is not an unexported [time.Time],
    and its [MarshalCSV] on a value receiver, if any, does not panic. *)
Definition encodesWithoutPanic (f : StructField) : Prop :=
  (isTimeType (Typ f) = true -> PkgPath f = "") /\
  (forall g, MarshalCSV (Typ f) = Some (MarshalByValue g) ->
             forall v m, g v <> Panic m).

(** Decoding into the field cannot panic: its [UnmarshalCSV] on a pointer
    receiver, if any, does not panic. *)
Definition decodesWithoutPanic (f : StructField) : Prop :=
  forall g, UnmarshalCSV (Typ f) = Some (UnmarshalByPointer g) ->
            forall s v m, g s v <> Panic m.

(** The library codecs return a value or an error. *)
Definition codecsReturn (lib : Externals) : Prop :=
  (forall s m, ParseFloat lib s <> Panic m) /\ (forall s m, time_Parse lib s <> Panic m).

(** * Properties *)

(** ** Sample evaluations *)

Example split_tag : Strings.Split "Name,index=1" "," = ["Name"; "index=1"].
Proof. reflexivity. Qed.

Example split_empty : Strings.Split "" "," = [""].
Proof. reflexivity. Qed.

Example trim_cell : Strings.TrimSpace "  Name " = "Name".
Proof. reflexivity. Qed.

Example atoi_12 : Strconv.Atoi "12" = Ok 12.
Proof. reflexivity. Qed.

Example atoi_bad : Strconv.Atoi "1x" = Err (ErrSyntax "Atoi" "1x").
Proof. reflexivity. Qed.

Example parseInt_min : Strconv.ParseInt "-9223372036854775808" = Ok (- 2 ^ 63).
Proof. vm_compute. reflexivity. Qed.

Example parseInt_over : Strconv.ParseInt "9223372036854775808"
                        = Err (ErrRange "ParseInt" "9223372036854775808").
Proof. vm_compute. reflexivity. Qed.

Example formatInt_neg : Strconv.FormatInt (-305) = "-305".
Proof. vm_compute. reflexivity. Qed.

Example formatUint_0 : Strconv.FormatUint 0 = "0".
Proof. vm_compute. reflexivity. Qed.

Example order_P2 :
  order (resolveFields (mkRecordType KStruct
      [exported "A" tString "A,index=1"; exported "B" tString "";
       exported "C" tString "C,index=0"; exported "D" tString ""]))
  = Ok [("C", 0); ("A", 1); ("B", 2); ("D", 3)].
Proof. vm_compute. reflexivity. Qed.

(** ** The tokenizer *)

Lemma readRecord_rest_le (ls : list Csv.line) :
  (length (Csv.readRecord ls).2 <= length ls)%nat.
Proof.
  induction ls as [|l ls IH]; simpl; [lia|].
  destruct l; simpl; lia.
Qed.

Lemma readRecord_Ok_lt (ls rest : list Csv.line) (record : list string) :
  Csv.readRecord ls = (Ok record, rest) -> (length rest < length ls)%nat.
Proof.
  induction ls as [|l ls IH]; simpl; [discriminate|].
  destruct l; intros H.
  - specialize (IH H). lia.
  - inversion H; subst. lia.
  - discriminate.
Qed.

Lemma Read_input (r : Csv.Reader) :
  Csv.input (Csv.Read r).2 = (Csv.readRecord (Csv.input r)).2.
Proof.
  unfold Csv.Read. destruct (Csv.readRecord (Csv.input r)) as [[record|e|m] rest]; simpl;
    repeat (case_match; simpl); reflexivity.
Qed.

Lemma Read_Ok_lt (r r' : Csv.Reader) (record : list string) :
  Csv.Read r = (Ok record, r') ->
  (length (Csv.input r') < length (Csv.input r))%nat.
Proof.
  intros H. pose proof (Read_input r) as Hin. rewrite H in Hin. simpl in Hin.
  rewrite Hin. unfold Csv.Read in H.
  destruct (Csv.readRecord (Csv.input r)) as [[rec|e|m] rest] eqn:E; simpl.
  - eapply readRecord_Ok_lt; eauto.
  - inversion H.
  - inversion H.
Qed.

Section Sequence.

Context (lib : Externals) (T : RecordType).

Lemma nextRow_true_lt (rb rb' : Reader) :
  nextRow lib T rb = Ok (true, rb') ->
  (length (Csv.input (reader rb')) < length (Csv.input (reader rb)))%nat.
Proof.
  unfold nextRow. destruct (Csv.Read (reader rb)) as [[record|e|m] rd] eqn:E.
  - destruct (decodeCells lib T (fieldMap rb) 0 record (zeroRecord T));
      intros H; inversion H; subst; simpl.
    eapply Read_Ok_lt; eauto.
  - destruct e; intros H; inversion H.
  - discriminate.
Qed.

(** [nextRow] reports an error through [rb.err], never by its result. *)
Lemma nextRow_never_Err (rb : Reader) (e : error) : nextRow lib T rb <> Err e.
Proof.
  unfold nextRow. destruct (Csv.Read (reader rb)) as [[record|e'|m] rd].
  - destruct (decodeCells lib T (fieldMap rb) 0 record (zeroRecord T)); discriminate.
  - destruct e'; discriminate.
  - discriminate.
Qed.

(** Fuel beyond the number of lines left changes nothing. *)
Lemma AllLoop_fuel {C : Type} (yield : C -> list Value -> C * bool) (n m : nat) :
  forall (rb : Reader) (c : C),
    (length (Csv.input (reader rb)) < n)%nat ->
    (length (Csv.input (reader rb)) < m)%nat ->
    AllLoop lib n T rb yield c = AllLoop lib m T rb yield c.
Proof.
  revert m. induction n as [|n IH]; intros m rb c Hn Hm; [lia|].
  destruct m as [|m]; [lia|]. simpl.
  destruct (nextRow lib T rb) as [[[] rb']|e|msg] eqn:E; try reflexivity.
  destruct (yield c (current rb')) as [c' more]. destruct more; [|reflexivity].
  apply nextRow_true_lt in E. apply IH; lia.
Qed.

Lemma All_unfold {C : Type} (yield : C -> list Value -> C * bool) (rb : Reader) (c : C) :
  All lib T rb yield c =
  match nextRow lib T rb with
  | Ok (true, rb') =>
      let '(c', more) := yield c (current rb') in
      if more then All lib T rb' yield c' else (rb', c', Returned)
  | Ok (false, rb') =>
      match err rb' with
      | Some EOF | None => (rb', c, Returned)
      | Some e => (rb', c, Panicked e)
      end
  | Err e => (rb, c, Crashed "unreachable")
  | Panic m => (rb, c, Crashed m)
  end.
Proof.
  unfold All at 1. simpl.
  destruct (nextRow lib T rb) as [[[] rb']|e|msg] eqn:E; try reflexivity.
  destruct (yield c (current rb')) as [c' more]. destruct more; [|reflexivity].
  apply nextRow_true_lt in E. unfold All. apply AllLoop_fuel; lia.
Qed.

End Sequence.

(** ** The sequence of the reader, step by step *)

Section Consumers.

Context (lib : Externals) (T : RecordType).

Lemma Yields_app (rb rb1 rb2 : Reader) (recs recs' : list (list Value)) :
  Yields lib T rb recs rb1 -> Yields lib T rb1 recs' rb2 ->
  Yields lib T rb (recs ++ recs') rb2.
Proof.
  induction 1 as [|rb ra rb1 recs Hstep Hy IH]; intros H2; simpl; [exact H2|].
  econstructor; eauto.
Qed.

(** A consumer that takes all of [recs] leaves the loop where the reader
    stands after them. *)
Lemma All_Yields {C : Type} (yield : C -> list Value -> C * bool)
    (rb rb1 : Reader) (recs : list (list Value)) :
  Yields lib T rb recs rb1 ->
  forall c c1, feed yield c recs = (c1, true) ->
  All lib T rb yield c = All lib T rb1 yield c1.
Proof.
  induction 1 as [|rb ra rb1 recs Hstep Hy IH]; intros c c1 Hfeed.
  - simpl in Hfeed. inversion Hfeed; subst. reflexivity.
  - simpl in Hfeed. rewrite All_unfold, Hstep.
    destruct (yield c (current ra)) as [c' more]. destruct more; [|discriminate].
    eapply IH; eauto.
Qed.

Lemma feed_snoc {C : Type} (yield : C -> list Value -> C * bool)
    (recs : list (list Value)) (r : list Value) :
  forall c c1, feed yield c recs = (c1, true) ->
  feed yield c (recs ++ [r]) = (let '(c2, more) := yield c1 r in (c2, more)).
Proof.
  induction recs as [|r0 recs IH]; intros c c1 H; simpl in *.
  - inversion H; subst. destruct (yield c1 r) as [c2 []]; reflexivity.
  - destruct (yield c r0) as [c' []]; [|discriminate]. eauto.
Qed.

Lemma feed_collect (acc : list (list Value)) (recs : list (list Value)) :
  feed (fun a r => ((a ++ [r])%list, true)) acc recs = ((acc ++ recs)%list, true).
Proof.
  revert acc. induction recs as [|r recs IH]; intros acc; simpl.
  - by rewrite app_nil_r.
  - rewrite IH. by rewrite <- app_assoc.
Qed.

Lemma Yields_snoc_inv (rb rb2 : Reader) (recs : list (list Value)) (r : list Value) :
  Yields lib T rb (recs ++ [r]) rb2 ->
  exists rb1, Yields lib T rb recs rb1 /\
              nextRow lib T rb1 = Ok (true, rb2) /\ current rb2 = r.
Proof.
  revert rb. induction recs as [|r0 recs IH]; intros rb H; simpl in H.
  - inversion H as [|? ra ? ? Hstep Hy]; subst.
    inversion Hy; subst. exists rb. split; [constructor|]. split; auto.
  - inversion H as [|? ra ? ? Hstep Hy]; subst.
    destruct (IH _ Hy) as (rb1 & Hy1 & Hs1 & Hc). exists rb1.
    split; [econstructor; eauto|]. split; auto.
Qed.

(** A successful [nextRow] leaves the pending error as it is. *)
Lemma Yields_err (rb rb1 : Reader) (recs : list (list Value)) :
  Yields lib T rb recs rb1 -> err rb1 = err rb.
Proof.
  induction 1 as [|rb ra rb1 recs Hstep Hy IH]; [done|].
  rewrite IH. unfold nextRow in Hstep.
  destruct (Csv.Read (reader rb)) as [[record|e|m] rd].
  - destruct (decodeCells lib T (fieldMap rb) 0 record (zeroRecord T));
      inversion Hstep; subst; reflexivity.
  - destruct e; inversion Hstep.
  - discriminate.
Qed.

(** A cell that fails to decode is reported as [ErrSetField], never as the
    end of the input. *)
Lemma decodeCells_Err (fm : gmap nat StructField) (record : list string) :
  forall (idx : nat) (t : list Value) (e : error),
    decodeCells lib T fm idx record t = Err e ->
    exists fieldName cause, e = ErrSetField fieldName cause.
Proof.
  induction record as [|value rest IH]; intros idx t e H; simpl in H; [discriminate|].
  destruct (fm !! idx) as [f|]; [|eauto].
  destruct (FieldByName T t true (Name f)) as [[pos fv]|]; [|eauto].
  destruct (negb (CanSet fv)); [eauto|].
  destruct (setFieldValue lib fv value) as [v|e'|m]; [eauto| |discriminate].
  inversion H; subst. eauto.
Qed.

End Consumers.

(** ** Early termination and errors *)

(** C6: if the consumer takes the records [recs] and declines at the next
    element, the sequence returns normally, in the state the reader has
    after that element, whatever input is left: no error is raised. *)
Theorem early_stop_is_clean (lib : Externals) (T : RecordType) (C : Type)
    (yield : C -> list Value -> C * bool)
    (rb rb1 rb2 : Reader) (recs : list (list Value)) (c c1 c2 : C) :
  Yields lib T rb recs rb1 ->
  feed yield c recs = (c1, true) ->
  nextRow lib T rb1 = Ok (true, rb2) ->
  yield c1 (current rb2) = (c2, false) ->
  All lib T rb yield c = (rb2, c2, Returned).
Proof.
  intros Hy Hfeed Hstep Hstop.
  rewrite (All_Yields lib T yield rb rb1 recs Hy c c1 Hfeed).
  rewrite All_unfold, Hstep, Hstop. reflexivity.
Qed.

Lemma early_stop_witness :
  All sampleLib Person (readerOn Person badAgeInput) takeOne []
  = (afterAlice,
     [alice], Returned).
Proof.
  apply (early_stop_is_clean sampleLib Person _ takeOne
           (readerOn Person badAgeInput) (readerOn Person badAgeInput) _ [] [] []).
  - constructor.
  - reflexivity.
  - vm_compute. reflexivity.
  - reflexivity.
Defined.

(** A reader starts without a pending error. *)
Lemma NewReader_err (T : RecordType) (r : list Csv.line) (rb : Reader) :
  NewReader T r = Ok rb -> err rb = None.
Proof.
  unfold NewReader. destruct (Csv.Read (Csv.NewReader r)) as [[hs|e|m] rd];
    try discriminate.
  destruct (createFieldMap T hs); try discriminate.
  intros H. by inversion H.
Qed.

(** C5: on every input [r], when the reader has produced [recs] and the
    next row has a cell that fails to decode, the sequence ends there with
    a panic that carries the decode error, and the consumer has received
    exactly [recs]; when instead the input ends there, the sequence
    returns normally. *)
Theorem decode_error_surfaces (lib : Externals) (T : RecordType) (r : list Csv.line)
    (rb rb1 : Reader) (recs : list (list Value)) :
  NewReader T r = Ok rb ->
  Yields lib T rb recs rb1 ->
  (forall record rd e,
      Csv.Read (reader rb1) = (Ok record, rd) ->
      decodeCells lib T (fieldMap rb1) 0 record (zeroRecord T) = Err e ->
      Collect lib T rb = (recs, Panicked e)) /\
  (forall rd,
      Csv.Read (reader rb1) = (Err EOF, rd) ->
      Collect lib T rb = (recs, Returned)).
Proof.
  intros Hnew Hy. split.
  - intros record rd e Hread Hdec. unfold Collect.
    rewrite (All_Yields lib T _ rb rb1 recs Hy [] recs (feed_collect [] recs)).
    rewrite All_unfold. unfold nextRow. rewrite Hread, Hdec. simpl.
    destruct (decodeCells_Err lib T _ _ _ _ _ Hdec) as (fname & cause & ->).
    reflexivity.
  - intros rd Hread. unfold Collect.
    rewrite (All_Yields lib T _ rb rb1 recs Hy [] recs (feed_collect [] recs)).
    rewrite All_unfold. unfold nextRow. rewrite Hread. simpl.
    rewrite (Yields_err lib T _ _ _ Hy), (NewReader_err _ _ _ Hnew).
    reflexivity.
Qed.

Lemma decode_error_witness :
  Collect sampleLib Person (readerOn Person badAgeInput)
  = ([alice], Panicked (ErrSetField "Age" (ErrSyntax "ParseInt" "twenty"))).
Proof.
  refine (proj1 (decode_error_surfaces sampleLib Person badAgeInput
                   (readerOn Person badAgeInput)
                   afterAlice
                   [alice] eq_refl _)
                ["Bob"; "bob@example.com"; "twenty"]
                (Csv.mkReader [Csv.Cells "Carol" ["carol@example.com"; "41"]] 3)
                _ _ _).
  - apply (Yields_cons sampleLib Person _ afterAlice _ []); [vm_compute; reflexivity|constructor].
  - reflexivity.
  - vm_compute. reflexivity.
Defined.

(** ** Blank rows *)

Lemma readRecord_nonBlank (ls : list Csv.line) :
  Csv.readRecord (List.filter nonBlank ls)
  = ((Csv.readRecord ls).1, List.filter nonBlank (Csv.readRecord ls).2).
Proof.
  induction ls as [|l ls IH]; simpl; [reflexivity|].
  destruct l; simpl; auto.
Qed.

Lemma Read_nonBlank (r r' : Csv.Reader) :
  Csv.input r' = List.filter nonBlank (Csv.input r) ->
  Csv.FieldsPerRecord r' = Csv.FieldsPerRecord r ->
  (Csv.Read r').1 = (Csv.Read r).1 /\
  Csv.input (Csv.Read r').2 = List.filter nonBlank (Csv.input (Csv.Read r).2) /\
  Csv.FieldsPerRecord (Csv.Read r').2 = Csv.FieldsPerRecord (Csv.Read r).2.
Proof.
  intros Hin Hf. unfold Csv.Read. rewrite Hin, readRecord_nonBlank, Hf.
  destruct (Csv.readRecord (Csv.input r)) as [[record|e|m] rest]; simpl;
    repeat (case_match; simpl); auto.
Qed.

Section BlankRows.

Context (lib : Externals) (T : RecordType).

Lemma nextRow_nonBlank (rb rb' : Reader) :
  sameButBlank rb rb' ->
  match nextRow lib T rb, nextRow lib T rb' with
  | Ok (b, rb1), Ok (b', rb1') => b = b' /\ sameButBlank rb1 rb1'
  | Err e, Err e' => e = e'
  | Panic m, Panic m' => m = m'
  | _, _ => False
  end.
Proof.
  intros (Hin & Hf & Hh & Hm & He & Hc).
  destruct (Read_nonBlank (reader rb) (reader rb') Hin Hf) as (H1 & H2 & H3).
  unfold nextRow, sameButBlank.
  destruct (Csv.Read (reader rb)) as [r1 rd1], (Csv.Read (reader rb')) as [r2 rd2].
  simpl in *. subst r2. rewrite Hm, Hh, He, Hc.
  destruct r1 as [record|e|m]; [|destruct e; simpl; auto 10|reflexivity].
  destruct (decodeCells lib T (fieldMap rb) 0 record (zeroRecord T)); simpl; auto 10.
Qed.

Lemma All_nonBlank {C : Type} (yield : C -> list Value -> C * bool) (n : nat) :
  forall (rb rb' : Reader) (c : C),
    (length (Csv.input (reader rb)) < n)%nat ->
    sameButBlank rb rb' ->
    let '(_, c1, o1) := All lib T rb yield c in
    let '(_, c2, o2) := All lib T rb' yield c in
    c1 = c2 /\ o1 = o2.
Proof.
  induction n as [|n IH]; intros rb rb' c Hlen Hsame; [lia|].
  rewrite (All_unfold lib T yield rb), (All_unfold lib T yield rb').
  pose proof (nextRow_nonBlank rb rb' Hsame) as Hstep.
  destruct (nextRow lib T rb) as [[b rb1]|e|m] eqn:E1,
           (nextRow lib T rb') as [[b' rb1']|e'|m'] eqn:E2; try contradiction.
  - destruct Hstep as [<- Hsame1]. destruct b.
    + destruct Hsame1 as (Hin & Hf & Hh & Hm & He & Hc). rewrite Hc.
      destruct (yield c (current rb1)) as [c' more]. destruct more; [|auto].
      apply IH; [|repeat split; auto].
      apply nextRow_true_lt in E1. lia.
    + destruct Hsame1 as (Hin & Hf & Hh & Hm & He & Hc). rewrite He.
      destruct (err rb1) as [[]|]; auto.
  - auto.
  - subst. auto.
Qed.

End BlankRows.

(** C8: wholly empty rows change nothing: on any input, whatever the
    consumer, the pipeline ends as it does on the input without its blank
    lines: same records received, same end of the sequence, same error
    if any. *)
Theorem blank_rows_are_skipped (lib : Externals) (T : RecordType) (C : Type)
    (yield : C -> list Value -> C * bool) (c : C) (r : list Csv.line) :
  readAll lib T r yield c = readAll lib T (List.filter nonBlank r) yield c.
Proof.
  unfold readAll, NewReader.
  destruct (Read_nonBlank (Csv.NewReader r) (Csv.NewReader (List.filter nonBlank r))
              eq_refl eq_refl) as (H1 & H2 & H3).
  destruct (Csv.Read (Csv.NewReader r)) as [r1 rd1],
           (Csv.Read (Csv.NewReader (List.filter nonBlank r))) as [r2 rd2].
  simpl in *. subst r2.
  destruct r1 as [hs|e|m]; try reflexivity.
  destruct (createFieldMap T hs) as [fm|e|m]; try reflexivity.
  pose proof (All_nonBlank lib T yield (S (length (Csv.input rd1)))
                (mkReader rd1 hs fm None (zeroRecord T))
                (mkReader rd2 hs fm None (zeroRecord T)) c) as H.
  simpl in H. specialize (H ltac:(lia) ltac:(repeat split; auto)).
  destruct (All lib T (mkReader rd1 hs fm None (zeroRecord T)) yield c) as [[? c1] o1].
  destruct (All lib T (mkReader rd2 hs fm None (zeroRecord T)) yield c) as [[? c2] o2].
  destruct H as [-> ->]. reflexivity.
Qed.

(** The input of the package's test of blank rows. *)
Example blank_rows_test :
  readAll sampleLib Person
    [Csv.Cells "Name" ["Email"; "Age"]; Csv.Blank;
     Csv.Cells "Alice" ["alice@example.com"; "30"]; Csv.Blank;
     Csv.Cells "Bob" ["bob@example.com"; "25"]]
    (fun acc r => ((acc ++ [r])%list, true)) []
  = Ok ([alice; bob], Returned).
Proof. vm_compute. reflexivity. Qed.

(** ** Decimal text *)

Lemma digitChar_spec (d : Z) :
  0 <= d < 10 ->
  Strconv.isDigit (digitChar d) = true /\ Strconv.digitVal (digitChar d) = d /\
  Ascii.eqb (digitChar d) "+" = false /\ Ascii.eqb (digitChar d) "-" = false.
Proof.
  intros H.
  assert (d = 0 \/ d = 1 \/ d = 2 \/ d = 3 \/ d = 4 \/ d = 5 \/ d = 6 \/ d = 7 \/
          d = 8 \/ d = 9) as Hd by lia.
  repeat (destruct Hd as [-> | Hd]; [vm_compute; auto|]). subst. vm_compute. auto.
Qed.

Lemma isDigit_digitVal (c : ascii) :
  Strconv.isDigit c = true -> 0 <= Strconv.digitVal c < 10.
Proof.
  unfold Strconv.isDigit, Strconv.digitVal. intros H.
  apply andb_prop in H as [H1 H2].
  apply Nat.leb_le in H1. apply Nat.leb_le in H2. lia.
Qed.

Lemma val_ge (s : string) :
  forall k, 0 <= k -> allDigits s = true -> k <= decimalVal s k.
Proof.
  induction s as [|c s IH]; intros k Hk Hs; simpl in *; [lia|].
  apply andb_prop in Hs as [Hc Hs]. apply isDigit_digitVal in Hc.
  specialize (IH (k * 10 + Strconv.digitVal c) ltac:(lia) Hs). lia.
Qed.

(** The scan of [ParseUint] reads a digit string as the number it
    denotes, as long as that number fits. *)
Lemma scanDigits_val (s : string) :
  forall k, 0 <= k -> allDigits s = true -> decimalVal s k <= Strconv.maxUint64 ->
            Strconv.scanDigits s k = Strconv.Num (decimalVal s k).
Proof.
  induction s as [|c s IH]; intros k Hk Hs Hmax; simpl in *; [reflexivity|].
  apply andb_prop in Hs as [Hc Hs]. rewrite Hc.
  pose proof (isDigit_digitVal c Hc) as Hd.
  pose proof (val_ge s (k * 10 + Strconv.digitVal c) ltac:(lia) Hs) as Hge.
  assert (k < Strconv.maxUint64 / 10 + 1) as Hcut.
  { assert (k <= Strconv.maxUint64 / 10); [|lia].
    apply Z.div_le_lower_bound; lia. }
  destruct (k >=? Strconv.maxUint64 / 10 + 1) eqn:E1; [lia|].
  destruct (k * 10 + Strconv.digitVal c >? Strconv.maxUint64) eqn:E2; [lia|].
  apply IH; auto; lia.
Qed.

Lemma digitsFuel_val (fuel : nat) :
  forall n acc, 0 <= n < 10 ^ Z.of_nat fuel ->
                decimalVal (Strconv.digitsFuel fuel n acc) 0 = decimalVal acc n.
Proof.
  induction fuel as [|fuel IH]; intros n acc Hn.
  - change (Z.of_nat 0) with 0 in Hn. rewrite Z.pow_0_r in Hn.
    assert (n = 0) as -> by lia. reflexivity.
  - simpl Strconv.digitsFuel. fold (digitChar (n mod 10)).
    pose proof (digitChar_spec (n mod 10) ltac:(apply Z.mod_pos_bound; lia)) as (_ & Hv & _).
    destruct (n <? 10) eqn:E.
    + simpl. rewrite Hv. rewrite Z.mod_small by lia. reflexivity.
    + rewrite IH.
      * simpl. rewrite Hv. f_equal. pose proof (Z.div_mod n 10 ltac:(lia)). lia.
      * rewrite Nat2Z.inj_succ, Z.pow_succ_r in Hn by lia.
        split; [apply Z.div_pos; lia|]. apply Z.div_lt_upper_bound; lia.
Qed.

Lemma digitsFuel_allDigits (fuel : nat) :
  forall n acc, 0 <= n -> allDigits acc = true ->
                allDigits (Strconv.digitsFuel fuel n acc) = true.
Proof.
  induction fuel as [|fuel IH]; intros n acc Hn Hacc; simpl; [exact Hacc|].
  fold (digitChar (n mod 10)).
  pose proof (digitChar_spec (n mod 10) ltac:(apply Z.mod_pos_bound; lia)) as (Hd & _).
  destruct (n <? 10).
  - simpl. by rewrite Hd, Hacc.
  - apply IH; [apply Z.div_pos; lia|]. simpl. by rewrite Hd, Hacc.
Qed.

(** The text starts with a digit: it is not empty and carries no sign. *)
Lemma digitsFuel_head (fuel : nat) :
  forall n acc, 0 <= n ->
    (fuel = O -> exists d s, 0 <= d < 10 /\ acc = String (digitChar d) s) ->
    exists d s, 0 <= d < 10 /\ Strconv.digitsFuel fuel n acc = String (digitChar d) s.
Proof.
  induction fuel as [|fuel IH]; intros n acc Hn Hacc; simpl; [auto|].
  fold (digitChar (n mod 10)).
  assert (0 <= n mod 10 < 10) by (apply Z.mod_pos_bound; lia).
  destruct (n <? 10); [eauto|].
  apply IH; [apply Z.div_pos; lia|]. eauto.
Qed.

Lemma fuel_enough (n : Z) : 0 <= n -> n < 10 ^ Z.of_nat (S (Z.to_nat (Z.log2 n))).
Proof.
  intros Hn. rewrite Nat2Z.inj_succ, Z2Nat.id by apply Z.log2_nonneg.
  destruct (Z.eq_dec n 0) as [->|Hne]; [vm_compute; reflexivity|].
  pose proof (Z.log2_spec n ltac:(lia)) as [_ Hlt].
  eapply Z.lt_le_trans; [exact Hlt|].
  apply Z.pow_le_mono_l. lia.
Qed.

(** [FormatUint] writes base-10 text: the scan of [ParseUint] reads the
    number back. *)
Lemma ParseUint_FormatUint (n : Z) :
  0 <= n <= Strconv.maxUint64 ->
  Strconv.ParseUint10 (Strconv.FormatUint n) = Strconv.Num n.
Proof.
  intros Hn. unfold Strconv.FormatUint, Strconv.ParseUint10.
  destruct (digitsFuel_head (S (Z.to_nat (Z.log2 n))) n "" ltac:(lia) ltac:(discriminate))
    as (d & s & Hd & Hs).
  pose proof (digitsFuel_val _ n "" (conj (proj1 Hn) (fuel_enough n (proj1 Hn)))) as Hv.
  pose proof (digitsFuel_allDigits (S (Z.to_nat (Z.log2 n))) n "" (proj1 Hn) eq_refl) as Ha.
  rewrite Hs in *. rewrite scanDigits_val; auto; try lia.
  - rewrite Hv. reflexivity.
  - rewrite Hv. simpl. lia.
Qed.

(** [ParseInt] reads back what [FormatInt] writes for a 64-bit integer. *)
Lemma ParseInt_FormatInt (z : Z) :
  - 2 ^ 63 <= z < 2 ^ 63 ->
  Strconv.ParseInt (Strconv.FormatInt z) = Ok z.
Proof.
  intros Hz. unfold Strconv.ParseInt, Strconv.FormatInt, Strconv.parseInt64.
  assert (Strconv.maxUint64 = 2 ^ 64 - 1) as Hmax by reflexivity.
  destruct (z <? 0) eqn:E.
  - replace (Ascii.eqb "-" "+") with false by reflexivity.
    replace (Ascii.eqb "-" "-") with true by reflexivity.
    rewrite ParseUint_FormatUint by lia. simpl negb. simpl andb.
    destruct (- z >? 2 ^ 63) eqn:E2; [lia|]. f_equal. lia.
  - destruct (digitsFuel_head (S (Z.to_nat (Z.log2 z))) z "" ltac:(lia) ltac:(discriminate))
      as (d & s & Hd & Hs).
    pose proof (ParseUint_FormatUint z ltac:(lia)) as Hp.
    unfold Strconv.FormatUint in *. rewrite Hs in *.
    destruct (digitChar_spec d Hd) as (_ & _ & Hplus & Hminus).
    rewrite Hplus, Hminus, Hp. simpl negb. simpl andb.
    destruct (z >=? 2 ^ 63) eqn:E2; [lia|]. reflexivity.
Qed.

(** ** The value codec *)

(** C10: for a field of an unsigned integer kind without a custom hook,
    the encoder succeeds with the base-10 text of the number, which
    [ParseUint] reads back, and the decoder rejects every cell with the
    unsupported-field-type error. *)
Theorem uint_encodes_but_never_decodes (lib : Externals) (fv : RValue) :
  isUintKind (TKind (rtype fv)) = true ->
  UnmarshalCSV (rtype fv) = None ->
  MarshalCSV (rtype fv) = None ->
  getFieldStringValue lib fv = Ok (Strconv.FormatUint (asUint (rval fv))) /\
  (0 <= asUint (rval fv) <= Strconv.maxUint64 ->
   Strconv.ParseUint10 (Strconv.FormatUint (asUint (rval fv)))
   = Strconv.Num (asUint (rval fv))) /\
  (forall value,
      setFieldValue lib fv value = Err (ErrUnsupported (TypeString (rtype fv)))).
Proof.
  intros Hk Hu Hm. unfold getFieldStringValue, setFieldValue,
    implementsMarshaler, ptrImplementsMarshaler, implementsUnmarshaler,
    ptrImplementsUnmarshaler, isTimeType.
  rewrite Hu, Hm, !andb_false_r.
  split; [|split].
  - destruct (TKind (rtype fv)); try discriminate; reflexivity.
  - apply ParseUint_FormatUint.
  - intros value. destruct (TKind (rtype fv)); try discriminate; reflexivity.
Qed.

(** A field [Count uint] holding 42, as the writer sees it and as the
    reader sees it. *)
Lemma uint_asymmetry_witness :
  getFieldStringValue sampleLib (mkRValue tUint (VUint 42) false false) = Ok "42" /\
  setFieldValue sampleLib (mkRValue tUint (VUint 0) true false) "42"
  = Err (ErrUnsupported "uint").
Proof.
  split.
  - exact (proj1 (uint_encodes_but_never_decodes sampleLib
                    (mkRValue tUint (VUint 42) false false) eq_refl eq_refl eq_refl)).
  - exact (proj2 (proj2 (uint_encodes_but_never_decodes sampleLib
                    (mkRValue tUint (VUint 0) true false) eq_refl eq_refl eq_refl)) "42").
Defined.

(** Through the writer and the reader: a [Count uint] is written, and the
    first row read back ends the sequence with the decode error. *)
Example uint_written_not_read :
  written sampleLib (mkRecordType KStruct [exported "Count" tUint ""]) [[VUint 42]]
  = Ok [Csv.Row ["Count"]; Csv.Flushed; Csv.Row ["42"]; Csv.Flushed] /\
  readAll sampleLib (mkRecordType KStruct [exported "Count" tUint ""])
          [Csv.Cells "Count" []; Csv.Cells "42" []]
          (fun acc r => ((acc ++ [r])%list, true)) []
  = Ok ([], Panicked (ErrSetField "Count" (ErrUnsupported "uint"))).
Proof. split; vm_compute; reflexivity. Qed.

(** The decoder asks the hook first: on a settable field whose type, or a
    pointer to it, has [UnmarshalCSV], the outcome is the hook's, whatever
    the kind of the type and whatever the library codecs. *)
Lemma setFieldValue_hook (lib : Externals) (fv : RValue) (value : string) :
  CanSet fv = true ->
  ptrImplementsUnmarshaler (rtype fv) = true ->
  setFieldValue lib fv value = callUnmarshalCSV (rtype fv) value (rval fv).
Proof.
  unfold CanSet, setFieldValue, CanInterface, CanAddr. intros Hs Hp.
  apply andb_prop in Hs as [-> ->]. rewrite Hp. simpl.
  destruct (implementsUnmarshaler (rtype fv)); reflexivity.
Qed.

(** The encoder asks a hook with a value receiver first, on an exported
    field. *)
Lemma getFieldStringValue_hook (lib : Externals) (fv : RValue) :
  CanInterface fv = true ->
  implementsMarshaler (rtype fv) = true ->
  getFieldStringValue lib fv = callMarshalCSV (rtype fv) (rval fv).
Proof.
  unfold getFieldStringValue. intros -> ->. reflexivity.
Qed.

(** On the record [Write] receives, which is not addressable, the encoder
    never reaches a hook with a pointer receiver. *)
Lemma getFieldStringValue_pointer_hook (lib : Externals) (fv : RValue)
    (f : Value -> res string) :
  CanAddr fv = false ->
  MarshalCSV (rtype fv) = Some (MarshalByPointer f) ->
  getFieldStringValue lib fv
  = getFieldStringValue lib
      (mkRValue (mkType (TypeString (rtype fv)) (TKind (rtype fv))
                        (UnmarshalCSV (rtype fv)) None (ZeroComposite (rtype fv)))
                (rval fv) (flagAddr fv) (flagRO fv)).
Proof.
  unfold getFieldStringValue, implementsMarshaler, ptrImplementsMarshaler, CanAddr,
    isTimeType.
  intros Ha Hm. rewrite Hm, Ha. simpl. rewrite !andb_false_r. reflexivity.
Qed.

(** A hook with a pointer receiver: the reader calls that of [Celsius]
    (the cell "C21" decodes); the writer, whose record is not addressable,
    does not (the field is written "21" by the built-in integer rule, not
    "C21"). *)
Example pointer_marshaler_is_bypassed :
  readAll sampleLib Reading [Csv.Cells "temp" []; Csv.Cells "C21" []]
          (fun acc r => ((acc ++ [r])%list, true)) []
  = Ok ([[VInt 21]], Returned) /\
  written sampleLib Reading [[VInt 21]]
  = Ok [Csv.Row ["temp"]; Csv.Flushed; Csv.Row ["21"]; Csv.Flushed].
Proof. split; vm_compute; reflexivity. Qed.

(** ** Structure of the resolved field list *)

Lemma fieldsFrom_lookup (ds : list FieldDecl) :
  forall (k i : nat) (f : StructField),
    fieldsFrom k ds !! i = Some f ->
    Index0 f = (k + i)%nat /\
    exists d, ds !! i = Some d /\
              f = mkField (declName d) (declPkgPath d) (declType d) (declTag d) (k + i).
Proof.
  induction ds as [|d ds IH]; intros k i f H; simpl in H; [discriminate|].
  destruct i as [|i]; simpl in H.
  - inversion H; subst; simpl. rewrite Nat.add_0_r. eauto.
  - destruct (IH _ _ _ H) as (Hi & d' & Hd & Hf).
    replace (k + S i)%nat with (S k + i)%nat by lia. eauto.
Qed.

Lemma structFields_Index0 (T : RecordType) (i : nat) (f : StructField) :
  structFields T !! i = Some f -> Index0 f = i.
Proof. intros H. by destruct (fieldsFrom_lookup _ _ _ _ H) as [-> _]. Qed.

Lemma structFields_inj (T : RecordType) (f g : StructField) :
  f ∈ structFields T -> g ∈ structFields T -> Index0 f = Index0 g -> f = g.
Proof.
  intros [i Hi]%list_elem_of_lookup [j Hj]%list_elem_of_lookup Heq.
  rewrite (structFields_Index0 _ _ _ Hi), (structFields_Index0 _ _ _ Hj) in Heq.
  subst. congruence.
Qed.

Lemma structFields_NoDup (T : RecordType) : NoDup (structFields T).
Proof.
  apply NoDup_alt. intros i j f Hi Hj.
  apply structFields_Index0 in Hi, Hj. congruence.
Qed.

(** The first pass appends, in order, one entry for some of the fields. *)
Lemma collectFields_sublist (fs : list StructField) :
  forall acc mx fields mx',
    collectFields fs acc mx = Ok (fields, mx') ->
    exists new, fields = (acc ++ new)%list /\ map field new `sublist_of` fs.
Proof.
  induction fs as [|f fs IH]; intros acc mx fields mx' H; simpl in H.
  - inversion H; subst. exists []. by rewrite app_nil_r.
  - destruct (String.eqb (Tag f) "-").
    + destruct (IH _ _ _ _ H) as (new & -> & Hsub).
      exists new. split; [done|]. by apply sublist_cons.
    + destruct (scanParts _ _ _ _) as [[idx mx1]|e|m]; try discriminate.
      destruct (IH _ _ _ _ H) as (new & -> & Hsub).
      exists (mkInfo f
                (match Strings.Split (Tag f) "," with
                 | p0 :: _ => if String.eqb p0 "" then Name f else p0
                 | [] => Name f
                 end) idx :: new).
      split; [by rewrite <- app_assoc|]. simpl. by apply sublist_skip.
Qed.

Lemma assignIndexes_field (fields : list fieldInfo) :
  forall n, map field (assignIndexes fields n) = map field fields.
Proof.
  induction fields as [|fi fields IH]; intros n; simpl; [done|].
  destruct (index fi =? _); simpl; by rewrite IH.
Qed.

Lemma assignIndexes_name (fields : list fieldInfo) :
  forall n, map name (assignIndexes fields n) = map name fields.
Proof.
  induction fields as [|fi fields IH]; intros n; simpl; [done|].
  destruct (index fi =? _); simpl; by rewrite IH.
Qed.

Lemma insertByIndex_Permutation (fi : fieldInfo) (sorted : list fieldInfo) :
  insertByIndex fi sorted ≡ₚ fi :: sorted.
Proof.
  induction sorted as [|fj sorted IH]; simpl; [done|].
  destruct (index fi <? index fj); [done|].
  rewrite IH. apply Permutation_swap.
Qed.

Lemma sortSlice_Permutation (fields : list fieldInfo) : sortSlice fields ≡ₚ fields.
Proof.
  unfold sortSlice.
  assert (forall acc, fold_left (fun sorted fi => insertByIndex fi sorted) fields acc
                      ≡ₚ (acc ++ fields)%list) as H.
  { induction fields as [|fi fields IH]; intros acc; simpl.
    - by rewrite app_nil_r.
    - rewrite IH, insertByIndex_Permutation. simpl.
      apply Permutation_middle. }
  apply (H []).
Qed.

(** Every resolved entry is a field of the struct, and no field has two entries. *)
Lemma resolveFields_fields (T : RecordType) (fields : list fieldInfo) :
  resolveFields T = Ok fields ->
  NoDup (map field fields) /\ forall fi, fi ∈ fields -> field fi ∈ structFields T.
Proof.
  unfold resolveFields. destruct (Kind_ T); try discriminate.
  destruct (collectFields (structFields T) [] (-1)) as [[fs mx]|e|m] eqn:E;
    try discriminate.
  intros H. inversion H; subst. clear H.
  destruct (collectFields_sublist _ _ _ _ _ E) as (new & -> & Hsub). simpl in *.
  assert (map field (sortSlice (assignIndexes new (mx + 1))) ≡ₚ map field new) as Hp.
  { rewrite sortSlice_Permutation. by rewrite assignIndexes_field. }
  split.
  - rewrite Hp. eapply sublist_NoDup; [apply structFields_NoDup|exact Hsub].
  - intros fi Hfi. eapply elem_of_sublist; [|exact Hsub].
    rewrite <- Hp. apply list_elem_of_fmap. eauto.
Qed.

Lemma resolveFields_field_inj (T : RecordType) (fields : list fieldInfo)
    (fi fj : fieldInfo) :
  resolveFields T = Ok fields -> fi ∈ fields -> fj ∈ fields ->
  field fi = field fj -> fi = fj.
Proof.
  intros [Hnd _]%resolveFields_fields
         [i Hi]%list_elem_of_lookup [j Hj]%list_elem_of_lookup Heq.
  assert (i = j) as ->; [|congruence].
  eapply NoDup_lookup; [exact Hnd| |]; rewrite list_lookup_fmap.
  - by rewrite Hi.
  - rewrite Hj. simpl. by rewrite Heq.
Qed.

(** ** Structure of the column mapping *)

Lemma headerMapFrom_lookup (hs : list string) :
  forall (k : nat) (m : gmap string nat) (s : string) (i : nat),
    headerMapFrom k hs m !! s = Some i ->
    (exists h, (k <= i)%nat /\ hs !! (i - k)%nat = Some h /\ Strings.TrimSpace h = s) \/
    m !! s = Some i.
Proof.
  induction hs as [|h hs IH]; intros k m s i H; simpl in H; [by right|].
  destruct (IH _ _ _ _ H) as [(h' & Hle & Hh & Ht)|Hm].
  - left. exists h'. split; [lia|]. split; [|done].
    replace (i - k)%nat with (S (i - S k)) by lia. done.
  - destruct (decide (Strings.TrimSpace h = s)) as [<-|Hne].
    + rewrite lookup_insert_eq in Hm. inversion Hm; subst.
      left. exists h. rewrite Nat.sub_diag. eauto.
    + rewrite lookup_insert_ne in Hm by done. by right.
Qed.

Lemma fillFieldMap_lookup (fields : list fieldInfo) (hm : gmap string nat) :
  forall (m : gmap nat StructField) (i : nat) (f : StructField),
    fillFieldMap fields hm m !! i = Some f ->
    (exists fi, fi ∈ fields /\ field fi = f /\ hm !! name fi = Some i) \/
    m !! i = Some f.
Proof.
  induction fields as [|fi fields IH]; intros m i f H; simpl in H; [by right|].
  destruct (IH _ _ _ H) as [(fj & Hin & Hf & Hh)|Hm].
  - left. exists fj. split; [by right|done].
  - destruct (hm !! name fi) as [idx|] eqn:E; [|by right].
    destruct (decide (idx = i)) as [->|Hne].
    + rewrite lookup_insert_eq in Hm. inversion Hm; subst.
      left. exists fi. split; [by left|done].
    + rewrite lookup_insert_ne in Hm by done. by right.
Qed.

(** An entry of the column mapping: the column's trimmed header is the
    name of a resolved field, and that field is the entry. *)
Lemma createFieldMap_lookup (T : RecordType) (hs : list string)
    (fm : gmap nat StructField) (i : nat) (f : StructField) :
  createFieldMap T hs = Ok fm -> fm !! i = Some f ->
  exists fields fi h,
    resolveFields T = Ok fields /\ fi ∈ fields /\ field fi = f /\
    hs !! i = Some h /\ Strings.TrimSpace h = name fi.
Proof.
  unfold createFieldMap. destruct (resolveFields T) as [fields|e|m]; try discriminate.
  intros H Hi. inversion H; subst. clear H.
  apply fillFieldMap_lookup in Hi as [(fi & Hin & Hf & Hh)|Hm];
    [|by rewrite lookup_empty in Hm].
  apply headerMapFrom_lookup in Hh as [(h & _ & Hh & Ht)|Hm];
    [|by rewrite lookup_empty in Hm].
  rewrite Nat.sub_0_r in Hh. exists fields, fi, h. done.
Qed.

(** No field is the target of two columns. *)
Lemma createFieldMap_inj (T : RecordType) (hs : list string)
    (fm : gmap nat StructField) (i j : nat) (f : StructField) :
  createFieldMap T hs = Ok fm -> fm !! i = Some f -> fm !! j = Some f -> i = j.
Proof.
  intros Hfm Hi Hj.
  pose proof Hfm as Hfm'. unfold createFieldMap in Hfm'.
  destruct (resolveFields T) as [fields|e|m] eqn:E; try discriminate.
  inversion Hfm'; subst. clear Hfm'.
  apply fillFieldMap_lookup in Hi as [(fi & Hin & Hf & Hh)|Hm];
    [|by rewrite lookup_empty in Hm].
  apply fillFieldMap_lookup in Hj as [(fj & Hin' & Hf' & Hh')|Hm];
    [|by rewrite lookup_empty in Hm].
  assert (fi = fj) as -> by (eapply resolveFields_field_inj; eauto; congruence).
  congruence.
Qed.

(** ** The decode loop *)

Lemma FieldByName_own (T : RecordType) (t : list Value) (a : bool) (f : StructField) :
  uniqueNames T -> f ∈ structFields T ->
  FieldByName T t a (Name f)
  = Some (Index0 f,
          mkRValue (Typ f) (default VNil (t !! Index0 f)) a
                   (negb (String.eqb (PkgPath f) ""))).
Proof.
  intros Hnd Hf. unfold FieldByName.
  destruct (find (fun g => String.eqb (Name g) (Name f)) (structFields T)) as [g|] eqn:E.
  - apply find_some in E as [Hg Heq]. apply String.eqb_eq in Heq.
    apply list_elem_of_In in Hg.
    assert (g = f) as ->; [|done].
    apply list_elem_of_lookup in Hg as [i Hi], Hf as [j Hj].
    assert (i = j) as ->; [|congruence].
    eapply NoDup_lookup; [exact Hnd| |]; rewrite list_lookup_fmap.
    + by rewrite Hi.
    + rewrite Hj. simpl. by rewrite Heq.
  - exfalso. apply list_elem_of_In in Hf.
    pose proof (find_none _ _ E f Hf) as Hn. simpl in Hn.
    by rewrite String.eqb_refl in Hn.
Qed.

Section DecodeLoop.

Context (lib : Externals) (T : RecordType) (fm : gmap nat StructField).

Hypothesis Hnames : uniqueNames T.

Hypothesis Hrange : forall i f, fm !! i = Some f -> f ∈ structFields T.

(** The loop touches only the fields that some cell of the record is
    mapped to. *)
Lemma decodeCells_frame (record : list string) :
  forall (idx : nat) (t t' : list Value),
    decodeCells lib T fm idx record t = Ok t' ->
    length t' = length t /\
    forall p, (forall j f, (j < length record)%nat -> fm !! (idx + j)%nat = Some f ->
                           Index0 f <> p) ->
              t' !! p = t !! p.
Proof.
  induction record as [|value rest IH]; intros idx t t' H; simpl in H.
  - inversion H; subst. auto.
  - assert (forall t1, decodeCells lib T fm (S idx) rest t1 = Ok t' ->
              length t1 = length t ->
              (forall p, (forall j f, (j < S (length rest))%nat ->
                                      fm !! (idx + j)%nat = Some f -> Index0 f <> p) ->
                         t1 !! p = t !! p) ->
              length t' = length t /\
              forall p, (forall j f, (j < S (length rest))%nat ->
                                     fm !! (idx + j)%nat = Some f -> Index0 f <> p) ->
                        t' !! p = t !! p) as Hnext.
    { intros t1 H1 Hlen Hsame. destruct (IH _ _ _ H1) as [Hl Hfr].
      split; [congruence|]. intros p Hp. rewrite Hfr; [by apply Hsame|].
      intros j f Hj Hf. apply (Hp (S j) f); [lia|].
      by replace (idx + S j)%nat with (S idx + j)%nat by lia. }
    destruct (fm !! idx) as [f|] eqn:Ef; [|by apply (Hnext t)].
    rewrite (FieldByName_own T t true f Hnames (Hrange _ _ Ef)) in H.
    destruct (negb (CanSet _)); [by apply (Hnext t)|].
    destruct (setFieldValue _ _ _) as [v|e|m]; try discriminate.
    apply (Hnext _ H); [by rewrite length_insert|].
    intros p Hp. apply list_lookup_insert_ne.
    apply (Hp 0%nat f); [lia|]. by rewrite Nat.add_0_r.
Qed.

(** A cell mapped to an exported field is decoded into it, from the value
    the field had. *)
Lemma decodeCells_hit (record : list string) :
  forall (idx : nat) (t t' : list Value) (j : nat) (f : StructField) (cell : string),
    decodeCells lib T fm idx record t = Ok t' ->
    fm !! (idx + j)%nat = Some f ->
    record !! j = Some cell ->
    PkgPath f = "" ->
    (Index0 f < length t)%nat ->
    (forall j' f', j' <> j -> (j' < length record)%nat ->
                   fm !! (idx + j')%nat = Some f' -> Index0 f' <> Index0 f) ->
    exists v,
      setFieldValue lib (mkRValue (Typ f) (default VNil (t !! Index0 f)) true false) cell
      = Ok v /\ t' !! Index0 f = Some v.
Proof.
  induction record as [|value rest IH]; intros idx t t' j f cell H Hf Hcell Hexp Hlen Hother;
    [discriminate|].
  simpl in H. destruct j as [|j].
  - rewrite Nat.add_0_r in Hf. simpl in Hcell. inversion Hcell; subst. rewrite Hf in H.
    rewrite (FieldByName_own T t true f Hnames (Hrange _ _ Hf)) in H.
    rewrite Hexp in H. simpl in H.
    destruct (setFieldValue _ _ _) as [v|e|m]; try discriminate.
    exists v. split; [done|].
    destruct (decodeCells_frame _ _ _ _ H) as [_ Hfr]. rewrite Hfr.
    + by apply list_lookup_insert_eq.
    + intros j' f' Hj' Hf'. apply (Hother (S j') f'); [lia|simpl; lia|].
      by replace (idx + S j')%nat with (S idx + j')%nat by lia.
  - simpl in Hcell.
    assert (forall t1, decodeCells lib T fm (S idx) rest t1 = Ok t' ->
              length t1 = length t -> t1 !! Index0 f = t !! Index0 f ->
              exists v,
                setFieldValue lib
                  (mkRValue (Typ f) (default VNil (t !! Index0 f)) true false) cell
                = Ok v /\ t' !! Index0 f = Some v) as Hnext.
    { intros t1 H1 Hl1 Hsame. rewrite <- Hsame.
      apply (IH (S idx) t1 t' j f cell); auto.
      - by replace (S idx + j)%nat with (idx + S j)%nat by lia.
      - lia.
      - intros j' f' Hne Hj' Hf'. apply (Hother (S j') f'); [lia|simpl; lia|].
        by replace (idx + S j')%nat with (S idx + j')%nat by lia. }
    destruct (fm !! idx) as [g|] eqn:Eg; [|by apply (Hnext t)].
    rewrite (FieldByName_own T t true g Hnames (Hrange _ _ Eg)) in H.
    destruct (negb (CanSet _)); [by apply (Hnext t)|].
    destruct (setFieldValue _ _ _) as [v|e|m]; try discriminate.
    apply (Hnext _ H); [by rewrite length_insert|].
    apply list_lookup_insert_ne.
    apply (Hother 0%nat g); [lia|simpl; lia|]. by rewrite Nat.add_0_r.
Qed.

(** The loop reads the cells of mapped columns only. *)
Lemma decodeCells_unmapped (record record' : list string) :
  forall (idx : nat) (t : list Value),
    length record = length record' ->
    (forall j, is_Some (fm !! (idx + j)%nat) -> record !! j = record' !! j) ->
    decodeCells lib T fm idx record t = decodeCells lib T fm idx record' t.
Proof.
  revert record'. induction record as [|value rest IH];
    intros [|value' rest'] idx t Hlen Hsame; try discriminate; [done|].
  simpl in Hlen. simpl.
  assert (forall t1, decodeCells lib T fm (S idx) rest t1
                     = decodeCells lib T fm (S idx) rest' t1) as Hnext.
  { intros t1. apply IH; [lia|]. intros j Hj.
    apply (Hsame (S j)). by replace (idx + S j)%nat with (S idx + j)%nat by lia. }
  destruct (fm !! idx) as [f|] eqn:Ef; [|apply Hnext].
  assert (value = value') as <-.
  { specialize (Hsame 0%nat). rewrite Nat.add_0_r in Hsame.
    specialize (Hsame ltac:(by rewrite Ef)). simpl in Hsame. congruence. }
  destruct (FieldByName T t true (Name f)) as [[pos fv]|]; [|apply Hnext].
  destruct (negb (CanSet fv)); [apply Hnext|].
  destruct (setFieldValue lib fv value); auto.
Qed.

End DecodeLoop.

(** ** Columns and fields that do not match *)

Lemma NewReader_Cells (T : RecordType) (h : string) (hs : list string)
    (rest : list Csv.line) :
  NewReader T (Csv.Cells h hs :: rest)
  = match createFieldMap T (h :: hs) with
    | Ok fm =>
        Ok (mkReader (Csv.mkReader rest (Z.of_nat (length (h :: hs)))) (h :: hs) fm None
                     (zeroRecord T))
    | Err e => Err e
    | Panic m => Panic m
    end.
Proof. reflexivity. Qed.

Lemma createFieldMap_range (T : RecordType) (hs : list string)
    (fm : gmap nat StructField) :
  createFieldMap T hs = Ok fm ->
  forall i f, fm !! i = Some f -> f ∈ structFields T.
Proof.
  intros Hfm i f Hi.
  destruct (createFieldMap_lookup _ _ _ _ _ Hfm Hi) as (fields & fi & h & Hr & Hin & <- & _).
  by apply (resolveFields_fields _ _ Hr).
Qed.

Lemma zeroRecord_lookup (T : RecordType) (p : nat) (f : StructField) :
  structFields T !! p = Some f -> zeroRecord T !! p = Some (zeroValue (Typ f)).
Proof. intros H. unfold zeroRecord. by rewrite list_lookup_fmap, H. Qed.


Lemma Person_uniqueNames : uniqueNames Person.
Proof.
  unfold uniqueNames. apply (bool_decide_unpack _). vm_compute. exact I.
Qed.

Lemma Account_uniqueNames : uniqueNames Account.
Proof.
  unfold uniqueNames. apply (bool_decide_unpack _). vm_compute. exact I.
Qed.


(** ** Rows and the header *)

Lemma Read_counted (r r' : Csv.Reader) (x : res (list string)) :
  0 < Csv.FieldsPerRecord r ->
  Csv.Read r = (x, r') ->
  Csv.FieldsPerRecord r' = Csv.FieldsPerRecord r /\
  forall record, x = Ok record -> Z.of_nat (length record) = Csv.FieldsPerRecord r.
Proof.
  intros Hpos. unfold Csv.Read.
  destruct (Csv.readRecord (Csv.input r)) as [[record|e|m] rest].
  - destruct (Csv.FieldsPerRecord r >? 0) eqn:E; [|lia].
    destruct (Z.of_nat (length record) =? Csv.FieldsPerRecord r) eqn:E2; simpl;
      intros H; inversion H; subst; simpl; split; auto; try discriminate.
    intros record' Hr. inversion Hr; subst. lia.
  - intros H; inversion H; subst. split; [done|discriminate].
  - intros H; inversion H; subst. split; [done|discriminate].
Qed.

Section Rows.

Context (lib : Externals) (T : RecordType).

Lemma nextRow_counted (rb rb' : Reader) (b : bool) :
  counted rb -> nextRow lib T rb = Ok (b, rb') ->
  counted rb' /\ headers rb' = headers rb /\ fieldMap rb' = fieldMap rb /\
  (b = true -> err rb' = err rb).
Proof.
  intros [Hc Hpos]. unfold nextRow, counted.
  destruct (Csv.Read (reader rb)) as [x rd] eqn:E.
  destruct (Read_counted (reader rb) rd x ltac:(lia) E) as [Hf _].
  destruct x as [record|e|m].
  - destruct (decodeCells lib T (fieldMap rb) 0 record (zeroRecord T));
      intros H; inversion H; subst; simpl; rewrite Hf; auto.
    repeat split; auto. discriminate.
  - destruct e; intros H; inversion H; subst; simpl; rewrite Hf;
      repeat split; auto; discriminate.
  - discriminate.
Qed.

Lemma Yields_counted (rb rb' : Reader) (recs : list (list Value)) :
  Yields lib T rb recs rb' -> counted rb ->
  counted rb' /\ headers rb' = headers rb /\ fieldMap rb' = fieldMap rb /\
  err rb' = err rb.
Proof.
  induction 1 as [|rb ra rb1 recs Hstep Hy IH]; intros Hc; [auto|].
  destruct (nextRow_counted _ _ _ Hc Hstep) as (Hc1 & Hh & Hm & He).
  destruct (IH Hc1) as (Hc2 & Hh2 & Hm2 & He2).
  repeat split; try apply Hc2; try congruence. rewrite He2. by apply He.
Qed.

End Rows.

Lemma NewReader_counted (T : RecordType) (r : list Csv.line) (rb : Reader) :
  NewReader T r = Ok rb ->
  counted rb /\ createFieldMap T (headers rb) = Ok (fieldMap rb) /\ err rb = None.
Proof.
  unfold NewReader, Csv.Read, Csv.NewReader. simpl.
  destruct (Csv.readRecord r) as [[hs|e|m] rest] eqn:E; try discriminate.
  simpl. destruct (createFieldMap T hs) as [fm|e|m] eqn:Hfm; try discriminate.
  intros H. inversion H; subst. unfold counted. simpl.
  assert (0 < length hs)%nat; [|auto].
  clear -E. induction r as [|l r IH]; simpl in E; [discriminate|].
  destruct l; [auto| |discriminate]. inversion E; subst. simpl. lia.
Qed.

(** An entry of the column mapping stands at a column of the header. *)
Lemma createFieldMap_bound (T : RecordType) (hs : list string)
    (fm : gmap nat StructField) (i : nat) (f : StructField) :
  createFieldMap T hs = Ok fm -> fm !! i = Some f -> (i < length hs)%nat.
Proof.
  intros Hfm Hi.
  destruct (createFieldMap_lookup _ _ _ _ _ Hfm Hi) as (_ & _ & h & _ & _ & _ & Hh & _).
  by eapply lookup_lt_Some.
Qed.

(** C3, amended: once the reader is built and has produced [recs],
    - a record the tokenizer hands over has as many cells as the header;
    - a row with another number of cells ends the sequence with the
      tokenizer's field-count error, and produces no record;
    - when a record decodes, every column of the mapping whose field is
      exported holds a cell, and that cell is decoded into the field;
    - the decode loop itself, given any list of cells, leaves at its zero
      value a field whose column lies beyond them. *)
Theorem rows_have_the_cells_of_the_header (lib : Externals) (T : RecordType)
    (r : list Csv.line) (rb0 rb : Reader) (recs : list (list Value)) :
  uniqueNames T ->
  NewReader T r = Ok rb0 ->
  Yields lib T rb0 recs rb ->
  (forall record rd,
      Csv.Read (reader rb) = (Ok record, rd) ->
      length record = length (headers rb0)) /\
  (forall c cs rest,
      Csv.input (reader rb) = Csv.Cells c cs :: rest ->
      length (c :: cs) <> length (headers rb0) ->
      Collect lib T rb0 = (recs, Panicked ErrFieldCount)) /\
  (forall record rd t idx f,
      Csv.Read (reader rb) = (Ok record, rd) ->
      decodeCells lib T (fieldMap rb) 0 record (zeroRecord T) = Ok t ->
      fieldMap rb !! idx = Some f ->
      PkgPath f = "" ->
      exists cell v,
        record !! idx = Some cell /\
        setFieldValue lib (mkRValue (Typ f) (zeroValue (Typ f)) true false) cell = Ok v /\
        t !! Index0 f = Some v) /\
  (forall record t idx f,
      decodeCells lib T (fieldMap rb) 0 record (zeroRecord T) = Ok t ->
      fieldMap rb !! idx = Some f ->
      (length record <= idx)%nat ->
      t !! Index0 f = Some (zeroValue (Typ f))).
Proof.
  intros Hnames Hnew Hy.
  destruct (NewReader_counted _ _ _ Hnew) as (Hc0 & Hfm0 & Herr0).
  destruct (Yields_counted lib T _ _ _ Hy Hc0) as ([Hf Hpos] & Hh & Hm & He).
  rewrite Hh in *. rewrite Hm in *.
  pose proof (createFieldMap_range _ _ _ Hfm0) as Hrange.
  assert (forall idx f, fieldMap rb0 !! idx = Some f ->
                        zeroRecord T !! Index0 f = Some (zeroValue (Typ f))) as Hzero.
  { intros idx f Hi. pose proof (Hrange _ _ Hi) as [p Hp]%list_elem_of_lookup.
    rewrite (structFields_Index0 _ _ _ Hp). by apply zeroRecord_lookup. }
  assert (forall idx j f g, fieldMap rb0 !! idx = Some f -> fieldMap rb0 !! j = Some g ->
                            j <> idx -> Index0 g <> Index0 f) as Hinj.
  { intros idx j f g Hi Hj Hne Heq. apply Hne.
    assert (g = f) as -> by (apply (structFields_inj T); eauto).
    eapply createFieldMap_inj; eauto. }
  split; [|split; [|split]].
  - intros record rd Hread.
    destruct (Read_counted (reader rb) rd (Ok record) ltac:(lia) Hread) as [_ Hlen].
    specialize (Hlen record eq_refl). lia.
  - intros c cs rest Hin Hlen. unfold Collect.
    rewrite (All_Yields lib T _ rb0 rb recs Hy [] recs (feed_collect [] recs)).
    rewrite All_unfold. unfold nextRow, Csv.Read. rewrite Hin. simpl Csv.readRecord.
    cbv iota beta.
    destruct (Csv.FieldsPerRecord (reader rb) >? 0) eqn:E; [|lia].
    destruct (Z.of_nat (length (c :: cs)) =? Csv.FieldsPerRecord (reader rb)) eqn:E2;
      [lia|]. reflexivity.
  - intros record rd t idx f Hread Hdec Hi Hexp.
    destruct (Read_counted (reader rb) rd (Ok record) ltac:(lia) Hread) as [_ Hlen].
    specialize (Hlen record eq_refl).
    pose proof (createFieldMap_bound _ _ _ _ _ Hfm0 Hi) as Hb.
    destruct (lookup_lt_is_Some_2 record idx ltac:(lia)) as [cell Hcell].
    pose proof (Hzero _ _ Hi) as Hz.
    destruct (decodeCells_hit lib T _ Hnames Hrange record 0 _ t idx f cell Hdec Hi Hcell
                Hexp ltac:(by eapply lookup_lt_Some)) as (v & Hv & Ht).
    { intros j g Hne _ Hg. simpl in Hg. eapply Hinj; eauto. }
    rewrite Hz in Hv. simpl in Hv. eauto.
  - intros record t idx f Hdec Hi Hlen.
    destruct (decodeCells_frame lib T _ Hnames Hrange _ _ _ _ Hdec) as [_ Hfr].
    rewrite Hfr; [by eapply Hzero|].
    intros j g Hj Hg. simpl in Hg. eapply Hinj; eauto. lia.
Qed.

Lemma rows_witness :
  Collect sampleLib Person (readerOn Person shortRowInput)
  = ([alice], Panicked ErrFieldCount).
Proof.
  refine (proj1 (proj2 (rows_have_the_cells_of_the_header sampleLib Person shortRowInput
                          (readerOn Person shortRowInput) beforeShortRow [alice]
                          Person_uniqueNames eq_refl _))
                "Bob" ["bob@example.com"] [] eq_refl _).
  - apply (Yields_cons sampleLib Person _ beforeShortRow _ []);
      [vm_compute; reflexivity|constructor].
  - simpl. lia.
Defined.

(** C3 as stated fails twice: a row with fewer cells than the header
    produces no record but the field-count error; and a cell within the
    row is not decoded into a field that is not exported. *)
Lemma short_row_counterexample :
  readAll sampleLib Person
          [Csv.Cells "Name" ["Email"; "Age"]; Csv.Cells "Bob" ["bob@example.com"]]
          (fun acc r => ((acc ++ [r])%list, true)) []
  = Ok ([], Panicked ErrFieldCount) /\
  readAll sampleLib Secret [Csv.Cells "age" []; Csv.Cells "30" []]
          (fun acc r => ((acc ++ [r])%list, true)) []
  = Ok ([[VInt 0]], Returned).
Proof. split; vm_compute; reflexivity. Qed.

(** ** The writer *)

Section WriterTrace.

Context (lib : Externals) (T : RecordType).

Lemma Write_Ok (rw rw' : Writer) (record : list Value) (u : unit) :
  Write lib T rw record = (rw', Ok u) ->
  exists row,
    encodeFields lib T record (fields rw) = Ok row /\
    fields rw' = fields rw /\ writeHeaderOnce rw' = true /\
    Csv.out (writer rw')
    = (Csv.out (writer rw)
       ++ (if writeHeaderOnce rw then []
           else [Csv.Row (map name (fields rw)); Csv.Flushed])
       ++ [Csv.Row row; Csv.Flushed])%list.
Proof.
  unfold Write, Csv.Write, Csv.Flush.
  destruct rw as [[o we] fs once]. simpl.
  destruct once; simpl.
  - destruct (encodeFields lib T record fs) as [row|e|m]; try (intros H; inversion H; fail).
    destruct we as [e|]; simpl; intros H; inversion H; subst; simpl.
    exists row. repeat split; auto. by rewrite <- app_assoc.
  - destruct we as [e|]; simpl; [intros H; inversion H|].
    destruct (encodeFields lib T record fs) as [row|e|m]; try (intros H; inversion H; fail).
    simpl. intros H; inversion H; subst; simpl.
    exists row. repeat split; auto. by rewrite <- !app_assoc.
Qed.

Lemma WriteAll_Ok (records : list (list Value)) :
  forall (rw rw' : Writer) (u : unit),
    writeHeaderOnce rw = true ->
    WriteAll lib T rw records = (rw', Ok u) ->
    exists rows,
      Forall2 (fun record row => encodeFields lib T record (fields rw) = Ok row)
              records rows /\
      fields rw' = fields rw /\
      Csv.out (writer rw') = (Csv.out (writer rw) ++ dataRows rows)%list.
Proof.
  induction records as [|record records IH]; intros rw rw' u Honce H; simpl in H.
  - inversion H; subst. exists []. split; [constructor|]. by rewrite app_nil_r.
  - destruct (Write lib T rw record) as [rw1 [[]|e|m]] eqn:E; try (inversion H; fail).
    destruct (Write_Ok _ _ _ _ E) as (row & Hrow & Hf & Ho & Hout).
    destruct (IH _ _ _ Ho H) as (rows & Hrows & Hf' & Hout').
    exists (row :: rows). rewrite Hf in *. split; [by constructor|]. split; [done|].
    rewrite Hout', Hout, Honce. simpl. by rewrite <- app_assoc.
Qed.

End WriterTrace.

(** C7: when the writes of one writer all succeed, the sink has received
    the header, made of the names of the resolved fields in their order,
    then a flush, then for each record its row and a flush: one header,
    ahead of every data row, and none after. *)
Theorem header_is_written_once (lib : Externals) (T : RecordType) (w : option error)
    (rw0 rw : Writer) (record : list Value) (records : list (list Value)) :
  NewWriter T w = Ok rw0 ->
  WriteAll lib T rw0 (record :: records) = (rw, Ok tt) ->
  resolveFields T = Ok (fields rw0) /\
  exists rows,
    Forall2 (fun rec row => encodeFields lib T rec (fields rw0) = Ok row)
            (record :: records) rows /\
    Csv.out (writer rw)
    = Csv.Row (map name (fields rw0)) :: Csv.Flushed :: dataRows rows.
Proof.
  unfold NewWriter, createFieldInfo.
  destruct (resolveFields T) as [fs|e|m]; try discriminate.
  intros H; inversion H; subst; clear H. simpl. intros H.
  split; [reflexivity|].
  destruct (Write lib T (mkWriter (Csv.NewWriter w) fs false) record)
    as [rw1 [[]|e|m]] eqn:E; try (inversion H; fail).
  destruct (Write_Ok _ _ _ _ _ _ E) as (row & Hrow & Hf & Ho & Hout).
  destruct (WriteAll_Ok _ _ _ _ _ _ Ho H) as (rows & Hrows & Hf' & Hout').
  simpl in *. exists (row :: rows). rewrite Hf in *.
  split; [by constructor|]. rewrite Hout', Hout. reflexivity.
Qed.

Lemma header_witness :
  exists rw,
    WriteAll sampleLib Person (mkWriter (Csv.NewWriter None)
                                 (match resolveFields Person with Ok fs => fs | _ => [] end)
                                 false) [alice; bob] = (rw, Ok tt) /\
    exists rows,
      Csv.out (writer rw)
      = Csv.Row ["Name"; "Email"; "Age"] :: Csv.Flushed :: dataRows rows.
Proof.
  eexists. split; [vm_compute; reflexivity|].
  destruct (header_is_written_once sampleLib Person None _ _ alice [bob] eq_refl
              ltac:(vm_compute; reflexivity)) as (_ & rows & _ & Hout).
  exists rows. exact Hout.
Defined.

(** The package's writer test: header first, then the rows. *)
Example writer_test :
  written sampleLib Person [alice; bob]
  = Ok [Csv.Row ["Name"; "Email"; "Age"]; Csv.Flushed;
        Csv.Row ["Alice"; "alice@example.com"; "30"]; Csv.Flushed;
        Csv.Row ["Bob"; "bob@example.com"; "25"]; Csv.Flushed].
Proof. vm_compute. reflexivity. Qed.

(** ** Record types without explicit ordinals *)

Lemma scanParts_noIndex (fieldName : string) (parts : list string) (idx mx : Z) :
  forallb (fun part => negb (Strings.HasPrefix (Strings.TrimSpace part) "index=")) parts
  = true ->
  scanParts fieldName parts idx mx = Ok (idx, mx).
Proof.
  induction parts as [|part parts IH]; simpl; [done|].
  intros [Hp Hrest]%andb_prop. apply negb_true_iff in Hp. rewrite Hp. auto.
Qed.

Lemma collectFields_plain (fs : list StructField) :
  forall acc mx,
    forallb plainField fs = true ->
    collectFields fs acc mx
    = Ok ((acc ++ map (fun f => mkInfo f (columnName f) (Z.of_nat (Index0 f))) fs)%list, mx).
Proof.
  induction fs as [|f fs IH]; intros acc mx H; simpl.
  - by rewrite app_nil_r.
  - simpl in H. apply andb_prop in H as [Hf Hfs].
    unfold plainField in Hf. apply andb_prop in Hf as [[Hskip _]%andb_prop Hidx].
    apply negb_true_iff in Hskip. rewrite Hskip.
    rewrite scanParts_noIndex by exact Hidx.
    rewrite IH by done. by rewrite <- app_assoc.
Qed.

Lemma assignIndexes_default (fs : list StructField) :
  forall n,
    assignIndexes (map (fun f => mkInfo f (columnName f) (Z.of_nat (Index0 f))) fs) n
    = numbered n fs.
Proof.
  induction fs as [|f fs IH]; intros n; simpl; [done|].
  rewrite Z.eqb_refl. by rewrite IH.
Qed.

Lemma numbered_index (fs : list StructField) :
  forall n fi, fi ∈ numbered n fs -> n <= index fi.
Proof.
  induction fs as [|f fs IH]; intros n fi H; simpl in H; [by apply elem_of_nil in H|].
  apply elem_of_cons in H as [->|H]; [simpl; lia|].
  apply IH in H. lia.
Qed.

Lemma insertByIndex_last (fi : fieldInfo) (sorted : list fieldInfo) :
  (forall fj, fj ∈ sorted -> index fj <= index fi) ->
  insertByIndex fi sorted = (sorted ++ [fi])%list.
Proof.
  induction sorted as [|fj sorted IH]; intros H; simpl; [done|].
  destruct (index fi <? index fj) eqn:E.
  - specialize (H fj ltac:(by left)). lia.
  - rewrite IH; [done|]. intros fk Hk. apply H. by right.
Qed.

(** A list whose indexes already ascend is left as it is by the sort. *)
Lemma sortSlice_numbered (fs : list StructField) (n : Z) :
  sortSlice (numbered n fs) = numbered n fs.
Proof.
  unfold sortSlice.
  assert (forall acc m,
             (forall fj, fj ∈ acc -> index fj < m) ->
             fold_left (fun sorted fi => insertByIndex fi sorted) (numbered m fs) acc
             = (acc ++ numbered m fs)%list) as H.
  { induction fs as [|f fs IH]; intros acc m Hacc; simpl.
    - by rewrite app_nil_r.
    - rewrite insertByIndex_last.
      + rewrite IH; [by rewrite <- app_assoc|].
        intros fj [Hj|Hj]%elem_of_app.
        * apply Hacc in Hj. lia.
        * apply list_elem_of_singleton in Hj as ->. simpl. lia.
      + intros fj Hj. apply Hacc in Hj. simpl. lia. }
  apply (H [] n). intros fj Hj. by apply elem_of_nil in Hj.
Qed.

(** Without explicit ordinals the resolved order is the declaration order,
    numbered from 0. *)
Lemma resolveFields_plain (T : RecordType) :
  Kind_ T = KStruct ->
  forallb plainField (structFields T) = true ->
  resolveFields T = Ok (numbered 0 (structFields T)).
Proof.
  intros Hk Hp. unfold resolveFields. rewrite Hk, collectFields_plain by done.
  simpl. by rewrite assignIndexes_default, sortSlice_numbered.
Qed.

Lemma numbered_name (fs : list StructField) :
  forall n, map name (numbered n fs) = map columnName fs.
Proof. induction fs as [|f fs IH]; intros n; simpl; [done|]. by rewrite IH. Qed.

Lemma numbered_lookup (fs : list StructField) :
  forall n i fi, numbered n fs !! i = Some fi ->
                 exists f, fs !! i = Some f /\ field fi = f /\ name fi = columnName f.
Proof.
  induction fs as [|f fs IH]; intros n i fi H; simpl in H; [discriminate|].
  destruct i as [|i]; simpl in *.
  - inversion H; subst. eauto.
  - eauto.
Qed.

Lemma headerMapFrom_notin (hs : list string) :
  forall (k : nat) (m : gmap string nat) (s : string),
    s ∉ map Strings.TrimSpace hs -> headerMapFrom k hs m !! s = m !! s.
Proof.
  induction hs as [|h hs IH]; intros k m s Hs; simpl; [done|].
  simpl in Hs. apply not_elem_of_cons in Hs as [Hne Hs].
  rewrite IH by done. by apply lookup_insert_ne.
Qed.

Lemma headerMapFrom_NoDup (hs : list string) :
  forall (k : nat) (m : gmap string nat) (i : nat) (h : string),
    NoDup (map Strings.TrimSpace hs) -> hs !! i = Some h ->
    headerMapFrom k hs m !! Strings.TrimSpace h = Some (k + i)%nat.
Proof.
  induction hs as [|h0 hs IH]; intros k m i h Hnd Hi; [discriminate|].
  simpl in Hnd. apply NoDup_cons in Hnd as [Hnotin Hnd]. simpl.
  destruct i as [|i]; simpl in Hi.
  - inversion Hi; subst. rewrite headerMapFrom_notin by done.
    rewrite lookup_insert_eq. f_equal. lia.
  - rewrite (IH (S k) _ i h Hnd Hi). f_equal. lia.
Qed.

Lemma fillFieldMap_notin (fields : list fieldInfo) (hm : gmap string nat) (i : nat) :
  forall (m : gmap nat StructField),
    (forall fi, fi ∈ fields -> hm !! name fi <> Some i) ->
    fillFieldMap fields hm m !! i = m !! i.
Proof.
  induction fields as [|fi fields IH]; intros m H; simpl; [done|].
  rewrite IH by (intros fj Hj; apply H; by right).
  specialize (H fi ltac:(by left)).
  destruct (hm !! name fi) as [idx|]; [|done].
  apply lookup_insert_ne. congruence.
Qed.

Lemma fillFieldMap_entry (fields : list fieldInfo) (hm : gmap string nat) (i : nat) :
  forall (m : gmap nat StructField) (j : nat) (fi : fieldInfo),
    fields !! j = Some fi -> hm !! name fi = Some i ->
    (forall j' fj, j' <> j -> fields !! j' = Some fj -> hm !! name fj <> Some i) ->
    fillFieldMap fields hm m !! i = Some (field fi).
Proof.
  induction fields as [|f0 fields IH]; intros m j fi Hj Hi Hother; [discriminate|].
  simpl. destruct j as [|j]; simpl in Hj.
  - inversion Hj; subst. rewrite Hi.
    rewrite fillFieldMap_notin; [by apply lookup_insert_eq|].
    intros fj [j' Hj']%list_elem_of_lookup. by apply (Hother (S j') fj).
  - apply (IH _ j fi Hj Hi). intros j' fj Hne Hj'.
    apply (Hother (S j') fj); [lia|done].
Qed.

(** On the header the writer emits for a record type without explicit
    ordinals, with column names that differ from each other and carry no
    surrounding white space, column [i] is mapped to field [i]. *)
Lemma createFieldMap_plain (T : RecordType) :
  Kind_ T = KStruct ->
  forallb plainField (structFields T) = true ->
  NoDup (map columnName (structFields T)) ->
  Forall (fun f => Strings.TrimSpace (columnName f) = columnName f) (structFields T) ->
  exists fm,
    createFieldMap T (map columnName (structFields T)) = Ok fm /\
    forall i f, structFields T !! i = Some f -> fm !! i = Some f.
Proof.
  intros Hk Hp Hnd Htrim. unfold createFieldMap.
  rewrite (resolveFields_plain T Hk Hp). eexists. split; [reflexivity|].
  assert (map Strings.TrimSpace (map columnName (structFields T))
          = map columnName (structFields T)) as Hmap.
  { rewrite map_map. apply map_ext_Forall. exact Htrim. }
  assert (forall i f, structFields T !! i = Some f ->
            headerMapFrom 0 (map columnName (structFields T)) ∅ !! columnName f = Some i)
    as Hhm.
  { intros i f Hi.
    pose proof (headerMapFrom_NoDup (map columnName (structFields T)) 0 ∅ i (columnName f))
      as H.
    rewrite Hmap in H. specialize (H Hnd).
    rewrite list_lookup_fmap, Hi in H. specialize (H eq_refl).
    rewrite Forall_forall in Htrim.
    rewrite (Htrim f) in H; [done|]. by eapply list_elem_of_lookup_2. }
  intros i f Hi.
  assert (exists fi, numbered 0 (structFields T) !! i = Some fi) as [fi Hfi].
  { apply lookup_lt_is_Some_2.
    replace (length (numbered 0 (structFields T)))
      with (length (map name (numbered 0 (structFields T)))) by apply length_map.
    rewrite numbered_name, length_map. by eapply lookup_lt_Some. }
  destruct (numbered_lookup _ _ _ _ Hfi) as (f' & Hf' & Hfield & Hname).
  assert (f' = f) as -> by congruence.
  rewrite <- Hfield.
  apply (fillFieldMap_entry _ _ i _ i fi Hfi); [rewrite Hname; by apply Hhm|].
  intros j' fj Hne Hj'. destruct (numbered_lookup _ _ _ _ Hj') as (g & Hg & _ & Hgn).
  rewrite Hgn, (Hhm j' g Hg). congruence.
Qed.

(** ** Writing, then reading *)

Section RoundTrip.

Context (lib : Externals) (T : RecordType) (fm : gmap nat StructField).

Hypothesis Hnames : uniqueNames T.

Hypothesis Hplain : forallb plainField (structFields T) = true.

Hypothesis Hfm : forall i f, structFields T !! i = Some f -> fm !! i = Some f.

Lemma plain_exported (i : nat) (f : StructField) :
  structFields T !! i = Some f -> String.eqb (PkgPath f) "" = true.
Proof.
  intros Hi. rewrite forallb_forall in Hplain.
  specialize (Hplain f ltac:(apply list_elem_of_In; by eapply list_elem_of_lookup_2)).
  unfold plainField in Hplain. by apply andb_prop in Hplain as [[_ ?]%andb_prop _].
Qed.

Lemma encodeFields_cells (record : list Value) (fs2 : list StructField) :
  forall (vs2 : list Value) (k : nat) (n : Z),
    Forall2 (survives lib) fs2 vs2 ->
    (forall j f, fs2 !! j = Some f -> structFields T !! (k + j)%nat = Some f) ->
    (forall j v, vs2 !! j = Some v -> record !! (k + j)%nat = Some v) ->
    encodeFields lib T record (numbered n fs2) = Ok (cellsFor lib fs2 vs2).
Proof.
  induction fs2 as [|f fs2 IH]; intros vs2 k n Hall Hfs Hvs.
  - inversion Hall; subst. reflexivity.
  - inversion Hall as [|? v ? vs2' (s & Henc & Hdec) Hall']; subst. simpl.
    pose proof (Hfs 0%nat f eq_refl) as Hf. rewrite Nat.add_0_r in Hf.
    pose proof (Hvs 0%nat v eq_refl) as Hv. rewrite Nat.add_0_r in Hv.
    rewrite (FieldByName_own T record false f Hnames
               ltac:(by eapply list_elem_of_lookup_2)).
    rewrite (structFields_Index0 _ _ _ Hf), Hv. simpl.
    unfold encodeField in Henc. rewrite Henc.
    rewrite (IH vs2' (S k) (n + 1) Hall').
    + unfold cellsFor. simpl. unfold encodeField. by rewrite Henc.
    + intros j g Hg. replace (S k + j)%nat with (k + S j)%nat by lia. by apply Hfs.
    + intros j w Hw. replace (S k + j)%nat with (k + S j)%nat by lia. by apply Hvs.
Qed.

Lemma decodeCells_cells (fs2 : list StructField) :
  forall (vs1 vs2 : list Value),
    Forall2 (survives lib) fs2 vs2 ->
    (forall j f, fs2 !! j = Some f -> structFields T !! (length vs1 + j)%nat = Some f) ->
    decodeCells lib T fm (length vs1) (cellsFor lib fs2 vs2)
                (vs1 ++ map (fun f => zeroValue (Typ f)) fs2)
    = Ok (vs1 ++ vs2)%list.
Proof.
  induction fs2 as [|f fs2 IH]; intros vs1 vs2 Hall Hfs.
  - inversion Hall; subst. reflexivity.
  - inversion Hall as [|? v ? vs2' (s & Henc & Hdec) Hall']; subst.
    pose proof (Hfs 0%nat f eq_refl) as Hf. rewrite Nat.add_0_r in Hf.
    unfold cellsFor. simpl. rewrite Henc, (Hfm _ _ Hf).
    rewrite (FieldByName_own T _ true f Hnames ltac:(by eapply list_elem_of_lookup_2)).
    rewrite (structFields_Index0 _ _ _ Hf).
    rewrite lookup_app_r, Nat.sub_diag by lia. simpl.
    unfold decodeField in Hdec. rewrite (plain_exported _ _ Hf) in *. simpl in *.
    rewrite Hdec.
    replace (<[length vs1:=v]> (vs1 ++ zeroValue (Typ f)
                                  :: map (fun f0 => zeroValue (Typ f0)) fs2)%list)
      with ((vs1 ++ [v]) ++ map (fun f0 => zeroValue (Typ f0)) fs2)%list.
    + replace (S (length vs1)) with (length (vs1 ++ [v])%list)
        by (rewrite length_app; simpl; lia).
      fold (cellsFor lib fs2 vs2').
      rewrite IH; [by rewrite <- app_assoc|done|].
      intros j g Hg. rewrite length_app. simpl.
      replace (length vs1 + 1 + j)%nat with (length vs1 + S j)%nat by lia. by apply Hfs.
    + rewrite <- app_assoc. simpl.
      replace (length vs1) with (length vs1 + 0)%nat at 1 by lia.
      by rewrite insert_app_r.
Qed.

Lemma cellsFor_length (record : list Value) :
  roundTrips lib T record ->
  length (cellsFor lib (structFields T) record) = length (structFields T).
Proof.
  intros H. unfold cellsFor. rewrite length_zip_with.
  apply Forall2_length in H. lia.
Qed.

End RoundTrip.

Section WriteForward.

Context (lib : Externals) (T : RecordType).

Lemma Write_encoded (rw : Writer) (record : list Value) (row : list string) :
  Csv.werr (writer rw) = None ->
  encodeFields lib T record (fields rw) = Ok row ->
  Write lib T rw record
  = (mkWriter (Csv.mkWriter
                 (Csv.out (writer rw)
                  ++ (if writeHeaderOnce rw then []
                      else [Csv.Row (map name (fields rw)); Csv.Flushed])
                  ++ [Csv.Row row; Csv.Flushed])%list None)
              (fields rw) true, Ok tt).
Proof.
  destruct rw as [[o we] fs once]. simpl. intros -> Henc.
  unfold Write, Csv.Write, Csv.Flush. simpl.
  destruct once; simpl; rewrite Henc; simpl; by rewrite <- !app_assoc.
Qed.

Lemma WriteAll_encoded (cells : list Value -> list string) (records : list (list Value)) :
  forall (rw : Writer),
    Csv.werr (writer rw) = None ->
    writeHeaderOnce rw = true ->
    Forall (fun record => encodeFields lib T record (fields rw) = Ok (cells record))
           records ->
    WriteAll lib T rw records
    = (mkWriter (Csv.mkWriter (Csv.out (writer rw) ++ dataRows (map cells records))%list
                              None)
                (fields rw) true, Ok tt).
Proof.
  induction records as [|record records IH]; intros rw Hw Honce Hall; simpl.
  - unfold dataRows. simpl. rewrite app_nil_r.
    destruct rw as [[o we] fs once]. simpl in *. by subst.
  - inversion Hall as [|? ? Henc Hall']; subst.
    rewrite (Write_encoded rw record _ Hw Henc), Honce.
    rewrite IH by done. simpl. unfold dataRows. simpl. by rewrite <- app_assoc.
Qed.

End WriteForward.

Section ReadBack.

Context (lib : Externals) (T : RecordType) (fm : gmap nat StructField)
        (hs : list string).

Hypothesis Hnames : uniqueNames T.

Hypothesis Hplain : forallb plainField (structFields T) = true.

Hypothesis Hfm : forall i f, structFields T !! i = Some f -> fm !! i = Some f.

Hypothesis Hlen : length hs = length (structFields T).

Hypothesis Hpos : (0 < length hs)%nat.

(** Reading back the rows of records that survive the codec yields the
    records, and the sequence then ends normally. *)
Lemma All_cells (records : list (list Value)) :
  forall (ls : list Csv.line) (cur : list Value) (acc : list (list Value)),
    Forall (roundTrips lib T) records ->
    Forall2 carries (map (cellsFor lib (structFields T)) records) ls ->
    exists rb,
      All lib T (mkReader (Csv.mkReader ls (Z.of_nat (length hs))) hs fm None cur)
          (fun a r => ((a ++ [r])%list, true)) acc
      = (rb, (acc ++ records)%list, Returned).
Proof.
  induction records as [|record records IH]; intros ls cur acc Hall Hcar.
  - inversion Hcar; subst. rewrite All_unfold. simpl. rewrite app_nil_r. eauto.
  - inversion Hall as [|? ? Hrt Hall']; subst.
    simpl in Hcar. inversion Hcar as [|? l ? ls' Hc Hcar']; subst.
    destruct l as [|c cs|]; simpl in Hc; try contradiction.
    rewrite All_unfold. unfold nextRow, Csv.Read. simpl Csv.readRecord. cbv iota beta.
    simpl Csv.FieldsPerRecord.
    destruct (Z.of_nat (length hs) >? 0) eqn:E; [|lia].
    rewrite <- Hc, (cellsFor_length lib T record Hrt), <- Hlen, Z.eqb_refl. simpl negb.
    cbv iota. simpl fieldMap.
    pose proof (decodeCells_cells lib T fm Hnames Hplain Hfm (structFields T) [] record
                  Hrt ltac:(by intros j f Hj)) as Hdec.
    simpl in Hdec. unfold zeroRecord. rewrite Hdec. simpl.
    destruct (IH ls' record (acc ++ [record])%list Hall' Hcar') as [rb Hrb].
    rewrite Hrb. rewrite <- app_assoc. eauto.
Qed.

End ReadBack.


Lemma wrapInt_small (bits z : Z) :
  0 < bits -> - 2 ^ (bits - 1) <= z < 2 ^ (bits - 1) -> wrapInt bits z = z.
Proof.
  intros Hb Hz. unfold wrapInt.
  assert (2 ^ bits = 2 * 2 ^ (bits - 1)) as Hp.
  { rewrite <- Z.pow_succ_r by lia. f_equal. lia. }
  rewrite Z.mod_small by lia. lia.
Qed.

(** Such a value in an exported field without hooks survives the codec. *)
Lemma survives_builtin (lib : Externals) (f : StructField) (v : Value) :
  UnmarshalCSV (Typ f) = None -> MarshalCSV (Typ f) = None -> PkgPath f = "" ->
  builtinValue (TKind (Typ f)) v ->
  survives lib f v.
Proof.
  intros Hu Hm Hp Hv.
  assert (forall k, intBits k = 8 \/ intBits k = 16 \/ intBits k = 32 \/ intBits k = 64)
    as Hbits by (intros k; destruct k; simpl; auto).
  assert (forall k z, - 2 ^ (intBits k - 1) <= z < 2 ^ (intBits k - 1) ->
                      0 < intBits k /\ - 2 ^ 63 <= z < 2 ^ 63) as H64.
  { intros k z Hz. destruct (Hbits k) as [H|[H|[H|H]]]; rewrite H in Hz |- *;
      simpl in Hz; lia. }
  assert (forall s, encodeField lib f v = Ok s ->
                    (forall t, TKind (Typ f) = t ->
                       match t with
                       | KString => Ok (VString s) = Ok v
                       | KBool =>
                           match Strconv.ParseBool s with
                           | Ok b => Ok (VBool b)
                           | Err e => Err e
                           | Panic m => Panic m
                           end = Ok v
                       | KInt | KInt8 | KInt16 | KInt32 | KInt64 =>
                           match Strconv.ParseInt s with
                           | Ok z => Ok (VInt (wrapInt (intBits t) z))
                           | Err e => Err e
                           | Panic m => Panic m
                           end = Ok v
                       | _ => True
                       end) ->
                    survives lib f v) as Hgoal.
  { intros s Henc Hdec. exists s. split; [exact Henc|].
    specialize (Hdec _ eq_refl).
    unfold decodeField, setFieldValue, implementsUnmarshaler, ptrImplementsUnmarshaler,
      isTimeType, store, CanSet, CanInterface, CanAddr.
    cbn [rtype rval flagAddr flagRO].
    rewrite Hu, Hp, !andb_false_r. simpl.
    destruct (TKind (Typ f)), v; simpl in Hv; try contradiction; exact Hdec. }
  unfold encodeField, getFieldStringValue, implementsMarshaler, ptrImplementsMarshaler,
    isTimeType, CanInterface, CanAddr in Hgoal.
  cbn [rtype rval flagAddr flagRO] in Hgoal.
  rewrite Hm, Hp, !andb_false_r in Hgoal. simpl in Hgoal.
  destruct (TKind (Typ f)) eqn:Ek, v as [b|z|z|b|s|t|l|]; simpl in Hv; try contradiction;
    (eapply Hgoal; [reflexivity|]); intros t' <-; simpl.
  - by destruct b.
  - destruct (H64 KInt z Hv) as [Hb Hz].
    rewrite ParseInt_FormatInt by exact Hz. by rewrite wrapInt_small.
  - destruct (H64 KInt8 z Hv) as [Hb Hz].
    rewrite ParseInt_FormatInt by exact Hz. by rewrite wrapInt_small.
  - destruct (H64 KInt16 z Hv) as [Hb Hz].
    rewrite ParseInt_FormatInt by exact Hz. by rewrite wrapInt_small.
  - destruct (H64 KInt32 z Hv) as [Hb Hz].
    rewrite ParseInt_FormatInt by exact Hz. by rewrite wrapInt_small.
  - destruct (H64 KInt64 z Hv) as [Hb Hz].
    rewrite ParseInt_FormatInt by exact Hz. by rewrite wrapInt_small.
  - reflexivity.
Qed.

Lemma Person_roundTrips (nm email : string) (age : Z) :
  - 2 ^ 63 <= age < 2 ^ 63 ->
  roundTrips sampleLib Person [VString nm; VString email; VInt age].
Proof.
  intros Hage. unfold roundTrips. simpl.
  repeat (constructor; [apply survives_builtin; simpl; auto|]). constructor.
Qed.



(** ** Hooks *)

(** C4, amended.  Whatever the kind of the type and whatever the library
    codecs:
    - the decoder, on a field it may set, returns what [UnmarshalCSV] of
      the type or of a pointer to it returns;
    - the encoder, on an exported field, returns what [MarshalCSV] on a
      value receiver returns;
    - the encoder, on a field that is not exported, treats the type as if
      it had no hook. *)
Theorem hooks_are_authoritative (lib : Externals) (fv : RValue) :
  (forall value,
      CanSet fv = true -> ptrImplementsUnmarshaler (rtype fv) = true ->
      setFieldValue lib fv value = callUnmarshalCSV (rtype fv) value (rval fv)) /\
  (CanInterface fv = true -> implementsMarshaler (rtype fv) = true ->
   getFieldStringValue lib fv = callMarshalCSV (rtype fv) (rval fv)) /\
  (CanInterface fv = false ->
   getFieldStringValue lib fv
   = getFieldStringValue lib
       (mkRValue (withoutHooks (rtype fv)) (rval fv) (flagAddr fv) (flagRO fv))).
Proof.
  split; [|split].
  - intros value. apply setFieldValue_hook.
  - apply getFieldStringValue_hook.
  - unfold getFieldStringValue, CanInterface, CanAddr, isTimeType.
    cbn [rtype rval flagAddr flagRO withoutHooks TKind TypeString].
    intros ->. rewrite !andb_false_r. reflexivity.
Qed.

(** C4 as stated fails on a field that is not exported: its type has
    [MarshalCSV], which would write "***", and the writer writes the
    string itself by the built-in rule. *)
Lemma unexported_hook_counterexample :
  callMarshalCSV tMasked (VString "hunter2") = Ok "***" /\
  written sampleLib Hidden [[VString "hunter2"]]
  = Ok [Csv.Row ["secret"]; Csv.Flushed; Csv.Row ["hunter2"]; Csv.Flushed].
Proof. split; vm_compute; reflexivity. Qed.

(** The hooks at work through the reader and the writer: the exported
    [Password] is written by its hook. *)
Example value_marshaler_is_called :
  written sampleLib Login [[VString "hunter2"]]
  = Ok [Csv.Row ["Password"]; Csv.Flushed; Csv.Row ["***"]; Csv.Flushed].
Proof. vm_compute. reflexivity. Qed.

(** ** Explicit and implicit ordinals *)

(** After the first pass a field without [index=] has its position as index. *)
Lemma collectFields_implicit (fs : list StructField) :
  forall acc mx fields mx',
    collectFields fs acc mx = Ok (fields, mx') ->
    (forall fi, fi ∈ acc -> noIndex (Tag (field fi)) = true ->
                index fi = Z.of_nat (Index0 (field fi))) ->
    forall fi, fi ∈ fields -> noIndex (Tag (field fi)) = true ->
               index fi = Z.of_nat (Index0 (field fi)).
Proof.
  induction fs as [|f fs IH]; intros acc mx fields mx' H Hacc; simpl in H.
  - inversion H; subst. exact Hacc.
  - destruct (String.eqb (Tag f) "-"); [eauto|].
    destruct (scanParts _ _ _ _) as [[idx mx1]|e|m] eqn:E; try discriminate.
    apply (IH _ _ _ _ H). intros fi [Hfi|Hfi]%elem_of_app Hno; [by apply Hacc|].
    apply list_elem_of_singleton in Hfi as ->. simpl in *.
    unfold noIndex in Hno. rewrite scanParts_noIndex in E by exact Hno.
    by inversion E.
Qed.

Lemma assignIndexes_by_annotation (fields : list fieldInfo) :
  forall n,
    (forall fi, fi ∈ fields ->
                noIndex (Tag (field fi)) = true <->
                index fi = Z.of_nat (Index0 (field fi))) ->
    assignIndexes fields n = assignByAnnotation fields n.
Proof.
  induction fields as [|fi fields IH]; intros n H; simpl; [done|].
  pose proof (H fi ltac:(by left)) as Hfi.
  rewrite IH by (intros fj Hj; apply H; by right).
  rewrite IH by (intros fj Hj; apply H; by right).
  destruct (noIndex (Tag (field fi))) eqn:E.
  - rewrite (proj1 Hfi eq_refl), Z.eqb_refl. done.
  - destruct (index fi =? Z.of_nat (Index0 (field fi))) eqn:E2; [|done].
    apply Z.eqb_eq in E2. apply Hfi in E2. discriminate.
Qed.

(** The code resolves a record type as the specification does whenever no
    explicit index equals the position of its own field. *)
Lemma resolveFields_refines_spec (T : RecordType) (fields : list fieldInfo) (mx : Z) :
  collectFields (structFields T) [] (-1) = Ok (fields, mx) ->
  (forall fi, fi ∈ fields -> noIndex (Tag (field fi)) = false ->
              index fi <> Z.of_nat (Index0 (field fi))) ->
  resolveFields T = resolveFieldsSpec T.
Proof.
  intros Hc Hne. unfold resolveFields, resolveFieldsSpec. rewrite Hc.
  destruct (Kind_ T); try reflexivity.
  rewrite assignIndexes_by_annotation; [done|].
  intros fi Hfi. split.
  - apply (collectFields_implicit _ _ _ _ _ Hc); [|done].
    intros fj Hj. by apply elem_of_nil in Hj.
  - intros Heq. destruct (noIndex (Tag (field fi))) eqn:E; [done|].
    by apply Hne in Heq.
Qed.

(** C1, on the code: in [A, B(index=1), C(index=0)] the explicit index of
    [B] equals its position in the struct, so the code takes [B] for a
    field without an index: [B] gets 3 and the order is C(0), A(2), B(3),
    where the specification has C(0), B(1), A(2). *)
Theorem explicit_index_at_own_position :
  order (resolveFields ABC_coincide) = Ok [("C", 0); ("A", 2); ("B", 3)] /\
  order (resolveFieldsSpec ABC_coincide) = Ok [("C", 0); ("B", 1); ("A", 2)].
Proof. split; vm_compute; reflexivity. Qed.

(** ** The sort *)

Lemma insertByIndex_sorted (fi : fieldInfo) (sorted : list fieldInfo) :
  StronglySorted (fun a b => index a <= index b) sorted ->
  StronglySorted (fun a b => index a <= index b) (insertByIndex fi sorted).
Proof.
  induction 1 as [|fj rest Hs IH Hall]; simpl.
  - repeat constructor.
  - destruct (index fi <? index fj) eqn:E.
    + constructor; [by constructor|]. constructor; [lia|].
      eapply Forall_impl; [exact Hall|]. simpl. intros; lia.
    + constructor; [exact IH|].
      rewrite insertByIndex_Permutation. constructor; [lia|exact Hall].
Qed.

(** The resolved list ascends by index. *)
Lemma sortSlice_sorted (fields : list fieldInfo) :
  StronglySorted (fun a b => index a <= index b) (sortSlice fields).
Proof.
  unfold sortSlice.
  assert (forall acc, StronglySorted (fun a b => index a <= index b) acc ->
            StronglySorted (fun a b => index a <= index b)
              (fold_left (fun sorted fi => insertByIndex fi sorted) fields acc)) as H.
  { induction fields as [|fi fields IH]; intros acc Hacc; simpl; [done|].
    apply IH. by apply insertByIndex_sorted. }
  apply H. constructor.
Qed.

(** When the indexes differ from each other there is one ascending
    arrangement: any sort gives the list of [sortSlice]. *)
Lemma ascending_unique (l1 : list fieldInfo) :
  forall l2,
    l1 ≡ₚ l2 ->
    StronglySorted (fun a b => index a < index b) l1 ->
    StronglySorted (fun a b => index a < index b) l2 ->
    l1 = l2.
Proof.
  induction l1 as [|a l1 IH]; intros l2 Hp H1 H2.
  - by apply Permutation_nil_l in Hp.
  - destruct l2 as [|b l2]; [by apply Permutation_nil_r in Hp|].
    apply StronglySorted_inv in H1 as [H1 Ha]. apply StronglySorted_inv in H2 as [H2 Hb].
    rewrite Forall_forall in Ha, Hb.
    assert (a = b) as ->.
    { assert (a ∈ b :: l2) as Hin by (rewrite <- Hp; by left).
      assert (b ∈ a :: l1) as Hin' by (rewrite Hp; by left).
      apply elem_of_cons in Hin as [->|Hin]; [done|].
      apply elem_of_cons in Hin' as [->|Hin']; [done|].
      apply Hb in Hin. apply Ha in Hin'. lia. }
    f_equal. apply IH; [by apply Permutation_cons_inv in Hp|done|done].
Qed.

(** ** The lazy sequence and the eager list *)

Section Lazy.

Context (lib : Externals) (T : RecordType).

(** What [slices.Collect] gathers does not depend on what it starts with. *)
Lemma All_collect_acc (n : nat) :
  forall (rb : Reader) (acc : list (list Value)),
    (length (Csv.input (reader rb)) < n)%nat ->
    All lib T rb (fun a r => ((a ++ [r])%list, true)) acc
    = let '(rb', recs, o) := All lib T rb (fun a r => ((a ++ [r])%list, true)) [] in
      (rb', (acc ++ recs)%list, o).
Proof.
  induction n as [|n IH]; intros rb acc Hlen; [lia|].
  rewrite !(All_unfold lib T _ rb).
  destruct (nextRow lib T rb) as [[[] rb1]|e|m] eqn:E.
  - apply nextRow_true_lt in E.
    rewrite (IH rb1 (acc ++ [current rb1])%list) by lia.
    rewrite (IH rb1 ([] ++ [current rb1])%list) by lia.
    destruct (All lib T rb1 _ []) as [[rb' recs] o]. simpl.
    by rewrite <- app_assoc.
  - destruct (err rb1) as [[]|]; simpl; by rewrite app_nil_r.
  - simpl. by rewrite app_nil_r.
  - simpl. by rewrite app_nil_r.
Qed.

Lemma Collect_unfold (rb : Reader) :
  Collect lib T rb =
  match nextRow lib T rb with
  | Ok (true, rb') =>
      let '(recs, o) := Collect lib T rb' in (current rb' :: recs, o)
  | Ok (false, rb') =>
      match err rb' with
      | Some EOF | None => ([], Returned)
      | Some e => ([], Panicked e)
      end
  | Err e => ([], Crashed "unreachable")
  | Panic m => ([], Crashed m)
  end.
Proof.
  unfold Collect. rewrite All_unfold.
  destruct (nextRow lib T rb) as [[[] rb1]|e|m] eqn:E; try reflexivity.
  - simpl.
    rewrite (All_collect_acc (S (length (Csv.input (reader rb1)))) rb1 [current rb1])
      by lia.
    destruct (All lib T rb1 _ []) as [[rb' recs] o]. reflexivity.
  - destruct (err rb1) as [[]|]; reflexivity.
Qed.

Lemma All_as_feed_bounded {C : Type} (yield : C -> list Value -> C * bool) (n : nat) :
  forall (rb : Reader) (c : C),
    (length (Csv.input (reader rb)) < n)%nat ->
    let '(_, c', o') := All lib T rb yield c in
    (c', o') =
    let '(recs, o) := Collect lib T rb in
    let '(c1, more) := feed yield c recs in
    (c1, if more then o else Returned).
Proof.
  induction n as [|n IH]; intros rb c Hlen; [lia|].
  rewrite All_unfold, Collect_unfold.
  destruct (nextRow lib T rb) as [[[] rb1]|e|m] eqn:E.
  - apply nextRow_true_lt in E. specialize (IH rb1).
    destruct (Collect lib T rb1) as [recs o]. simpl.
    destruct (yield c (current rb1)) as [c1 more]. destruct more; [|reflexivity].
    apply IH. lia.
  - destruct (err rb1) as [[]|]; reflexivity.
  - reflexivity.
  - reflexivity.
Qed.

End Lazy.

Lemma AllSeq_as_feed (lib : Externals) (T : RecordType) (C : Type)
    (yield : C -> list Value -> C * bool) (rb : Reader) (c : C) :
  AllSeq lib T rb C yield c =
  let '(recs, o) := Collect lib T rb in
  let '(c1, more) := feed yield c recs in
  (c1, if more then o else Returned).
Proof.
  unfold AllSeq.
  pose proof (All_as_feed_bounded lib T yield (S (length (Csv.input (reader rb)))) rb c
                ltac:(lia)) as H.
  destruct (All lib T rb yield c) as [[rb' c'] o']. exact H.
Qed.

(** X1: against any consumer, the sequence of [All] behaves as if the
    consumer were fed, one by one, the records [slices.Collect] would
    gather: it ends normally as soon as the consumer declines, and
    otherwise as the collected run ends. *)
Theorem All_feeds_the_collected_records (lib : Externals) (T : RecordType) (C : Type)
    (yield : C -> list Value -> C * bool) (rb : Reader) (c : C) :
  AllSeq lib T rb C yield c =
  let '(recs, o) := Collect lib T rb in
  let '(c1, more) := feed yield c recs in
  (c1, if more then o else Returned).
Proof. apply AllSeq_as_feed. Qed.

(** ** Filter *)

Lemma pushAll_filter {C V : Type} (f : V -> bool) (yield : C -> V -> C * bool)
    (l : list V) :
  forall c, pushAll (fun c v => if f v then yield c v else (c, true)) c l
            = pushAll yield c (List.filter f l).
Proof.
  induction l as [|v l IH]; intros c; simpl; [done|].
  destruct (f v); simpl; [|apply IH].
  destruct (yield c v) as [c' []]; [apply IH|done].
Qed.

Lemma feed_pushAll {C : Type} (yield : C -> list Value -> C * bool)
    (recs : list (list Value)) (c : C) :
  feed yield c recs = pushAll yield c recs.
Proof.
  revert c. induction recs as [|r recs IH]; intros c; simpl; [done|].
  destruct (yield c r) as [c' []]; [apply IH|done].
Qed.

Lemma pushAll_collect {V : Type} (l : list V) :
  forall acc, pushAll (fun a v => ((a ++ [v])%list, true)) acc l = ((acc ++ l)%list, true).
Proof.
  induction l as [|v l IH]; intros acc; simpl.
  - by rewrite app_nil_r.
  - rewrite IH. by rewrite <- app_assoc.
Qed.

(** X2: on the sequence of a slice, [Filter] hands the consumer exactly
    the elements that satisfy the predicate, in their order, and stops
    where the consumer stops: it is the sequence of the filtered slice. *)
Theorem Filter_of_a_slice (V C : Type) (f : V -> bool) (l : list V)
    (yield : C -> V -> C * bool) (c : C) :
  Filter f (Values l) C yield c = Values (List.filter f l) C yield c.
Proof. unfold Filter, Values. by rewrite pushAll_filter. Qed.

(** X3: collecting [Filter(f, rb.All())] gives the records of
    [slices.Collect(rb.All())] that satisfy [f], in their order, and the
    sequence ends the same way (with the same panic, if any). *)
Theorem Filter_of_the_reader (lib : Externals) (T : RecordType)
    (f : list Value -> bool) (rb : Reader) :
  collectSeq (Filter f (AllSeq lib T rb))
  = let '(recs, o) := Collect lib T rb in (List.filter f recs, o).
Proof.
  unfold collectSeq, Filter.
  rewrite (AllSeq_as_feed lib T).
  destruct (Collect lib T rb) as [recs o].
  rewrite feed_pushAll, pushAll_filter, pushAll_collect. reflexivity.
Qed.

(** The package's test of [Filter]. *)
Example filter_test :
  collectSeq (Filter olderThan25 (AllSeq sampleLib Person (readerOn Person threePeople)))
  = ([alice; charlie], Returned).
Proof. vm_compute. reflexivity. Qed.

(** ** One pass *)

Lemma Read_EOF_input (r r' : Csv.Reader) :
  Csv.Read r = (Err EOF, r') -> Csv.input r' = [].
Proof.
  unfold Csv.Read.
  assert (forall ls rest, Csv.readRecord ls = (Err EOF, rest) -> rest = []) as H.
  { induction ls as [|l ls IH]; simpl; intros rest Hr.
    - by inversion Hr.
    - destruct l; [eauto|discriminate|discriminate]. }
  destruct (Csv.readRecord (Csv.input r)) as [[record|e|m] rest] eqn:E.
  - repeat case_match; discriminate.
  - intros Hr. inversion Hr; subst. simpl. eauto.
  - discriminate.
Qed.

Section OnePass.

Context (lib : Externals) (T : RecordType).

(** Where a traversal by [slices.Collect] leaves the reader. *)
Lemma All_collect_end (n : nat) :
  forall (rb rbf : Reader) (acc recs : list (list Value)) (o : outcome),
    (length (Csv.input (reader rb)) < n)%nat ->
    All lib T rb (fun a r => ((a ++ [r])%list, true)) acc = (rbf, recs, o) ->
    match o with
    | Returned => Csv.input (reader rbf) = [] /\ (err rbf = None \/ err rbf = Some EOF)
    | Panicked e => err rbf = Some e /\ e <> EOF
    | Crashed _ => True
    end.
Proof.
  induction n as [|n IH]; intros rb rbf acc recs o Hlen; [lia|].
  rewrite All_unfold.
  destruct (nextRow lib T rb) as [[[] rb1]|e|m] eqn:E.
  - apply nextRow_true_lt in E. apply IH. lia.
  - unfold nextRow in E.
    destruct (Csv.Read (reader rb)) as [[record|e|m] rd] eqn:ER.
    + destruct (decodeCells lib T (fieldMap rb) 0 record (zeroRecord T)) as [t|e|m] eqn:ED;
        inversion E; subst; simpl.
      destruct (decodeCells_Err lib T _ _ _ _ _ ED) as (fname & cause & ->).
      intros H; inversion H; subst. done.
    + destruct e; inversion E; subst; simpl;
        try (intros H; inversion H; subst; done).
      apply Read_EOF_input in ER.
      destruct (err rb) as [[]|] eqn:Eerr; intros H; inversion H; subst; simpl;
        rewrite ?Eerr; auto; split; auto; discriminate.
    + discriminate.
  - intros H; inversion H; subst. done.
  - intros H; inversion H; subst. done.
Qed.

Lemma Collect_readerAfter (rb : Reader) :
  All lib T rb (fun a r => ((a ++ [r])%list, true)) []
  = (readerAfter lib T rb, (Collect lib T rb).1, (Collect lib T rb).2).
Proof.
  unfold readerAfter, Collect.
  by destruct (All lib T rb _ []) as [[rb' recs] o].
Qed.

End OnePass.

(** X4: the reader is single pass.  When a traversal that takes every
    record ends normally, the input is used up: a second traversal yields
    no record and ends normally. *)
Theorem second_traversal_is_empty (lib : Externals) (T : RecordType) (rb : Reader)
    (recs : list (list Value)) :
  Collect lib T rb = (recs, Returned) ->
  Collect lib T (readerAfter lib T rb) = ([], Returned).
Proof.
  intros H. pose proof (Collect_readerAfter lib T rb) as HA. rewrite H in HA. simpl in HA.
  apply (All_collect_end lib T (S (length (Csv.input (reader rb))))) in HA; [|lia].
  destruct HA as [Hin Herr]. rewrite Collect_unfold. unfold nextRow, Csv.Read.
  rewrite Hin. simpl. destruct Herr as [-> | ->]; reflexivity.
Qed.

Lemma second_traversal_witness :
  Collect sampleLib Person (readerAfter sampleLib Person (readerOn Person threePeople))
  = ([], Returned).
Proof.
  apply (second_traversal_is_empty sampleLib Person (readerOn Person threePeople)
           [alice; bob; charlie]).
  vm_compute. reflexivity.
Defined.

(** X5: a failure does not close the reader.  After a traversal that
    ended with the panic of an error [e], the error stays pending: a
    further traversal goes on with the rows after the failed one, and
    when it reaches the end of the input it panics with [e] again. *)
Theorem traversal_after_a_failure (lib : Externals) (T : RecordType) (rb : Reader)
    (recs : list (list Value)) (e : error) :
  Collect lib T rb = (recs, Panicked e) ->
  err (readerAfter lib T rb) = Some e /\
  forall recs2 rb2 rd,
    Yields lib T (readerAfter lib T rb) recs2 rb2 ->
    Csv.Read (reader rb2) = (Err EOF, rd) ->
    Collect lib T (readerAfter lib T rb) = (recs2, Panicked e).
Proof.
  intros H. pose proof (Collect_readerAfter lib T rb) as HA. rewrite H in HA. simpl in HA.
  apply (All_collect_end lib T (S (length (Csv.input (reader rb))))) in HA; [|lia].
  destruct HA as [Herr Hne]. split; [exact Herr|].
  intros recs2 rb2 rd Hy Hread. unfold Collect.
  rewrite (All_Yields lib T _ _ rb2 recs2 Hy [] recs2 (feed_collect [] recs2)).
  rewrite All_unfold. unfold nextRow. rewrite Hread. simpl.
  rewrite (Yields_err lib T _ _ _ Hy), Herr.
  destruct e; try reflexivity. congruence.
Qed.

Lemma traversal_after_a_failure_witness :
  Collect sampleLib Person (readerOn Person badAgeInput)
  = ([alice], Panicked (ErrSetField "Age" (ErrSyntax "ParseInt" "twenty"))) /\
  Collect sampleLib Person (readerAfter sampleLib Person (readerOn Person badAgeInput))
  = ([carol], Panicked (ErrSetField "Age" (ErrSyntax "ParseInt" "twenty"))).
Proof.
  assert (Collect sampleLib Person (readerOn Person badAgeInput)
          = ([alice], Panicked (ErrSetField "Age" (ErrSyntax "ParseInt" "twenty")))) as H
      by (vm_compute; reflexivity).
  split; [exact H|].
  destruct (traversal_after_a_failure sampleLib Person _ _ _ H) as [_ Hnext].
  apply (Hnext [carol]
           (mkReader (Csv.mkReader [] 3) ["Name"; "Email"; "Age"]
                     (fieldMap (readerOn Person badAgeInput))
                     (Some (ErrSetField "Age" (ErrSyntax "ParseInt" "twenty"))) carol)
           (Csv.mkReader [] 3)).
  - apply (Yields_cons sampleLib Person _
             (mkReader (Csv.mkReader [] 3) ["Name"; "Email"; "Age"]
                       (fieldMap (readerOn Person badAgeInput))
                       (Some (ErrSetField "Age" (ErrSyntax "ParseInt" "twenty"))) carol)
             _ []); [vm_compute; reflexivity|constructor].
  - reflexivity.
Defined.

(** ** Runs of the writer *)

Section WriterRuns.

Context (lib : Externals) (T : RecordType).

Lemma feed_WriteAll (recs : list (list Value)) :
  forall rw,
    feed (fun (st : Writer * res unit) record =>
            let r := Write lib T st.1 record in
            (r, match r.2 with Ok _ => true | _ => false end))
         (rw, Ok tt) recs
    = (WriteAll lib T rw recs,
       match (WriteAll lib T rw recs).2 with Ok _ => true | _ => false end).
Proof.
  induction recs as [|r recs IH]; intros rw; simpl; [done|].
  destruct (Write lib T rw r) as [rw1 [[]|e|m]]; simpl; [apply IH|done|done].
Qed.

Lemma encodeFields_length (record : list Value) (fs : list fieldInfo) :
  forall row, encodeFields lib T record fs = Ok row -> length row = length fs.
Proof.
  induction fs as [|fi fs IH]; intros row; simpl.
  - intros H; by inversion H.
  - destruct (FieldByName T record false (Name (field fi))) as [[pos fv]|]; [|done].
    destruct (getFieldStringValue lib fv) as [s|e|m]; try done.
    destruct (encodeFields lib T record fs) as [strs|e|m]; try done.
    intros H; inversion H; subst. simpl. f_equal. by apply IH.
Qed.

Lemma Write_rectangular (rw : Writer) (record : list Value) :
  rectangular (length (fields rw)) (Csv.out (writer rw)) ->
  fields (Write lib T rw record).1 = fields rw /\
  rectangular (length (fields rw)) (Csv.out (writer (Write lib T rw record).1)).
Proof.
  unfold rectangular, Write, Csv.Write, Csv.Flush.
  destruct rw as [[o we] fs once]. simpl. intros Ho.
  assert (Forall (fun ev => match ev with
                            | Csv.Row cells => length cells = length fs
                            | Csv.Flushed => True
                            end)
                 ((o ++ [Csv.Row (map name fs)]) ++ [Csv.Flushed])%list) as Hh.
  { repeat (apply Forall_app; split); auto; repeat constructor.
    by rewrite length_map. }
  destruct once, we as [e|]; simpl;
    try (destruct (encodeFields lib T record fs) as [row|e'|m] eqn:E; simpl); auto.
  - split; [done|]. apply encodeFields_length in E.
    repeat (apply Forall_app; split); auto;
      (apply Forall_cons; split; [|by constructor]); by rewrite ?length_map.
  - split; [done|]. apply encodeFields_length in E.
    repeat (apply Forall_app; split); auto;
      (apply Forall_cons; split; [|by constructor]); by rewrite ?length_map.
Qed.

Lemma WriteAll_rectangular (records : list (list Value)) :
  forall rw,
    rectangular (length (fields rw)) (Csv.out (writer rw)) ->
    fields (WriteAll lib T rw records).1 = fields rw /\
    rectangular (length (fields rw)) (Csv.out (writer (WriteAll lib T rw records).1)).
Proof.
  induction records as [|record records IH]; intros rw H; simpl; [done|].
  destruct (Write_rectangular rw record H) as [Hf Hr].
  destruct (Write lib T rw record) as [rw1 [[]|e|m]]; simpl in *; try done.
  rewrite <- Hf in Hr. destruct (IH rw1 Hr) as [Hf' Hr']. rewrite Hf' , Hf in *. done.
Qed.

End WriterRuns.

(** X6: writing in batches.  [WriteAll] on the records [a] followed by
    [b] is [WriteAll] on [a] and, when that succeeds, [WriteAll] on [b]
    with the same writer; when it fails, its failure is the result and
    no record of [b] is touched. *)
Theorem WriteAll_in_batches (lib : Externals) (T : RecordType) (rw : Writer)
    (a b : list (list Value)) :
  WriteAll lib T rw (a ++ b)
  = match WriteAll lib T rw a with
    | (rw', Ok _) => WriteAll lib T rw' b
    | failure => failure
    end.
Proof.
  revert rw. induction a as [|r a IH]; intros rw; simpl; [done|].
  destruct (Write lib T rw r) as [rw1 [[]|e|m]]; [apply IH|done|done].
Qed.

(** X7: [WriteAll] stops at the first record whose [Write] fails: the
    records before it have been written with success, the failure of that
    [Write] is the result, and the records after it are not looked at. *)
Theorem WriteAll_stops_at_the_first_failure (lib : Externals) (T : RecordType)
    (rw rw' : Writer) (records : list (list Value)) (r : res unit) :
  WriteAll lib T rw records = (rw', r) -> r <> Ok tt ->
  exists done bad rest rw1,
    records = (done ++ bad :: rest)%list /\
    WriteAll lib T rw done = (rw1, Ok tt) /\
    Write lib T rw1 bad = (rw', r).
Proof.
  revert rw. induction records as [|record records IH]; intros rw H Hr; simpl in H.
  - inversion H; subst. done.
  - destruct (Write lib T rw record) as [rw1 [[]|e|m]] eqn:E.
    + destruct (IH _ H Hr) as (done & bad & rest & rw2 & -> & Hdone & Hbad).
      exists (record :: done), bad, rest, rw2. simpl. rewrite E. done.
    + inversion H; subst. exists [], record, records, rw. done.
    + inversion H; subst. exists [], record, records, rw. done.
Qed.

Lemma WriteAll_stops_witness :
  exists done bad rest rw1,
    stockRecords = (done ++ bad :: rest)%list /\
    WriteAll sampleLib Stock stockWriter done = (rw1, Ok tt) /\
    Write sampleLib Stock rw1 bad
    = ((WriteAll sampleLib Stock stockWriter stockRecords).1,
       Err (ErrMarshalField "Count" (ErrHook "negative"))).
Proof.
  apply (WriteAll_stops_at_the_first_failure sampleLib Stock stockWriter
           (WriteAll sampleLib Stock stockWriter stockRecords).1 stockRecords
           (Err (ErrMarshalField "Count" (ErrHook "negative")))).
  - vm_compute. reflexivity.
  - discriminate.
Defined.

(** On [stockRecords] the first record is written, the second fails, the
    third is not written. *)
Example stock_written :
  Csv.out (writer (WriteAll sampleLib Stock stockWriter stockRecords).1)
  = [Csv.Row ["Item"; "Count"]; Csv.Flushed; Csv.Row ["nut"; "4"]; Csv.Flushed].
Proof. vm_compute. reflexivity. Qed.

(** X8: [WriteAll] on the sequence of a slice is the loop over the slice. *)
Theorem WriteAll_of_a_slice (lib : Externals) (T : RecordType) (rw : Writer)
    (records : list (list Value)) :
  WriteAllSeq lib T rw (Values records) = (WriteAll lib T rw records, Returned).
Proof.
  unfold WriteAllSeq, Values. f_equal.
  rewrite <- (feed_pushAll _ records (rw, Ok tt)), feed_WriteAll. reflexivity.
Qed.

(** X9: a reader piped into a writer, [rw.WriteAll(rb.All())].  The
    writer is given the records the reader yields, in order; the call
    ends as the reader's sequence does, unless a [Write] fails first: then
    the sequence is stopped there and ends normally. *)
Theorem reader_piped_into_writer (lib : Externals) (T : RecordType)
    (rb : Reader) (rw : Writer) :
  WriteAllSeq lib T rw (AllSeq lib T rb)
  = let '(recs, o) := Collect lib T rb in
    let w := WriteAll lib T rw recs in
    (w, match w.2 with Ok _ => o | _ => Returned end).
Proof.
  unfold WriteAllSeq. rewrite AllSeq_as_feed.
  destruct (Collect lib T rb) as [recs o]. rewrite feed_WriteAll.
  by destruct (WriteAll lib T rw recs) as [rw' [[]|e|m]].
Qed.

(** X10: whatever happens, every row that reaches the sink of a writer
    made by [NewWriter], the header included, has one cell for each
    resolved field. *)
Theorem rows_are_rectangular (lib : Externals) (T : RecordType) (w : option error)
    (rw0 : Writer) (records : list (list Value)) :
  NewWriter T w = Ok rw0 ->
  rectangular (length (fields rw0))
              (Csv.out (writer (WriteAll lib T rw0 records).1)).
Proof.
  unfold NewWriter. destruct (createFieldInfo T) as [fs|e|m]; try discriminate.
  intros H; inversion H; subst.
  apply (WriteAll_rectangular lib T records). simpl. constructor.
Qed.

Lemma rows_are_rectangular_witness :
  rectangular (length (fields personWriter))
              (Csv.out (writer (WriteAll sampleLib Person personWriter [alice; bob]).1)).
Proof.
  apply (rows_are_rectangular sampleLib Person None personWriter [alice; bob]).
  reflexivity.
Defined.

(** ** What the resolver returns *)

Lemma collectFields_retained (fs : list StructField) :
  forall acc mx fields mx',
    collectFields fs acc mx = Ok (fields, mx') ->
    exists new,
      fields = (acc ++ new)%list /\
      map field new = List.filter retained fs /\
      Forall (fun fi => name fi = columnName (field fi)) new.
Proof.
  induction fs as [|f fs IH]; intros acc mx fields mx' H; simpl in H.
  - inversion H; subst. exists []. by rewrite app_nil_r.
  - simpl. unfold retained at 1.
    destruct (String.eqb (Tag f) "-"); simpl.
    + eauto.
    + destruct (scanParts _ _ _ _) as [[idx mx1]|e|m]; try discriminate.
      destruct (IH _ _ _ _ H) as (new & -> & Hf & Hn).
      eexists (_ :: new). split; [by rewrite <- app_assoc|].
      simpl. split; [by rewrite Hf|]. by constructor.
Qed.

Lemma resolveFields_retained (T : RecordType) (fields : list fieldInfo) :
  resolveFields T = Ok fields ->
  map field fields ≡ₚ List.filter retained (structFields T) /\
  Forall (fun fi => name fi = columnName (field fi)) fields.
Proof.
  unfold resolveFields. destruct (Kind_ T); try discriminate.
  destruct (collectFields (structFields T) [] (-1)) as [[fs mx]|e|m] eqn:E;
    try discriminate.
  intros H. inversion H; subst. clear H.
  destruct (collectFields_retained _ _ _ _ _ E) as (new & -> & Hf & Hn). simpl in *.
  split.
  - rewrite <- Hf, <- (assignIndexes_field new (mx + 1)).
    apply Permutation_map, sortSlice_Permutation.
  - rewrite sortSlice_Permutation.
    clear E Hf. generalize (mx + 1). induction Hn as [|fi new Hfi Hn IH]; intros n; simpl.
    + constructor.
    + destruct (index fi =? _); constructor; auto.
Qed.

Lemma collectFields_noIndex (fs : list StructField) :
  forall acc mx,
    forallb (fun f => noIndex (Tag f)) fs = true ->
    collectFields fs acc mx
    = Ok ((acc ++ map (fun f => mkInfo f (columnName f) (Z.of_nat (Index0 f)))
                    (List.filter retained fs))%list, mx).
Proof.
  induction fs as [|f fs IH]; intros acc mx H; simpl.
  - by rewrite app_nil_r.
  - simpl in H. apply andb_prop in H as [Hf Hfs]. unfold retained at 1.
    destruct (String.eqb (Tag f) "-"); simpl; [by apply IH|].
    unfold noIndex in Hf. rewrite scanParts_noIndex by exact Hf.
    rewrite IH by done. by rewrite <- app_assoc.
Qed.

(** X11: what the resolver of [NewReader] and [NewWriter] returns.  The
    resolved entries are the fields of the struct whose tag is not "-",
    each of them once; the name of an entry is the first part of the tag,
    or the name of the field when that part is empty; and the entries are
    in ascending order of their indexes. *)
Theorem resolved_fields_are_the_retained_ones (T : RecordType)
    (fields : list fieldInfo) :
  resolveFields T = Ok fields ->
  map field fields ≡ₚ List.filter retained (structFields T) /\
  Forall (fun fi => name fi = columnName (field fi)) fields /\
  StronglySorted (fun a b => index a <= index b) fields.
Proof.
  intros H. destruct (resolveFields_retained T fields H) as [Hp Hn].
  split; [exact Hp|]. split; [exact Hn|].
  unfold resolveFields in H. destruct (Kind_ T); try discriminate.
  destruct (collectFields (structFields T) [] (-1)) as [[fs mx]|e|m]; try discriminate.
  inversion H; subst. apply sortSlice_sorted.
Qed.

Lemma resolved_fields_witness :
  map field (match resolveFields WithSkipped with Ok fs => fs | _ => [] end)
    ≡ₚ List.filter retained (structFields WithSkipped) /\
  Forall (fun fi => name fi = columnName (field fi))
         (match resolveFields WithSkipped with Ok fs => fs | _ => [] end) /\
  StronglySorted (fun a b => index a <= index b)
                 (match resolveFields WithSkipped with Ok fs => fs | _ => [] end).
Proof.
  apply (resolved_fields_are_the_retained_ones WithSkipped). reflexivity.
Defined.



(** ** Types the encoder has no rule for *)

Lemma getFieldStringValue_notEncodable (lib : Externals) (fv : RValue) :
  notEncodable (rtype fv) = true -> flagAddr fv = false ->
  getFieldStringValue lib fv = Err (ErrUnsupported (TypeString (rtype fv))).
Proof.
  unfold notEncodable, getFieldStringValue, CanAddr.
  intros [[Hm Ht]%andb_prop Hk]%andb_prop Ha.
  apply negb_true_iff in Hm, Ht. rewrite Hm, Ht, Ha, andb_false_r. simpl.
  by destruct (TKind (rtype fv)).
Qed.

Lemma encodeFields_notEncodable (lib : Externals) (T : RecordType)
    (record : list Value) (fs : list fieldInfo) (fi : fieldInfo) :
  uniqueNames T ->
  (forall fj, fj ∈ fs -> field fj ∈ structFields T) ->
  fi ∈ fs -> notEncodable (Typ (field fi)) = true ->
  forall row, encodeFields lib T record fs <> Ok row.
Proof.
  intros Hnames. induction fs as [|fj fs IH]; intros Hin Hfi Hne row.
  - by apply elem_of_nil in Hfi.
  - simpl. rewrite (FieldByName_own T record false (field fj) Hnames)
      by (apply Hin; by left).
    apply elem_of_cons in Hfi as [<-|Hfi].
    + by rewrite getFieldStringValue_notEncodable.
    + destruct (getFieldStringValue lib _) as [s|e|m]; try done.
      destruct (encodeFields lib T record fs) as [strs|e|m] eqn:E; try done.
      exfalso. apply (IH ltac:(intros fk Hk; apply Hin; by right) Hfi Hne strs).
      reflexivity.
Qed.

(** X13: [NewWriter] does not look at the types of the fields.  When a
    field that is not skipped has a type the encoder has no rule for (no
    [MarshalCSV] on a value receiver, not [time.Time], not a string, an
    integer, a float or a boolean), [NewWriter] still succeeds, every
    [WriteAll] of at least one record fails, and what the sink has received
    by then is the header alone. *)
Theorem unsupported_field_fails_after_the_header (lib : Externals) (T : RecordType)
    (rw0 : Writer) (f : StructField) (record : list Value)
    (records : list (list Value)) :
  uniqueNames T ->
  NewWriter T None = Ok rw0 ->
  f ∈ structFields T -> retained f = true -> notEncodable (Typ f) = true ->
  (WriteAll lib T rw0 (record :: records)).2 <> Ok tt /\
  Csv.out (writer (WriteAll lib T rw0 (record :: records)).1)
  = [Csv.Row (map name (fields rw0)); Csv.Flushed].
Proof.
  intros Hnames Hnew Hf Hret Hne. unfold NewWriter, createFieldInfo in Hnew.
  destruct (resolveFields T) as [fs|e|m] eqn:E; try discriminate.
  inversion Hnew; subst. clear Hnew.
  destruct (resolveFields_retained T fs E) as [Hp _].
  destruct (resolveFields_fields T fs E) as [_ Hin].
  assert (exists fi, fi ∈ fs /\ field fi = f) as (fi & Hfi & <-).
  { assert (f ∈ map field fs) as Hm.
    { rewrite Hp. apply list_elem_of_In, filter_In. split; [by apply list_elem_of_In|done]. }
    apply list_elem_of_fmap in Hm as (fi & -> & Hfi). eauto. }
  pose proof (encodeFields_notEncodable lib T record fs fi Hnames Hin Hfi Hne) as Henc.
  cbn [WriteAll]. unfold Write, Csv.Write, Csv.Flush. simpl.
  destruct (encodeFields lib T record fs) as [row|e|m]; [by destruct (Henc row)| |];
    simpl; split; done.
Qed.

Lemma unsupported_field_witness :
  (WriteAll sampleLib Tagged taggedWriter [[VString "x"; VNil]]).2 <> Ok tt /\
  Csv.out (writer (WriteAll sampleLib Tagged taggedWriter [[VString "x"; VNil]]).1)
  = [Csv.Row (map name (fields taggedWriter)); Csv.Flushed].
Proof.
  apply (unsupported_field_fails_after_the_header sampleLib Tagged taggedWriter
           (mkField "Tags" "" tStrings "tags" 1) [VString "x"; VNil] []).
  - apply (bool_decide_unpack _). vm_compute. exact I.
  - reflexivity.
  - right. left.
  - reflexivity.
  - reflexivity.
Defined.

(** ** What the constructors accept *)

Lemma Atoi_no_panic (s m : string) : Strconv.Atoi s <> Panic m.
Proof.
  unfold Strconv.Atoi, Strconv.parseInt64. repeat case_match; discriminate.
Qed.

Lemma scanParts_total (fieldName : string) (parts : list string) :
  forall idx mx,
    if forallb indexPartOk parts
    then exists r, scanParts fieldName parts idx mx = Ok r
    else exists e, scanParts fieldName parts idx mx = Err e.
Proof.
  induction parts as [|part parts IH]; intros idx mx; simpl; [eauto|].
  unfold indexPartOk at 1.
  destruct (Strings.HasPrefix (Strings.TrimSpace part) "index="); simpl; [|apply IH].
  destruct (Strconv.Atoi _) as [i|e|m] eqn:E; simpl; [apply IH|eauto|].
  by apply Atoi_no_panic in E.
Qed.

Lemma collectFields_total (fs : list StructField) :
  forall acc mx,
    if forallb wellTagged fs
    then exists r, collectFields fs acc mx = Ok r
    else exists e, collectFields fs acc mx = Err e.
Proof.
  induction fs as [|f fs IH]; intros acc mx; simpl; [eauto|].
  unfold wellTagged at 1, retained.
  destruct (String.eqb (Tag f) "-"); simpl; [apply IH|].
  pose proof (scanParts_total (Name f) (tail (Strings.Split (Tag f) ","))
                (Z.of_nat (Index0 f)) mx) as H.
  destruct (forallb indexPartOk _); simpl.
  - destruct H as [[idx mx'] ->]. apply IH.
  - destruct H as [e ->]. eauto.
Qed.

Lemma resolveFields_total (T : RecordType) :
  if forallb wellTagged (structFields T)
  then (Kind_ T = KStruct -> exists fields, resolveFields T = Ok fields)
  else exists e, resolveFields T = Err e.
Proof.
  unfold resolveFields.
  pose proof (collectFields_total (structFields T) [] (-1)) as H.
  destruct (forallb wellTagged (structFields T)).
  - intros ->. destruct H as [[fields mx] ->]. eauto.
  - destruct H as [e ->]. destruct (Kind_ T); eauto.
Qed.

Lemma resolveFields_accepts (T : RecordType) :
  (forall m, resolveFields T <> Panic m) /\
  ((exists fields, resolveFields T = Ok fields) <->
   Kind_ T = KStruct /\ forallb wellTagged (structFields T) = true).
Proof.
  pose proof (resolveFields_total T) as H.
  destruct (forallb wellTagged (structFields T)) eqn:E.
  - split.
    + intros m Hm. unfold resolveFields in *.
      destruct (Kind_ T); try discriminate.
      destruct (H eq_refl) as [fields Hf]. congruence.
    + split; [|intros [Hk _]; auto].
      intros [fields Hf]. split; [|done].
      unfold resolveFields in Hf. by destruct (Kind_ T).
  - destruct H as [e He]. split; [congruence|].
    split; [intros [fields Hf]; congruence|intros [_ ?]; discriminate].
Qed.

Lemma readRecord_firstLine (r : list Csv.line) :
  match firstLine r with
  | None => (Csv.readRecord r).1 = Err EOF
  | Some Csv.Blank => False
  | Some (Csv.Cells c cs) => (Csv.readRecord r).1 = Ok (c :: cs)
  | Some (Csv.Malformed msg) => (Csv.readRecord r).1 = Err (ErrParse msg)
  end.
Proof.
  unfold firstLine. induction r as [|[|c cs|msg] r IH]; simpl; done.
Qed.



(** An ordinal that is not a number is reported with its text and the
    name of the field. *)
Example bad_index_is_rejected :
  NewWriter BadIndex None = Err (ErrInvalidIndex "one" "A" (ErrSyntax "Atoi" "one")) /\
  NewReader BadIndex [Csv.Cells "a" []]
  = Err (ErrInvalidIndex "one" "A" (ErrSyntax "Atoi" "one")) /\
  NewReader BadIndex [Csv.Blank] = Err EOF.
Proof. repeat split; vm_compute; reflexivity. Qed.

(** ** Columns and header cells *)

Lemma TrimRight_idem (s : string) :
  Strings.TrimRight (Strings.TrimRight s) = Strings.TrimRight s.
Proof.
  induction s as [|c s IH]; simpl; [done|].
  destruct (Strings.isSpace c && String.eqb (Strings.TrimRight s) "") eqn:E; simpl; [done|].
  by rewrite IH, E.
Qed.

Lemma TrimLeft_head (s : string) :
  match Strings.TrimLeft s with
  | EmptyString => True
  | String c _ => Strings.isSpace c = false
  end.
Proof.
  induction s as [|c s IH]; simpl; [done|].
  destruct (Strings.isSpace c) eqn:E; [exact IH|exact E].
Qed.

Lemma TrimSpace_idem (s : string) :
  Strings.TrimSpace (Strings.TrimSpace s) = Strings.TrimSpace s.
Proof.
  unfold Strings.TrimSpace. pose proof (TrimLeft_head s) as H.
  destruct (Strings.TrimLeft s) as [|c u]; [done|].
  rewrite <- (TrimRight_idem (String c u)) at 2.
  cbn [Strings.TrimRight]. rewrite H. cbn [andb Strings.TrimLeft]. by rewrite H.
Qed.

Lemma headerMapFrom_trimmed (hs : list string) :
  forall k m, headerMapFrom k (map Strings.TrimSpace hs) m = headerMapFrom k hs m.
Proof.
  induction hs as [|h hs IH]; intros k m; simpl; [done|].
  by rewrite TrimSpace_idem, IH.
Qed.

(** A name that some header cell has, once trimmed, is in the header map,
    at the last column that has it. *)
Lemma headerMapFrom_last (hs : list string) :
  forall (k : nat) (m : gmap string nat) (s : string) (i : nat),
    headerMapFrom k hs m !! s = Some i ->
    forall j h, (i < j)%nat -> (k <= j)%nat -> hs !! (j - k)%nat = Some h ->
                Strings.TrimSpace h <> s.
Proof.
  induction hs as [|h0 hs IH]; intros k m s i Hm j h Hij Hkj Hj; [discriminate|].
  simpl in Hm. destruct (decide (j = k)) as [->|Hne].
  - rewrite Nat.sub_diag in Hj. simpl in Hj. inversion Hj; subst.
    intros Heq. apply headerMapFrom_lookup in Hm as [(h' & Hle & _)|Hm]; [lia|].
    rewrite Heq, lookup_insert_eq in Hm. inversion Hm. lia.
  - apply (IH _ _ _ _ Hm j h Hij); [lia|].
    replace (j - k)%nat with (S (j - S k)) in Hj by lia. exact Hj.
Qed.

Lemma headerMapFrom_present (hs : list string) :
  forall (k : nat) (m : gmap string nat) (s : string),
    s ∈ map Strings.TrimSpace hs ->
    exists i, headerMapFrom k hs m !! s = Some i.
Proof.
  induction hs as [|h hs IH]; intros k m s Hs; simpl in *.
  - by apply elem_of_nil in Hs.
  - destruct (decide (s ∈ map Strings.TrimSpace hs)) as [Hin|Hnotin]; [by apply IH|].
    apply elem_of_cons in Hs as [->|Hs]; [|done].
    rewrite headerMapFrom_notin by done. rewrite lookup_insert_eq. eauto.
Qed.

(** X16: white space around a header cell does not count: the column
    mapping of a header is that of the header with every cell trimmed. *)
Theorem header_cells_are_trimmed (T : RecordType) (hs : list string) :
  createFieldMap T (map Strings.TrimSpace hs) = createFieldMap T hs.
Proof.
  unfold createFieldMap. destruct (resolveFields T) as [fields|e|m]; try reflexivity.
  by rewrite headerMapFrom_trimmed.
Qed.

(** X17: of two columns whose header cells are the same once trimmed,
    the earlier one is mapped to no field: its cells are never read. *)
Theorem earlier_duplicate_column_is_dropped (T : RecordType) (hs : list string)
    (fm : gmap nat StructField) (i j : nat) (h h' : string) :
  createFieldMap T hs = Ok fm ->
  hs !! i = Some h -> hs !! j = Some h' -> (i < j)%nat ->
  Strings.TrimSpace h = Strings.TrimSpace h' ->
  fm !! i = None.
Proof.
  unfold createFieldMap. destruct (resolveFields T) as [fields|e|m]; try discriminate.
  intros H Hi Hj Hlt Heq. inversion H; subst. clear H.
  destruct (fillFieldMap fields (headerMapFrom 0 hs ∅) ∅ !! i) as [f|] eqn:E; [|done].
  exfalso. apply fillFieldMap_lookup in E as [(fi & _ & _ & Hhm)|E];
    [|by rewrite lookup_empty in E].
  pose proof (headerMapFrom_last hs 0 ∅ _ i Hhm j h' Hlt ltac:(lia)) as Hlast.
  rewrite Nat.sub_0_r in Hlast. specialize (Hlast Hj).
  apply headerMapFrom_lookup in Hhm as [(h0 & _ & Hh0 & Ht)|Hhm];
    [|by rewrite lookup_empty in Hhm].
  rewrite Nat.sub_0_r in Hh0. congruence.
Qed.

Lemma earlier_duplicate_witness :
  (match createFieldMap Person ["Name"; " Name "; "Age"] with
   | Ok fm => fm
   | _ => ∅
   end) !! 0%nat = None.
Proof.
  apply (earlier_duplicate_column_is_dropped Person ["Name"; " Name "; "Age"] _
           0 1 "Name" " Name "); try reflexivity. lia.
Defined.



(** ** Fields without an explicit ordinal *)

Lemma scanParts_bound (fieldName : string) (parts : list string) :
  forall idx mx idx' mx',
    scanParts fieldName parts idx mx = Ok (idx', mx') ->
    mx <= mx' /\
    ((idx' = idx /\
      forallb (fun part => negb (Strings.HasPrefix (Strings.TrimSpace part) "index="))
              parts = true) \/
     (idx' <= mx' /\
      forallb (fun part => negb (Strings.HasPrefix (Strings.TrimSpace part) "index="))
              parts = false)).
Proof.
  induction parts as [|part parts IH]; intros idx mx idx' mx' H; simpl in H.
  - inversion H; subst. split; [lia|by left].
  - simpl. destruct (Strings.HasPrefix (Strings.TrimSpace part) "index="); simpl.
    + destruct (Strconv.Atoi _) as [i|e|m]; try discriminate.
      destruct (IH _ _ _ _ H) as [Hmx Hidx].
      assert (i <= (if i >? mx then i else mx) /\ mx <= (if i >? mx then i else mx))
        as [Hi Hm] by (destruct (i >? mx) eqn:E; lia).
      split; [lia|]. right. split; [|done].
      destruct Hidx as [[-> _]|[Hle _]]; lia.
    + apply (IH _ _ _ _ H).
Qed.

(** After the first pass an entry either has no [index=] part and its
    position as index, or has one and an index of at most [maxIndex]. *)
Lemma collectFields_bound (fs : list StructField) :
  forall acc mx fields mx',
    collectFields fs acc mx = Ok (fields, mx') ->
    mx <= mx' /\
    ((forall fi, fi ∈ acc ->
                 index fi = Z.of_nat (Index0 (field fi)) \/
                 (noIndex (Tag (field fi)) = false /\ index fi <= mx)) ->
     forall fi, fi ∈ fields ->
                index fi = Z.of_nat (Index0 (field fi)) \/
                (noIndex (Tag (field fi)) = false /\ index fi <= mx')).
Proof.
  induction fs as [|f fs IH]; intros acc mx fields mx' H; simpl in H.
  - inversion H; subst. split; [lia|auto].
  - destruct (String.eqb (Tag f) "-"); [by apply IH|].
    destruct (scanParts _ _ _ _) as [[idx mx1]|e|m] eqn:E; try discriminate.
    apply scanParts_bound in E as [Hmx Hidx].
    destruct (IH _ _ _ _ H) as [Hmx' Hall]. split; [lia|].
    intros Hacc. apply Hall. intros fi [Hfi|Hfi]%elem_of_app.
    + destruct (Hacc fi Hfi) as [?|[? ?]]; [by left|right; split; [done|lia]].
    + apply list_elem_of_singleton in Hfi as ->. simpl.
      destruct Hidx as [[-> _]|[Hle Hno]]; [by left|right]. split; [exact Hno|lia].
Qed.

(** The second pass: the entries it leaves alone have an [index=] part and
    an index of at most [mx]; those it renumbers get increasing indexes
    from [n] on. *)
Lemma assignIndexes_split (mx : Z) (l : list fieldInfo) :
  forall n,
    mx < n ->
    (forall fi, fi ∈ l ->
                index fi = Z.of_nat (Index0 (field fi)) \/
                (noIndex (Tag (field fi)) = false /\ index fi <= mx)) ->
    Forall (fun fi => noIndex (Tag (field fi)) = false /\ index fi <= mx)
           (List.filter (fun fi => negb (mx <? index fi)) (assignIndexes l n)) /\
    StronglySorted (fun a b => index a < index b)
                   (List.filter (fun fi => mx <? index fi) (assignIndexes l n)) /\
    Forall (fun fi => n <= index fi)
           (List.filter (fun fi => mx <? index fi) (assignIndexes l n)).
Proof.
  induction l as [|fi l IH]; intros n Hn Hq; simpl.
  - repeat split; constructor.
  - assert (forall fj, fj ∈ l ->
              index fj = Z.of_nat (Index0 (field fj)) \/
              (noIndex (Tag (field fj)) = false /\ index fj <= mx)) as Hq'
        by (intros fj Hj; apply Hq; by right).
    destruct (index fi =? Z.of_nat (Index0 (field fi))) eqn:E; simpl.
    + destruct (IH (n + 1) ltac:(lia) Hq') as (Hlow & Hsorted & Hge).
      assert ((mx <? n) = true) as -> by lia. simpl.
      split; [exact Hlow|]. split.
      * constructor; [exact Hsorted|].
        eapply Forall_impl; [exact Hge|]. simpl. intros; lia.
      * constructor; [simpl; lia|]. eapply Forall_impl; [exact Hge|]. simpl. intros; lia.
    + destruct (IH n Hn Hq') as (Hlow & Hsorted & Hge).
      destruct (Hq fi ltac:(by left)) as [Heq|[Hno Hle]]; [lia|].
      assert ((mx <? index fi) = false) as -> by lia. simpl.
      split; [by constructor|]. done.
Qed.

Lemma insertByIndex_app (fi : fieldInfo) (K M : list fieldInfo) :
  (forall b, b ∈ M -> index fi < index b) ->
  insertByIndex fi (K ++ M) = (insertByIndex fi K ++ M)%list.
Proof.
  intros HM. induction K as [|a K IH]; simpl.
  - destruct M as [|b M]; [done|]. simpl.
    specialize (HM b ltac:(by left)). by assert ((index fi <? index b) = true) as -> by lia.
  - destruct (index fi <? index a); [done|]. by rewrite IH.
Qed.

(** The sort on a list whose entries above [mx] already ascend: the
    entries up to [mx] are sorted, the others follow as they stand. *)
Lemma sortSlice_split (mx : Z) (l : list fieldInfo) :
  StronglySorted (fun a b => index a < index b)
                 (List.filter (fun fi => mx <? index fi) l) ->
  sortSlice l
  = (sortSlice (List.filter (fun fi => negb (mx <? index fi)) l)
     ++ List.filter (fun fi => mx <? index fi) l)%list.
Proof.
  unfold sortSlice.
  assert (forall K M,
            (forall a, a ∈ K -> index a <= mx) ->
            (forall b, b ∈ M -> mx < index b) ->
            StronglySorted (fun a b => index a < index b)
                           (M ++ List.filter (fun fi => mx <? index fi) l) ->
            fold_left (fun sorted fi => insertByIndex fi sorted) l (K ++ M)%list
            = (fold_left (fun sorted fi => insertByIndex fi sorted)
                         (List.filter (fun fi => negb (mx <? index fi)) l) K
               ++ (M ++ List.filter (fun fi => mx <? index fi) l))%list) as H.
  { induction l as [|x l IH]; intros K M HK HM Hs; simpl.
    - by rewrite app_nil_r.
    - simpl in Hs. destruct (mx <? index x) eqn:E; simpl.
      + rewrite insertByIndex_last.
        * rewrite <- app_assoc. rewrite (IH K (M ++ [x])%list); [|done| |].
          -- by rewrite <- app_assoc.
          -- intros b [Hb|Hb]%elem_of_app; [by apply HM|].
             apply list_elem_of_singleton in Hb as ->. lia.
          -- by rewrite <- app_assoc.
        * intros fj [Hj|Hj]%elem_of_app.
          -- apply HK in Hj. lia.
          -- assert (index fj < index x); [|lia].
             clear -Hs Hj. induction M as [|b M IH]; [by apply elem_of_nil in Hj|].
             simpl in Hs. apply StronglySorted_inv in Hs as [Hs Hb].
             apply elem_of_cons in Hj as [->|Hj]; [|by apply IH].
             rewrite Forall_forall in Hb. apply Hb.
             apply elem_of_app. right. by left.
      + rewrite insertByIndex_app by (intros b Hb; apply HM in Hb; lia).
        apply IH; [|done|done].
        intros a Ha. rewrite insertByIndex_Permutation in Ha.
        apply elem_of_cons in Ha as [->|Ha]; [lia|by apply HK]. }
  intros Hs. apply (H [] []); [|  |done]; intros a Ha; by apply elem_of_nil in Ha.
Qed.

Lemma filter_fmap_sublist {A B : Type} (g : A -> B) (p : A -> bool) (l : list A) :
  map g (List.filter p l) `sublist_of` map g l.
Proof.
  induction l as [|x l IH]; simpl; [constructor|].
  destruct (p x); simpl; [by apply sublist_skip|by apply sublist_cons].
Qed.



(** ** The built-in codec *)

Lemma intBits_cases (k : Kind) :
  intBits k = 8 \/ intBits k = 16 \/ intBits k = 32 \/ intBits k = 64.
Proof. destruct k; simpl; auto. Qed.

Lemma wrapInt_range (bits z : Z) :
  0 < bits ->
  - 2 ^ (bits - 1) <= wrapInt bits z < 2 ^ (bits - 1) /\
  (wrapInt bits z - z) mod 2 ^ bits = 0.
Proof.
  intros Hb. unfold wrapInt.
  assert (2 ^ bits = 2 * 2 ^ (bits - 1)) as Hp.
  { rewrite <- Z.pow_succ_r by lia. f_equal. lia. }
  assert (0 < 2 ^ (bits - 1)) as Hpos by (apply Z.pow_pos_nonneg; lia).
  pose proof (Z.mod_pos_bound (z + 2 ^ (bits - 1)) (2 ^ bits) ltac:(lia)) as Hm.
  split; [lia|].
  pose proof (Z.div_mod (z + 2 ^ (bits - 1)) (2 ^ bits) ltac:(lia)) as Hdm.
  replace ((z + 2 ^ (bits - 1)) mod 2 ^ bits - 2 ^ (bits - 1) - z)
    with (- ((z + 2 ^ (bits - 1)) / 2 ^ bits) * 2 ^ bits) by lia.
  apply Z.mod_mul. lia.
Qed.

(** X20: the built-in rules of the two codecs are inverse to each other
    on strings, booleans and signed integers.  For a type without hooks
    and a value of its kind (an integer within the range of the kind),
    the encoder returns a text, and the decoder, on that text and
    whatever the field held, stores the value. *)
Theorem builtin_codec_round_trip (lib : Externals) (t : GoType) (v old : Value)
    (ro : bool) :
  UnmarshalCSV t = None -> MarshalCSV t = None -> builtinValue (TKind t) v ->
  exists s,
    getFieldStringValue lib (mkRValue t v false ro) = Ok s /\
    setFieldValue lib (mkRValue t old true false) s = Ok v.
Proof.
  intros Hu Hm Hv.
  unfold getFieldStringValue, setFieldValue, implementsMarshaler, ptrImplementsMarshaler,
    implementsUnmarshaler, ptrImplementsUnmarshaler, isTimeType, store, CanSet,
    CanInterface, CanAddr.
  cbn [rtype rval flagAddr flagRO]. rewrite Hu, Hm, !andb_false_r.
  cbn [andb negb].
  assert (forall z, - 2 ^ (intBits (TKind t) - 1) <= z < 2 ^ (intBits (TKind t) - 1) ->
            match Strconv.ParseInt (Strconv.FormatInt z) with
            | Ok intValue => Ok (VInt (wrapInt (intBits (TKind t)) intValue))
            | Err e => Err e
            | Panic m => Panic m
            end = Ok (VInt z)) as Hint.
  { intros z Hz.
    assert (0 < intBits (TKind t) /\ - 2 ^ 63 <= z < 2 ^ 63) as [Hb H64].
    { destruct (intBits_cases (TKind t)) as [H|[H|[H|H]]]; rewrite H in Hz |- *;
        simpl in Hz; lia. }
    rewrite ParseInt_FormatInt by exact H64. by rewrite wrapInt_small. }
  destruct (TKind t) eqn:Ek, v as [b|z|z|b|s|tm|l|]; cbn [builtinValue] in Hv;
    try contradiction; eexists; (split; [reflexivity|]); cbn [asInt asBool asString].
  - by destruct b.
  - by apply Hint.
  - by apply Hint.
  - by apply Hint.
  - by apply Hint.
  - by apply Hint.
  - reflexivity.
Qed.

Lemma builtin_codec_witness :
  exists s,
    getFieldStringValue sampleLib (mkRValue tInt8 (VInt (-128)) false false) = Ok s /\
    setFieldValue sampleLib (mkRValue tInt8 (VInt 5) true false) s = Ok (VInt (-128)).
Proof.
  apply (builtin_codec_round_trip sampleLib tInt8 (VInt (-128)) (VInt 5) false);
    try reflexivity.
  simpl. lia.
Defined.

(** X21: the decoder does not check the range of a narrow integer.  On a
    settable field of a signed integer kind without hooks, every text
    that [strconv.ParseInt] reads as a 64-bit number [z] is accepted;
    what is stored is [z] reduced to the width of the kind: a number of
    the kind's range that differs from [z] by a multiple of 2^bits, and
    that is [z] only when [z] is in the range. *)
Theorem narrow_integers_wrap_around (lib : Externals) (fv : RValue) (value : string)
    (z : Z) :
  CanSet fv = true -> UnmarshalCSV (rtype fv) = None ->
  isSignedKind (TKind (rtype fv)) = true ->
  Strconv.ParseInt value = Ok z ->
  exists w,
    setFieldValue lib fv value = Ok (VInt w) /\
    - 2 ^ (intBits (TKind (rtype fv)) - 1) <= w < 2 ^ (intBits (TKind (rtype fv)) - 1) /\
    (w - z) mod 2 ^ intBits (TKind (rtype fv)) = 0 /\
    (w = z <->
     - 2 ^ (intBits (TKind (rtype fv)) - 1) <= z < 2 ^ (intBits (TKind (rtype fv)) - 1)).
Proof.
  intros Hset Hu Hk Hparse.
  exists (wrapInt (intBits (TKind (rtype fv))) z).
  assert (0 < intBits (TKind (rtype fv))) as Hb
      by (destruct (intBits_cases (TKind (rtype fv))) as [H|[H|[H|H]]]; lia).
  destruct (wrapInt_range (intBits (TKind (rtype fv))) z Hb) as [Hr Hm].
  split; [|split; [exact Hr|split; [exact Hm|]]].
  - unfold setFieldValue, implementsUnmarshaler, ptrImplementsUnmarshaler, isTimeType,
      store.
    rewrite Hu, Hset, !andb_false_r.
    destruct (TKind (rtype fv)); try discriminate; by rewrite Hparse.
  - split; [intros <-; exact Hr|intros Hz; by apply wrapInt_small].
Qed.

Lemma narrow_integers_witness :
  exists w,
    setFieldValue sampleLib (mkRValue tInt8 (VInt 0) true false) "300" = Ok (VInt w) /\
    - 2 ^ (8 - 1) <= w < 2 ^ (8 - 1) /\
    (w - 300) mod 2 ^ 8 = 0 /\
    (w = 300 <-> - 2 ^ (8 - 1) <= 300 < 2 ^ (8 - 1)).
Proof.
  apply (narrow_integers_wrap_around sampleLib (mkRValue tInt8 (VInt 0) true false)
           "300" 300); reflexivity.
Defined.

(** "300" read into an [int8] field is 44. *)
Example int8_300 :
  setFieldValue sampleLib (mkRValue tInt8 (VInt 0) true false) "300" = Ok (VInt 44).
Proof. vm_compute. reflexivity. Qed.

(** ** Fields that are not exported *)

Section Unexported.

Context (lib : Externals) (T : RecordType) (fm : gmap nat StructField).

Hypothesis Hnames : uniqueNames T.

Hypothesis Hrange : forall i f, fm !! i = Some f -> f ∈ structFields T.

(** The loop leaves a field as it is when every column mapped to it finds
    it unexported. *)
Lemma decodeCells_frame_ro (record : list string) :
  forall (idx : nat) (t t' : list Value) (p : nat),
    decodeCells lib T fm idx record t = Ok t' ->
    (forall j f, (j < length record)%nat -> fm !! (idx + j)%nat = Some f ->
                 Index0 f = p -> PkgPath f <> "") ->
    t' !! p = t !! p.
Proof.
  induction record as [|value rest IH]; intros idx t t' p H Hp; simpl in H.
  - by inversion H.
  - assert (forall t1, decodeCells lib T fm (S idx) rest t1 = Ok t' ->
                       t' !! p = t1 !! p) as Hnext.
    { intros t1 H1. apply (IH _ _ _ _ H1). intros j f Hj Hf.
      apply (Hp (S j) f); [simpl; lia|].
      by replace (idx + S j)%nat with (S idx + j)%nat by lia. }
    destruct (fm !! idx) as [f|] eqn:Ef; [|by apply Hnext].
    rewrite (FieldByName_own T t true f Hnames (Hrange _ _ Ef)) in H.
    unfold CanSet in H. cbn [flagAddr flagRO] in H.
    destruct (String.eqb (PkgPath f) "") eqn:Ep; simpl in H; [|by apply Hnext].
    apply String.eqb_eq in Ep.
    destruct (setFieldValue _ _ _) as [v|e|m]; try discriminate.
    rewrite (Hnext _ H). apply list_lookup_insert_ne. intros Heq.
    apply (Hp 0%nat f); [simpl; lia|by rewrite Nat.add_0_r|done|done].
Qed.

(** The loop reads only the cells of the columns mapped to exported
    fields. *)
Lemma decodeCells_unread (record record' : list string) :
  forall (idx : nat) (t : list Value),
    length record = length record' ->
    (forall j f, fm !! (idx + j)%nat = Some f -> PkgPath f = "" ->
                 record !! j = record' !! j) ->
    decodeCells lib T fm idx record t = decodeCells lib T fm idx record' t.
Proof.
  revert record'. induction record as [|value rest IH];
    intros [|value' rest'] idx t Hlen Hsame; try discriminate; [done|].
  simpl in Hlen. simpl.
  assert (forall t1, decodeCells lib T fm (S idx) rest t1
                     = decodeCells lib T fm (S idx) rest' t1) as Hnext.
  { intros t1. apply IH; [lia|]. intros j f Hj.
    apply (Hsame (S j)). by replace (idx + S j)%nat with (S idx + j)%nat by lia. }
  destruct (fm !! idx) as [f|] eqn:Ef; [|apply Hnext].
  rewrite (FieldByName_own T t true f Hnames (Hrange _ _ Ef)).
  unfold CanSet. cbn [flagAddr flagRO].
  destruct (String.eqb (PkgPath f) "") eqn:Ep; simpl; [|apply Hnext].
  apply String.eqb_eq in Ep.
  assert (value = value') as <-.
  { specialize (Hsame 0%nat f). rewrite Nat.add_0_r in Hsame.
    specialize (Hsame Ef Ep). simpl in Hsame. congruence. }
  destruct (setFieldValue _ _ _); auto.
Qed.

End Unexported.

(** X22: the reader never sets a field that is not exported, and never
    reads the cells of its column: in every decoded record the field has
    its zero value, and rows that differ only in columns mapped to such
    fields decode alike, errors included. *)
Theorem unexported_fields_are_never_set (lib : Externals) (T : RecordType)
    (hs : list string) (fm : gmap nat StructField) (f : StructField) :
  uniqueNames T ->
  createFieldMap T hs = Ok fm ->
  f ∈ structFields T -> PkgPath f <> "" ->
  (forall record t,
      decodeCells lib T fm 0 record (zeroRecord T) = Ok t ->
      t !! Index0 f = Some (zeroValue (Typ f))) /\
  (forall record record' t,
      length record = length record' ->
      (forall i g, fm !! i = Some g -> PkgPath g = "" -> record !! i = record' !! i) ->
      decodeCells lib T fm 0 record t = decodeCells lib T fm 0 record' t).
Proof.
  intros Hnames Hfm Hf Hro.
  pose proof (createFieldMap_range _ _ _ Hfm) as Hrange.
  split.
  - intros record t Hdec.
    rewrite (decodeCells_frame_ro lib T fm Hnames Hrange _ _ _ _ _ Hdec).
    + apply list_elem_of_lookup in Hf as [p Hp].
      rewrite (structFields_Index0 _ _ _ Hp). by apply zeroRecord_lookup.
    + intros j g _ Hg Heq. simpl in Hg.
      assert (g = f) as -> by (apply (structFields_inj T); eauto). done.
  - intros record record' t Hlen Hsame.
    apply (decodeCells_unread lib T fm Hnames Hrange); [done|].
    intros j g Hg. by apply Hsame.
Qed.

Lemma unexported_fields_witness :
  (forall record t,
      decodeCells sampleLib Secret
        (match createFieldMap Secret ["age"] with Ok fm => fm | _ => ∅ end) 0 record
        (zeroRecord Secret) = Ok t ->
      t !! 0%nat = Some (VInt 0)) /\
  (forall record record' t,
      length record = length record' ->
      (forall i g,
          (match createFieldMap Secret ["age"] with Ok fm => fm | _ => ∅ end) !! i = Some g ->
          PkgPath g = "" -> record !! i = record' !! i) ->
      decodeCells sampleLib Secret
        (match createFieldMap Secret ["age"] with Ok fm => fm | _ => ∅ end) 0 record t
      = decodeCells sampleLib Secret
          (match createFieldMap Secret ["age"] with Ok fm => fm | _ => ∅ end) 0 record' t).
Proof.
  apply (unexported_fields_are_never_set sampleLib Secret ["age"] _
           (mkField "age" "main" tInt "age" 0)).
  - apply (bool_decide_unpack _). vm_compute. exact I.
  - reflexivity.
  - left.
  - discriminate.
Defined.

(** ** Leaving a traversal and coming back *)

Lemma All_taking (lib : Externals) (T : RecordType) (n : nat) (fuel : nat) :
  forall (rb rb' : Reader) (acc got : list (list Value)) (o : outcome),
    (length (Csv.input (reader rb)) < fuel)%nat ->
    (length acc < n)%nat ->
    All lib T rb (taking n) acc = (rb', got, o) ->
    length got = n ->
    exists mid,
      got = (acc ++ mid)%list /\
      Collect lib T rb = let '(rest, o') := Collect lib T rb' in ((mid ++ rest)%list, o').
Proof.
  induction fuel as [|fuel IH]; intros rb rb' acc got o Hfuel Hacc; [lia|].
  rewrite All_unfold, Collect_unfold.
  destruct (nextRow lib T rb) as [[[] rb1]|e|m] eqn:E.
  - apply nextRow_true_lt in E. unfold taking at 1.
    destruct (length (acc ++ [current rb1]) <? n)%nat eqn:El.
    + intros H Hgot. apply Nat.ltb_lt in El.
      destruct (IH rb1 rb' (acc ++ [current rb1])%list got o ltac:(lia) El H Hgot)
        as (mid & -> & ->).
      exists (current rb1 :: mid). split; [by rewrite <- app_assoc|].
      by destruct (Collect lib T rb').
    + intros H Hgot. inversion H; subst.
      exists [current rb']. split; [done|]. by destruct (Collect lib T rb').
  - intros H Hgot. destruct (err rb1) as [[]|]; inversion H; subst; lia.
  - intros H Hgot. inversion H; subst; lia.
  - intros H Hgot. inversion H; subst; lia.
Qed.

(** X23: a traversal that the consumer leaves can be taken up again
    without loss.  When a loop over the sequence of [All] breaks after
    [n] records, the records that a later traversal of the same reader
    yields are those that follow: the [n] records and the later ones
    together are what one uninterrupted traversal yields, and it ends as
    the later traversal does. *)
Theorem traversal_can_be_resumed (lib : Externals) (T : RecordType) (n : nat)
    (rb rb' : Reader) (got : list (list Value)) (o : outcome) :
  (0 < n)%nat ->
  All lib T rb (taking n) [] = (rb', got, o) ->
  length got = n ->
  Collect lib T rb = let '(rest, o') := Collect lib T rb' in ((got ++ rest)%list, o').
Proof.
  intros Hn H Hgot.
  destruct (All_taking lib T n (S (length (Csv.input (reader rb)))) rb rb' [] got o
              ltac:(lia) Hn H Hgot) as (mid & -> & Hc).
  exact Hc.
Qed.

Lemma traversal_can_be_resumed_witness :
  Collect sampleLib Person (readerOn Person threePeople)
  = let '(rest, o') :=
      Collect sampleLib Person
        (All sampleLib Person (readerOn Person threePeople) (taking 2) []).1.1 in
    (([alice; bob] ++ rest)%list, o').
Proof.
  apply (traversal_can_be_resumed sampleLib Person 2 (readerOn Person threePeople)
           _ [alice; bob] Returned).
  - lia.
  - vm_compute. reflexivity.
  - reflexivity.
Defined.

(** ** The order of the columns *)

Lemma fillFieldMap_named (fields : list fieldInfo) (hm : gmap string nat)
    (i : nat) (n : string) :
  hm !! n = Some i ->
  (forall n', hm !! n' = Some i -> n' = n) ->
  forall m,
    fillFieldMap fields hm m !! i
    = match fieldNamed fields n with
      | Some f => Some f
      | None => m !! i
      end.
Proof.
  intros Hn Hinj. induction fields as [|fi fields IH]; intros m; simpl; [done|].
  rewrite IH. destruct (fieldNamed fields n) as [f|]; [done|].
  destruct (String.eqb (name fi) n) eqn:E.
  - apply String.eqb_eq in E. rewrite E, Hn. by rewrite lookup_insert_eq.
  - apply String.eqb_neq in E.
    destruct (hm !! name fi) as [idx|] eqn:Ehm; [|done].
    apply lookup_insert_ne. intros ->. by apply E, Hinj.
Qed.

(** Under a header without two cells of one name, each column feeds the
    field of its name. *)
Lemma createFieldMap_named (T : RecordType) (fields : list fieldInfo)
    (hs : list string) (fm : gmap nat StructField) (i : nat) (h : string) :
  resolveFields T = Ok fields ->
  NoDup (map Strings.TrimSpace hs) ->
  createFieldMap T hs = Ok fm ->
  hs !! i = Some h ->
  fm !! i = fieldNamed fields (Strings.TrimSpace h).
Proof.
  intros Hres Hnd Hfm Hi. unfold createFieldMap in Hfm. rewrite Hres in Hfm.
  inversion Hfm; subst. clear Hfm.
  rewrite (fillFieldMap_named fields _ i (Strings.TrimSpace h)).
  - rewrite lookup_empty. by destruct (fieldNamed fields _).
  - by rewrite (headerMapFrom_NoDup hs 0 ∅ i h Hnd Hi).
  - intros n' Hn'. apply headerMapFrom_lookup in Hn' as [(h' & _ & Hh' & Ht)|Hm];
      [|by rewrite lookup_empty in Hm].
    rewrite Nat.sub_0_r in Hh'. congruence.
Qed.

Lemma zeroRecord_field (T : RecordType) (f : StructField) :
  f ∈ structFields T ->
  zeroRecord T !! Index0 f = Some (zeroValue (Typ f)) /\
  (Index0 f < length (zeroRecord T))%nat.
Proof.
  intros [p Hp]%list_elem_of_lookup. rewrite (structFields_Index0 _ _ _ Hp).
  pose proof (zeroRecord_lookup T p f Hp) as Hz. split; [done|].
  by eapply lookup_lt_Some.
Qed.

Section Success.

Context (lib : Externals) (T : RecordType) (fm : gmap nat StructField).

Hypothesis Hnames : uniqueNames T.

Hypothesis Hrange : forall i f, fm !! i = Some f -> f ∈ structFields T.

Hypothesis Hinj : forall i j f g,
    fm !! i = Some f -> fm !! j = Some g -> i <> j -> Index0 f <> Index0 g.

(** The loop succeeds when each cell it has to decode can be decoded into
    the field as it was at the start. *)
Lemma decodeCells_succeeds (t0 : list Value) (record : list string) :
  forall (idx : nat) (t : list Value),
    (forall j f cell,
        record !! j = Some cell -> fm !! (idx + j)%nat = Some f -> PkgPath f = "" ->
        exists v,
          setFieldValue lib (mkRValue (Typ f) (default VNil (t0 !! Index0 f)) true false)
                        cell = Ok v) ->
    (forall j f, (j < length record)%nat -> fm !! (idx + j)%nat = Some f ->
                 t !! Index0 f = t0 !! Index0 f) ->
    exists t', decodeCells lib T fm idx record t = Ok t'.
Proof.
  induction record as [|value rest IH]; intros idx t Hdec Hsame; simpl; [eauto|].
  assert (forall t1,
             (forall j f, (j < length rest)%nat -> fm !! (S idx + j)%nat = Some f ->
                          t1 !! Index0 f = t0 !! Index0 f) ->
             exists t', decodeCells lib T fm (S idx) rest t1 = Ok t') as Hnext.
  { intros t1 H1. apply IH; [|exact H1].
    intros j f cell Hj Hf. apply (Hdec (S j) f cell); [done|].
    by replace (idx + S j)%nat with (S idx + j)%nat by lia. }
  assert (forall j f, (j < length rest)%nat -> fm !! (S idx + j)%nat = Some f ->
                      t !! Index0 f = t0 !! Index0 f) as Hrest.
  { intros j f Hj Hf. apply (Hsame (S j) f); [simpl; lia|].
    by replace (idx + S j)%nat with (S idx + j)%nat by lia. }
  destruct (fm !! idx) as [f|] eqn:Ef; [|by apply Hnext].
  rewrite (FieldByName_own T t true f Hnames (Hrange _ _ Ef)).
  unfold CanSet. cbn [flagAddr flagRO].
  destruct (String.eqb (PkgPath f) "") eqn:Ep; simpl; [|by apply Hnext].
  apply String.eqb_eq in Ep.
  rewrite (Hsame 0%nat f) by (simpl; try lia; by rewrite Nat.add_0_r).
  destruct (Hdec 0%nat f value eq_refl ltac:(by rewrite Nat.add_0_r) Ep) as [v ->].
  apply Hnext. intros j g Hj Hg.
  rewrite list_lookup_insert_ne; [by apply (Hrest j)|].
  apply (Hinj idx (S idx + j)%nat f g Ef Hg). lia.
Qed.

End Success.

Lemma feeds_dec (fields : list fieldInfo) (cols : list (string * string)) (p : nat) :
  (exists col f, col ∈ cols /\ feeds fields col f /\ Index0 f = p) \/
  (forall col f, col ∈ cols -> feeds fields col f -> Index0 f <> p).
Proof.
  induction cols as [|col cols IH].
  - right. intros col f Hin. by apply elem_of_nil in Hin.
  - destruct IH as [(c & f & Hc & Hf & Hp)|IH].
    { left. exists c, f. split; [by right|done]. }
    destruct (fieldNamed fields (Strings.TrimSpace col.1)) as [f|] eqn:E.
    + destruct (decide (PkgPath f = "")) as [Hexp|Hexp];
        [destruct (decide (Index0 f = p)) as [Hp|Hp]|].
      * left. exists col, f. split; [by left|]. done.
      * right. intros c g [->|Hc]%elem_of_cons [Hg Hge]; [|by apply (IH c g)].
        congruence.
      * right. intros c g [->|Hc]%elem_of_cons [Hg Hge]; [|by apply (IH c g)].
        congruence.
    + right. intros c g [->|Hc]%elem_of_cons [Hg Hge]; [|by apply (IH c g)].
      congruence.
Qed.

Lemma decodedFrom_unique (lib : Externals) (T : RecordType) (fields : list fieldInfo)
    (cols : list (string * string)) (t t' : list Value) :
  decodedFrom lib T fields cols t -> decodedFrom lib T fields cols t' -> t = t'.
Proof.
  intros (Hl & Hhit & Hfr) (Hl' & Hhit' & Hfr').
  apply list_eq. intros p.
  destruct (feeds_dec fields cols p) as [(col & f & Hc & Hf & <-)|Hno].
  - destruct (Hhit col f Hc Hf) as (v & Hv & ->).
    destruct (Hhit' col f Hc Hf) as (v' & Hv' & ->). congruence.
  - by rewrite Hfr, Hfr'.
Qed.

Section Columns.

Context (lib : Externals) (T : RecordType) (fields : list fieldInfo).

Context (cols : list (string * string)) (fm : gmap nat StructField).

Hypothesis Hnames : uniqueNames T.

Hypothesis Hres : resolveFields T = Ok fields.

Hypothesis Hnd : NoDup (map Strings.TrimSpace (map fst cols)).

Hypothesis Hfm : createFieldMap T (map fst cols) = Ok fm.

Lemma column_lookup (i : nat) (f : StructField) :
  fm !! i = Some f ->
  exists col, cols !! i = Some col /\
              fieldNamed fields (Strings.TrimSpace col.1) = Some f.
Proof.
  intros Hi. pose proof (createFieldMap_bound _ _ _ _ _ Hfm Hi) as Hb.
  rewrite length_map in Hb.
  destruct (lookup_lt_is_Some_2 cols i Hb) as [col Hcol].
  exists col. split; [done|].
  rewrite <- (createFieldMap_named T fields (map fst cols) fm i col.1 Hres Hnd Hfm);
    [done|].
  by rewrite list_lookup_fmap, Hcol.
Qed.

Lemma column_injective (i j : nat) (f g : StructField) :
  fm !! i = Some f -> fm !! j = Some g -> i <> j -> Index0 f <> Index0 g.
Proof.
  intros Hi Hj Hne Heq. apply Hne.
  assert (f = g) as ->.
  { apply (structFields_inj T); [| |done]; eapply createFieldMap_range; eauto. }
  eapply createFieldMap_inj; eauto.
Qed.

(** What a decoded row holds. *)
Lemma decodeCells_decodedFrom (t : list Value) :
  decodeCells lib T fm 0 (map snd cols) (zeroRecord T) = Ok t ->
  decodedFrom lib T fields cols t.
Proof.
  intros Hdec. pose proof (createFieldMap_range _ _ _ Hfm) as Hrange.
  destruct (decodeCells_frame lib T fm Hnames Hrange _ _ _ _ Hdec) as [Hlen _].
  split; [|split].
  - rewrite Hlen. unfold zeroRecord. by rewrite length_map.
  - intros col f [i Hi]%list_elem_of_lookup [Hf Hexp].
    assert (fm !! i = Some f) as Hfi.
    { rewrite (createFieldMap_named T fields (map fst cols) fm i col.1 Hres Hnd Hfm);
        [done|]. by rewrite list_lookup_fmap, Hi. }
    destruct (zeroRecord_field T f (Hrange _ _ Hfi)) as [Hz Hlt].
    destruct (decodeCells_hit lib T fm Hnames Hrange (map snd cols) 0 (zeroRecord T) t
                i f col.2 Hdec Hfi ltac:(by rewrite list_lookup_fmap, Hi) Hexp Hlt)
      as (v & Hv & Ht).
    { intros j g Hne _ Hg. simpl in Hg. by apply (column_injective j i g f). }
    exists v. split; [|done].
    unfold decodeField. rewrite Hexp. simpl. by rewrite Hz in Hv.
  - intros p Hp.
    apply (decodeCells_frame_ro lib T fm Hnames Hrange _ _ _ _ _ Hdec).
    intros j g _ Hg Heq Hexp. simpl in Hg.
    destruct (column_lookup j g Hg) as (col & Hcol & Hnamed).
    apply (Hp col g); [by eapply list_elem_of_lookup_2|by split|done].
Qed.

(** A row decodes as soon as the cells of the columns that feed a field
    can be decoded. *)
Lemma decodeCells_total :
  (forall col f, col ∈ cols -> feeds fields col f ->
                 exists v, decodeField lib f col.2 = Ok v) ->
  exists t, decodeCells lib T fm 0 (map snd cols) (zeroRecord T) = Ok t.
Proof.
  intros Hall. pose proof (createFieldMap_range _ _ _ Hfm) as Hrange.
  apply (decodeCells_succeeds lib T fm Hnames Hrange column_injective (zeroRecord T));
    [|done].
  intros j f cell Hj Hf Hexp. simpl in Hf.
  destruct (column_lookup j f Hf) as (col & Hcol & Hnamed).
  rewrite list_lookup_fmap, Hcol in Hj. inversion Hj; subst.
  destruct (Hall col f ltac:(by eapply list_elem_of_lookup_2) ltac:(by split)) as [v Hv].
  exists v. unfold decodeField in Hv. rewrite Hexp in Hv. simpl in Hv.
  destruct (zeroRecord_field T f (Hrange _ _ Hf)) as [-> _]. exact Hv.
Qed.

End Columns.

Lemma decodedFrom_Permutation (lib : Externals) (T : RecordType)
    (fields : list fieldInfo) (cols cols' : list (string * string)) (t : list Value) :
  cols ≡ₚ cols' -> decodedFrom lib T fields cols t -> decodedFrom lib T fields cols' t.
Proof.
  intros Hp (Hl & Hhit & Hfr). split; [done|]. split.
  - intros col f Hc. apply Hhit. by rewrite Hp.
  - intros p Hno. apply Hfr. intros col f Hc. apply Hno. by rewrite <- Hp.
Qed.

Lemma decodeCells_permuted (lib : Externals) (T : RecordType)
    (cols cols' : list (string * string)) (fm fm' : gmap nat StructField)
    (t : list Value) :
  uniqueNames T ->
  cols ≡ₚ cols' ->
  NoDup (map Strings.TrimSpace (map fst cols)) ->
  createFieldMap T (map fst cols) = Ok fm ->
  createFieldMap T (map fst cols') = Ok fm' ->
  decodeCells lib T fm 0 (map snd cols) (zeroRecord T) = Ok t ->
  decodeCells lib T fm' 0 (map snd cols') (zeroRecord T) = Ok t.
Proof.
  intros Hnames Hp Hnd Hfm Hfm' Hdec.
  assert (exists fields, resolveFields T = Ok fields) as [fields Hres].
  { unfold createFieldMap in Hfm. destruct (resolveFields T); try discriminate. eauto. }
  assert (NoDup (map Strings.TrimSpace (map fst cols'))) as Hnd'.
  { assert (map Strings.TrimSpace (map fst cols) ≡ₚ map Strings.TrimSpace (map fst cols'))
      as Hp2 by (by do 2 apply Permutation_map).
    by rewrite <- Hp2. }
  pose proof (decodeCells_decodedFrom lib T fields cols fm Hnames Hres Hnd Hfm t Hdec)
    as Hfrom.
  apply (decodedFrom_Permutation lib T fields cols cols' t Hp) in Hfrom.
  destruct (decodeCells_total lib T fields cols' fm' Hnames Hres Hnd' Hfm') as [t' Ht'].
  { intros col f Hc Hf. destruct Hfrom as (_ & Hhit & _).
    destruct (Hhit col f Hc Hf) as (v & Hv & _). eauto. }
  rewrite Ht'. f_equal.
  apply (decodedFrom_unique lib T fields cols'); [|done].
  by apply (decodeCells_decodedFrom lib T fields cols' fm' Hnames Hres Hnd' Hfm').
Qed.



(** The row of Alice with the age in the first column. *)
Example age_first :
  decodeCells sampleLib Person
    (match createFieldMap Person (map fst aliceColumnsAgeFirst) with
     | Ok fm => fm
     | _ => ∅
     end)
    0 (map snd aliceColumnsAgeFirst) (zeroRecord Person) = Ok alice.
Proof. vm_compute. reflexivity. Qed.



(** ** Hooks the writer does not reach *)

Lemma find_withoutPointerMarshalers (nm : string) (ds : list FieldDecl) :
  forall k,
    find (fun f => String.eqb (Name f) nm)
         (fieldsFrom k (map (fun d => mkDecl (declName d) (declPkgPath d)
                                             (withoutPointerMarshaler (declType d))
                                             (declTag d)) ds))
    = match find (fun f => String.eqb (Name f) nm) (fieldsFrom k ds) with
      | Some f =>
          Some (mkField (Name f) (PkgPath f) (withoutPointerMarshaler (Typ f)) (Tag f)
                        (Index0 f))
      | None => None
      end.
Proof.
  induction ds as [|d ds IH]; intros k; simpl; [done|].
  destruct (String.eqb (declName d) nm); [done|apply IH].
Qed.

Lemma getFieldStringValue_withoutPointerMarshaler (lib : Externals) (t : GoType)
    (v : Value) (ro : bool) :
  getFieldStringValue lib (mkRValue (withoutPointerMarshaler t) v false ro)
  = getFieldStringValue lib (mkRValue t v false ro).
Proof.
  unfold withoutPointerMarshaler.
  destruct (MarshalCSV t) as [[g|g]|] eqn:E; try reflexivity.
  symmetry. by apply (getFieldStringValue_pointer_hook lib (mkRValue t v false ro) g).
Qed.

Lemma encodeFields_withoutPointerMarshalers (lib : Externals) (T : RecordType)
    (record : list Value) (fs : list fieldInfo) :
  encodeFields lib (withoutPointerMarshalers T) record fs = encodeFields lib T record fs.
Proof.
  induction fs as [|fi fs IH]; simpl; [done|]. rewrite IH.
  unfold FieldByName, structFields. cbn [withoutPointerMarshalers decls].
  rewrite find_withoutPointerMarshalers.
  destruct (find _ (fieldsFrom 0 (decls T))) as [f|]; [|done].
  cbn [Index0 Typ PkgPath]. by rewrite getFieldStringValue_withoutPointerMarshaler.
Qed.

(** X26: the writer never calls a [MarshalCSV] declared on a pointer
    receiver.  [Write] takes its record by value, so no field of it is
    addressable: records are written exactly as if the types with such a
    method did not have it. *)
Theorem pointer_marshalers_are_never_called (lib : Externals) (T : RecordType)
    (rw : Writer) (records : list (list Value)) :
  WriteAll lib T rw records = WriteAll lib (withoutPointerMarshalers T) rw records.
Proof.
  revert rw. induction records as [|record records IH]; intros rw; simpl; [done|].
  assert (Write lib (withoutPointerMarshalers T) rw record = Write lib T rw record) as ->.
  { unfold Write.
    destruct (negb (writeHeaderOnce rw));
      [destruct (Csv.Write (writer rw) (map name (fields rw))) as [w [e|]]|];
      cbv zeta; cbn [fields]; rewrite ?encodeFields_withoutPointerMarshalers;
      reflexivity. }
  destruct (Write lib T rw record) as [rw1 [[]|e|m]]; [apply IH|done|done].
Qed.

(** ** Run-time panics *)

Lemma getFieldStringValue_no_panic (lib : Externals) (f : StructField) (v : Value)
    (m : string) :
  encodesWithoutPanic f ->
  getFieldStringValue lib
    (mkRValue (Typ f) v false (negb (String.eqb (PkgPath f) ""))) <> Panic m.
Proof.
  intros [Htime Hhook].
  unfold getFieldStringValue, implementsMarshaler, ptrImplementsMarshaler, callMarshalCSV,
    CanInterface, CanAddr.
  cbn [rtype rval flagAddr flagRO]. rewrite negb_involutive. cbn [andb].
  destruct (String.eqb (PkgPath f) "") eqn:Ep; cbn [andb].
  - destruct (MarshalCSV (Typ f)) as [[g|g]|] eqn:Eh.
    + by apply Hhook.
    + destruct (isTimeType (Typ f)); [done|]. by destruct (TKind (Typ f)).
    + destruct (isTimeType (Typ f)); [done|]. by destruct (TKind (Typ f)).
  - apply String.eqb_neq in Ep.
    destruct (isTimeType (Typ f)) eqn:Et; [by destruct Ep; apply Htime|].
    by destruct (TKind (Typ f)).
Qed.

Lemma encodeFields_no_panic (lib : Externals) (T : RecordType) (record : list Value)
    (fs : list fieldInfo) (m : string) :
  uniqueNames T ->
  (forall fi, fi ∈ fs -> field fi ∈ structFields T /\ encodesWithoutPanic (field fi)) ->
  encodeFields lib T record fs <> Panic m.
Proof.
  intros Hnames. induction fs as [|fi fs IH]; intros Hfs; simpl; [done|].
  destruct (Hfs fi ltac:(by left)) as [Hin Hsafe].
  rewrite (FieldByName_own T record false (field fi) Hnames Hin).
  pose proof (getFieldStringValue_no_panic lib (field fi)
                (default VNil (record !! Index0 (field fi)))) as Hg.
  destruct (getFieldStringValue lib _) as [s|e|m']; [|done|by destruct (Hg m' Hsafe)].
  specialize (IH ltac:(intros fj Hj; apply Hfs; by right)).
  by destruct (encodeFields lib T record fs).
Qed.

Lemma Write_no_panic (lib : Externals) (T : RecordType) (rw : Writer)
    (record : list Value) (m : string) :
  uniqueNames T ->
  (forall fi, fi ∈ fields rw ->
              field fi ∈ structFields T /\ encodesWithoutPanic (field fi)) ->
  (Write lib T rw record).2 <> Panic m /\
  fields (Write lib T rw record).1 = fields rw.
Proof.
  intros Hnames Hfs.
  pose proof (encodeFields_no_panic lib T record (fields rw) m Hnames Hfs) as Henc.
  unfold Write, Csv.Write, Csv.Flush.
  destruct rw as [[o we] fs once]. simpl in *.
  destruct once, we as [e|]; simpl;
    try (destruct (encodeFields lib T record fs) as [row|e'|m']; simpl); split; congruence.
Qed.



Lemma ParseInt_no_panic (s m : string) : Strconv.ParseInt s <> Panic m.
Proof.
  unfold Strconv.ParseInt, Strconv.parseInt64. repeat case_match; discriminate.
Qed.

Lemma ParseBool_no_panic (s m : string) : Strconv.ParseBool s <> Panic m.
Proof. unfold Strconv.ParseBool. repeat case_match; discriminate. Qed.

Lemma setFieldValue_no_panic (lib : Externals) (f : StructField) (v : Value)
    (value m : string) :
  codecsReturn lib -> decodesWithoutPanic f ->
  setFieldValue lib (mkRValue (Typ f) v true false) value <> Panic m.
Proof.
  intros [Hfloat Htime] Hhook.
  unfold setFieldValue, implementsUnmarshaler, ptrImplementsUnmarshaler, callUnmarshalCSV,
    store, CanSet, CanInterface, CanAddr.
  cbn [rtype rval flagAddr flagRO negb andb].
  destruct (UnmarshalCSV (Typ f)) as [[g|g]|] eqn:Eh.
  - by destruct (g value v).
  - by apply Hhook.
  - destruct (isTimeType (Typ f)).
    + pose proof (Htime value) as Ht.
      destruct (time_Parse lib value) as [tm|e|m0]; [done|done|by destruct (Ht m0)].
    + pose proof (Hfloat value) as Hfl. pose proof (ParseInt_no_panic value) as Hi.
      pose proof (ParseBool_no_panic value) as Hb.
      destruct (TKind (Typ f)); try done.
      all: first [destruct (Strconv.ParseInt value) as [z|e|m0];
                    [done|done|by destruct (Hi m0)]
                 |destruct (ParseFloat lib value) as [z|e|m0];
                    [done|done|by destruct (Hfl m0)]
                 |destruct (Strconv.ParseBool value) as [z|e|m0];
                    [done|done|by destruct (Hb m0)]].
Qed.

Lemma Read_no_panic (r : Csv.Reader) (m : string) : (Csv.Read r).1 <> Panic m.
Proof.
  unfold Csv.Read.
  assert (forall ls, (Csv.readRecord ls).1 <> Panic m) as Hread.
  { induction ls as [|[|c cs|msg] ls IH]; simpl; auto; done. }
  pose proof (Hread (Csv.input r)) as Hr.
  destruct (Csv.readRecord (Csv.input r)) as [[record|e|m'] rest]; simpl in Hr;
    repeat case_match; done.
Qed.

Section NoCrash.

Context (lib : Externals) (T : RecordType).

Hypothesis Hnames : uniqueNames T.

Hypothesis Hlib : codecsReturn lib.

Hypothesis Hhooks : forall f, f ∈ structFields T -> decodesWithoutPanic f.

Lemma decodeCells_no_panic (fm : gmap nat StructField) (record : list string)
    (m : string) :
  (forall i f, fm !! i = Some f -> f ∈ structFields T) ->
  forall idx t, decodeCells lib T fm idx record t <> Panic m.
Proof.
  intros Hrange. induction record as [|value rest IH]; intros idx t; simpl; [done|].
  destruct (fm !! idx) as [f|] eqn:Ef; [|apply IH].
  rewrite (FieldByName_own T t true f Hnames (Hrange _ _ Ef)).
  unfold CanSet. cbn [flagAddr flagRO].
  destruct (String.eqb (PkgPath f) "") eqn:Ep; simpl; [|apply IH].
  pose proof (setFieldValue_no_panic lib f (default VNil (t !! Index0 f)) value) as Hs.
  destruct (setFieldValue lib _ value) as [v|e|m']; [apply IH|done|].
  by destruct (Hs m' Hlib (Hhooks f (Hrange _ _ Ef))).
Qed.

Lemma nextRow_no_panic (rb : Reader) (m : string) :
  (forall i f, fieldMap rb !! i = Some f -> f ∈ structFields T) ->
  nextRow lib T rb <> Panic m /\
  forall b rb', nextRow lib T rb = Ok (b, rb') -> fieldMap rb' = fieldMap rb.
Proof.
  intros Hrange. unfold nextRow.
  pose proof (Read_no_panic (reader rb)) as Hr.
  destruct (Csv.Read (reader rb)) as [[record|e|m'] rd]; simpl in Hr;
    [| |by destruct (Hr m')].
  - pose proof (decodeCells_no_panic (fieldMap rb) record) as Hd.
    destruct (decodeCells lib T (fieldMap rb) 0 record (zeroRecord T)) as [t|e|m']
      eqn:Ed.
    + split; [done|]. intros b rb' H. by inversion H.
    + split; [done|]. intros b rb' H. by inversion H.
    + by destruct (Hd m' Hrange 0%nat (zeroRecord T) Ed).
  - destruct e; (split; [done|]); intros b rb' H; by inversion H.
Qed.

Lemma All_no_crash {C : Type} (yield : C -> list Value -> C * bool) (m : string)
    (fuel : nat) :
  forall (rb : Reader) (c : C),
    (length (Csv.input (reader rb)) < fuel)%nat ->
    (forall i f, fieldMap rb !! i = Some f -> f ∈ structFields T) ->
    (All lib T rb yield c).2 <> Crashed m.
Proof.
  induction fuel as [|fuel IH]; intros rb c Hfuel Hrange; [lia|].
  rewrite All_unfold.
  destruct (nextRow_no_panic rb m Hrange) as [_ Hfm].
  pose proof (fun m' => proj1 (nextRow_no_panic rb m' Hrange)) as Hnp.
  destruct (nextRow lib T rb) as [[[] rb1]|e|m'] eqn:E.
  - pose proof (Hfm _ _ eq_refl) as Hsame. apply nextRow_true_lt in E.
    destruct (yield c (current rb1)) as [c' []]; [|done].
    apply IH; [lia|]. by rewrite Hsame.
  - by destruct (err rb1) as [[]|].
  - by destruct (nextRow_never_Err lib T rb e).
  - by destruct (Hnp m').
Qed.

End NoCrash.


